(** * Dependency graph construction and change-impact analysis

    A shallow embedding of the graph builder
    (services/repository-scanner/src/scanner/dependency_builder.py) and of the
    impact analyzer (services/impact-analyzer/src/main.py), with the
    properties of the specification stated over it. Further properties
    cover the callers of that code: the scoring endpoint of the analyzer,
    the dependency step and the default test plan of the workflow
    (services/ai-orchestrator/src/agents/workflow_orchestrator.py), and the
    path validation, the masking functions and the rate limiter of the
    gateway (services/api-gateway/security.py), where the clock is an
    argument.

    Conventions.
    - Python dictionaries whose iteration order is observable (the parsed
      files, the nodes and the edges of a graph) are association lists in
      insertion order; dictionaries and sets whose order is not observable
      are [gmap] and [gset].
    - Python floats are modelled by the rationals they approximate ([Q]):
      [score > 0.7] is a comparison of rationals.
    - A Python call that may raise returns a [result]. *)

From Stdlib Require Import Ascii String QArith Qminmax Lqa DecimalString DecimalNat.
From stdpp Require Import gmap strings list fin_maps sorting.

(** ** Python values and builtins *)

Module Py.

(** The exceptions that occur, by class; the message is left out. *)
Inductive exn : Type :=
| ValueError
| TypeError
| LibraryError.

Inductive result (A : Type) : Type :=
| Return (a : A)
| Raise (e : exn).
Arguments Return {A} a.
Arguments Raise {A} e.

Definition bind {A B} (r : result A) (k : A → result B) : result B :=
  match r with
  | Return a => k a
  | Raise e => Raise e
  end.

(** [sub in s] on strings. *)
Fixpoint str_in (sub s : string) : bool :=
  String.prefix sub s ||
  match s with
  | EmptyString => false
  | String _ s' => str_in sub s'
  end.

(** [s.startswith(p)]. *)
Definition startswith (s p : string) : bool := String.prefix p s.

(** [s.replace(old, new)] for one-character [old] and [new]. *)
Fixpoint replace (old new : ascii) (s : string) : string :=
  match s with
  | EmptyString => EmptyString
  | String c s' =>
      String (if Ascii.eqb c old then new else c) (replace old new s')
  end.

Definition lower_ascii (c : ascii) : ascii :=
  let n := nat_of_ascii c in
  if (65 <=? n)%nat && (n <=? 90)%nat then ascii_of_nat (n + 32) else c.

(** [s.lower()], on ASCII strings. *)
Fixpoint lower (s : string) : string :=
  match s with
  | EmptyString => EmptyString
  | String c s' => String (lower_ascii c) (lower s')
  end.

(** [s.split(sep)] for a one-character separator. *)
Fixpoint split (sep : ascii) (s : string) : list string :=
  match s with
  | EmptyString => [EmptyString]
  | String c s' =>
      if Ascii.eqb c sep then EmptyString :: split sep s'
      else match split sep s' with
           | [] => [String c EmptyString]
           | w :: ws => String c w :: ws
           end
  end.

(** [str(n)] for a non-negative integer, as an f-string prints it. *)
Definition str_of_nat (n : nat) : string :=
  NilEmpty.string_of_uint (Nat.to_uint n).

Fixpoint insert_sorted (x : string) (l : list string) : list string :=
  match l with
  | [] => [x]
  | y :: l' => if String.leb x y then x :: l else y :: insert_sorted x l'
  end.

(** [sorted(l)] on strings: code-point order. *)
Definition sorted (l : list string) : list string :=
  foldr insert_sorted [] l.

(** [any(p(x) for x in l)]. *)
Definition any {A} (p : A → bool) (l : list A) : bool := existsb p l.

Definition Qgtb (x y : Q) : bool := negb (Qle_bool x y).

(** [max(l)] on floats: the first greatest element; on an empty sequence
    Python raises ValueError. *)
Definition max (l : list Q) : result Q :=
  match l with
  | [] => Raise ValueError
  | x :: l' => Return (foldl (λ m y, if Qgtb y m then y else m) x l')
  end.

(** [d.get(k, dflt)]. *)
Definition get {A} (o : option A) (dflt : A) : A := default dflt o.

End Py.

Import Py.

(** ** Parse results

    What the parser hands to the builder: a dictionary from relative file
    path to the digest of that file. The builder reads the [error] key, the
    [name] of every import and of every definition; the other keys
    ([language], [lines_of_code], line numbers, ...) are carried along as
    payload and never read. *)

Module Ast.

Record ImportData : Type := { import_name : option string }.

Record DefData : Type := { def_name : string }.

Record AstData : Type := {
  error : option string;
  imports : list ImportData;
  functions : list DefData;
  classes : list DefData;
  async_functions : list DefData
}.

(** [ast_trees]: insertion-ordered. *)
Definition AstTrees : Type := list (string * AstData).

End Ast.

Import Ast.

(** ** The part of networkx the two services use

    networkx is a library outside the repository: the operations the two
    services call are modelled here from the library's documented behaviour
    (networkx 3), the centralities by their definitions rather than by the
    algorithms that compute them.

    A [DiGraph] keeps its nodes with their attribute dictionaries in
    insertion order, and at most one edge per ordered pair of nodes, with its
    attribute dictionary. networkx stores the edges in per-node adjacency
    dictionaries and iterates over them grouped by source node; here they are
    one list in order of first insertion. *)

Module Nx.

Section Assoc.
Context {K V : Type} `{EqDecision K}.

(** [d[k].update(v)] if [k] is a key of [d], else [d[k] = v]. *)
Fixpoint upsert (merge : V → V → V) (k : K) (v : V) (d : list (K * V))
  : list (K * V) :=
  match d with
  | [] => [(k, v)]
  | (k', v') :: d' =>
      if decide (k = k') then (k', merge v v') :: d'
      else (k', v') :: upsert merge k v d'
  end.

Fixpoint assoc (k : K) (d : list (K * V)) : option V :=
  match d with
  | [] => None
  | (k', v') :: d' => if decide (k = k') then Some v' else assoc k d'
  end.
End Assoc.

(** What the builder passes as [data=...]: never read back by the code. *)
Inductive payload : Type :=
| FileData (ast_data : AstData)
| SymbolData (def : DefData).

Record NodeAttrs : Type := {
  ntype : option string;
  parent_file : option string;
  ndata : option payload;
  betweenness_attr : option Q;
  closeness_attr : option Q;
  degree_attr : option Q
}.

Record EdgeAttrs : Type := {
  etype : option string;
  edata : option ImportData;
  weight : option Q
}.

Definition no_attrs : NodeAttrs :=
  {| ntype := None; parent_file := None; ndata := None;
     betweenness_attr := None; closeness_attr := None; degree_attr := None |}.

Definition or_else {A} (new old : option A) : option A :=
  match new with Some _ => new | None => old end.

(** [old.update(new)] on attribute dictionaries. *)
Definition update_node (new old : NodeAttrs) : NodeAttrs :=
  {| ntype := or_else (ntype new) (ntype old);
     parent_file := or_else (parent_file new) (parent_file old);
     ndata := or_else (ndata new) (ndata old);
     betweenness_attr := or_else (betweenness_attr new) (betweenness_attr old);
     closeness_attr := or_else (closeness_attr new) (closeness_attr old);
     degree_attr := or_else (degree_attr new) (degree_attr old) |}.

Definition update_edge (new old : EdgeAttrs) : EdgeAttrs :=
  {| etype := or_else (etype new) (etype old);
     edata := or_else (edata new) (edata old);
     weight := or_else (weight new) (weight old) |}.

Record DiGraph : Type := {
  nodes : list (string * NodeAttrs);
  edges : list ((string * string) * EdgeAttrs)
}.

Definition empty : DiGraph := {| nodes := []; edges := [] |}.

Definition node_ids (G : DiGraph) : list string := (nodes G).*1.
Definition edge_ids (G : DiGraph) : list (string * string) := (edges G).*1.

(** [n in G]. *)
Definition has_node (G : DiGraph) (n : string) : bool :=
  bool_decide (n ∈ node_ids G).

Definition number_of_nodes (G : DiGraph) : nat := length (nodes G).
Definition number_of_edges (G : DiGraph) : nat := length (edges G).

(** [G.add_node(n, **attrs)]. *)
Definition add_node (n : string) (attrs : NodeAttrs) (G : DiGraph) : DiGraph :=
  {| nodes := upsert update_node n attrs (nodes G); edges := edges G |}.

(** [G.add_edge(u, v, **attrs)]: both end points become nodes if they are
    not yet. *)
Definition add_edge (u v : string) (attrs : EdgeAttrs) (G : DiGraph) : DiGraph :=
  {| nodes := upsert update_node v no_attrs (upsert update_node u no_attrs (nodes G));
     edges := upsert update_edge (u, v) attrs (edges G) |}.

(** *** Degrees *)

Definition successors (G : DiGraph) (u : string) : list string :=
  (filter (λ e, e.1 = u) (edge_ids G)).*2.

Definition predecessors (G : DiGraph) (v : string) : list string :=
  (filter (λ e, e.2 = v) (edge_ids G)).*1.

Definition out_degree_of (G : DiGraph) (n : string) : nat :=
  length (successors G n).
Definition in_degree_of (G : DiGraph) (n : string) : nat :=
  length (predecessors G n).

(** A self-loop counts twice. *)
Definition degree_of (G : DiGraph) (n : string) : nat :=
  (in_degree_of G n + out_degree_of G n)%nat.

(** [G.in_degree(n)] is an integer when [n] is a node of [G]; for any other
    [n] networkx returns a degree view over the nodes that [n] contains. *)
Inductive degree_value : Type :=
| DegreeInt (d : nat)
| DegreeView.

Definition in_degree (G : DiGraph) (n : string) : degree_value :=
  if has_node G n then DegreeInt (in_degree_of G n) else DegreeView.

Definition out_degree (G : DiGraph) (n : string) : degree_value :=
  if has_node G n then DegreeInt (out_degree_of G n) else DegreeView.

(** [dict(G.degree()).values()]. *)
Definition degrees (G : DiGraph) : list nat := degree_of G <$> node_ids G.

(** [G.reverse()]. *)
Definition reverse (G : DiGraph) : DiGraph :=
  {| nodes := nodes G;
     edges := (λ e, ((e.1.2, e.1.1), e.2)) <$> edges G |}.

(** *** Reachability and shortest paths *)

(** The walks of [k] edges that start in [s], as node sequences. *)
Fixpoint walks_from (G : DiGraph) (k : nat) (s : string) : list (list string) :=
  match k with
  | O => [[s]]
  | S k' => successors G s ≫= λ w, (s ::.) <$> walks_from G k' w
  end.

Definition paths (G : DiGraph) (k : nat) (s t : string) : list (list string) :=
  filter (λ p, last p = Some t) (walks_from G k s).

(** The number of edges of a shortest path from [s] to [t], if there is a
    path: a shortest path visits no node twice, so it has fewer edges than
    the graph has nodes. *)
Definition shortest_path_length (G : DiGraph) (s t : string) : option nat :=
  List.find (λ k, bool_decide (paths G k s t ≠ [])) (seq 0 (number_of_nodes G)).

(** [nx.descendants(G, s)]: the nodes other than [s] reachable from [s].
    The services call it only for a node [s] of [G]. *)
Definition descendants (G : DiGraph) (s : string) : gset string :=
  list_to_set
    (filter (λ w, w ≠ s ∧ is_Some (shortest_path_length G s w)) (node_ids G)).

(** [nx.ancestors(G, s)]: the nodes other than [s] that reach [s]. *)
Definition ancestors (G : DiGraph) (s : string) : gset string :=
  descendants (reverse G) s.

(** *** Centralities *)

Definition Qsum (l : list Q) : Q := foldr Qplus 0%Q l.
Definition Qnat (n : nat) : Q := inject_Z (Z.of_nat n).

(** The number of shortest paths from [s] to [t], and of those through [v]. *)
Definition sigma (G : DiGraph) (s t : string) : nat :=
  match shortest_path_length G s t with
  | Some d => length (paths G d s t)
  | None => 0
  end.

Definition sigma_through (G : DiGraph) (s t v : string) : nat :=
  match shortest_path_length G s t with
  | Some d => length (filter (λ p, v ∈ p) (paths G d s t))
  | None => 0
  end.

Definition pair_dependency (G : DiGraph) (v s t : string) : Q :=
  if decide (sigma G s t = 0%nat) then 0%Q
  else (Qnat (sigma_through G s t v) / Qnat (sigma G s t))%Q.

(** Betweenness of [v] in a directed graph, end points excluded,
    normalised by [(n-1)(n-2)] when [n > 2]. *)
Definition betweenness (G : DiGraph) (v : string) : Q :=
  let V := filter (λ s, s ≠ v) (node_ids G) in
  let n := number_of_nodes G in
  let raw :=
    Qsum ((λ s, Qsum (pair_dependency G v s <$> filter (λ t, t ≠ s) V)) <$> V) in
  if decide (n ≤ 2) then raw
  else (raw / (Qnat (n - 1) * Qnat (n - 2)))%Q.

(** Closeness of [u] in a directed graph: over the distances to [u], with
    the Wasserman-Faust scaling by the reachable fraction. *)
Definition closeness (G : DiGraph) (u : string) : Q :=
  let sp := omap (shortest_path_length (reverse G) u) (node_ids G) in
  let totsp := sum_list sp in
  let n := number_of_nodes G in
  if decide (0 < totsp ∧ 1 < n) then
    ((Qnat (length sp) - 1) / Qnat totsp * ((Qnat (length sp) - 1) / (Qnat n - 1)))%Q
  else 0%Q.

Definition per_node (G : DiGraph) (f : string → Q) : gmap string Q :=
  list_to_map ((λ v, (v, f v)) <$> node_ids G).

(** The three entry points, as the services call them. A call may raise. *)
Class Centrality : Type := {
  betweenness_centrality : DiGraph → result (gmap string Q);
  closeness_centrality : DiGraph → result (gmap string Q);
  degree_centrality : DiGraph → result (gmap string Q)
}.

(** networkx itself: on a graph of at most one node the degree centrality
    of the node is 1. *)
Definition networkx : Centrality := {|
  betweenness_centrality G := Return (per_node G (betweenness G));
  closeness_centrality G := Return (per_node G (closeness G));
  degree_centrality G :=
    Return
      (if decide (number_of_nodes G ≤ 1) then per_node G (λ _, 1%Q)
       else per_node G (λ v, Qnat (degree_of G v) * (1 / (Qnat (number_of_nodes G) - 1)))%Q)
|}.

End Nx.

Import Nx.

(** ** The graph builder (dependency_builder.py) *)

Module DependencyGraphBuilder.

(** The stored document: the keys of [graph_data] that
    [load_graph_from_data] reads back, and the two counters. A key that
    a reader looks up with [.get] may be absent. *)
Record NodeDoc : Type := {
  doc_id : string;
  doc_type : option string;
  doc_betweenness_centrality : option Q;
  doc_closeness_centrality : option Q;
  doc_degree_centrality : option Q
}.

Record EdgeDoc : Type := {
  doc_source : string;
  doc_target : string;
  doc_edge_type : option string;
  doc_weight : option Q
}.

Record GraphData : Type := {
  nodes_count : nat;
  edges_count : nat;
  node_types : gmap string nat;
  doc_nodes : list NodeDoc;
  doc_edges : list EdgeDoc
}.

(** The dictionary [get_node_impact] returns. *)
Record NodeImpact : Type := {
  impact_node_id : string;
  impact_node_type : option string;
  impact_descendants : list string;
  impact_ancestors : list string;
  impact_in_degree : degree_value;
  impact_out_degree : degree_value;
  total_impact : nat;
  centrality_metrics : Q * Q * Q
}.

Inductive impact_dict : Type :=
| ImpactError (error : string)
| Impact (metrics : NodeImpact).

Section Builder.
Context {nx : Centrality}.

Definition file_attrs (ast_data : AstData) : NodeAttrs :=
  {| ntype := Some "file"; parent_file := None;
     ndata := Some (FileData ast_data);
     betweenness_attr := None; closeness_attr := None; degree_attr := None |}.

Definition symbol_attrs (kind file_path : string) (d : DefData) : NodeAttrs :=
  {| ntype := Some kind; parent_file := Some file_path;
     ndata := Some (SymbolData d);
     betweenness_attr := None; closeness_attr := None; degree_attr := None |}.

(** [f"{file_path}::{func['name']}"]. *)
Definition symbol_id (file_path : string) (d : DefData) : string :=
  file_path +:+ "::" +:+ def_name d.

Definition add_symbols (kind file_path : string) (defs : list DefData)
    (graph : DiGraph) : DiGraph :=
  foldl (λ g d, add_node (symbol_id file_path d) (symbol_attrs kind file_path d) g)
        graph defs.

(** Body of the first loop: the nodes of one file. *)
Definition add_file_nodes (graph : DiGraph) (entry : string * AstData) : DiGraph :=
  let '(file_path, ast_data) := entry in
  match error ast_data with
  | Some _ => graph
  | None =>
      let graph := add_node file_path (file_attrs ast_data) graph in
      let graph := add_symbols "function" file_path (functions ast_data) graph in
      let graph := add_symbols "class" file_path (classes ast_data) graph in
      add_symbols "async_function" file_path (async_functions ast_data) graph
  end.

(** The test of the innermost loop. *)
Definition import_matches (import_name other_file : string) : bool :=
  str_in import_name other_file
  || startswith (replace "/" "." other_file) (replace "." "/" import_name).

(** [for other_file in ast_trees.keys(): if ...: ...; break]. *)
Fixpoint find_import_target (import_name : string) (keys : list string)
  : option string :=
  match keys with
  | [] => None
  | other_file :: keys' =>
      if import_matches import_name other_file then Some other_file
      else find_import_target import_name keys'
  end.

Definition import_attrs (import_data : ImportData) : EdgeAttrs :=
  {| etype := Some "import"; edata := Some import_data; weight := None |}.

Definition add_import_edge (keys : list string) (file_path : string)
    (graph : DiGraph) (import_data : ImportData) : DiGraph :=
  let name := get (import_name import_data) "" in
  match find_import_target name keys with
  | Some other_file =>
      add_edge file_path other_file (import_attrs import_data) graph
  | None => graph
  end.

(** Body of the second loop: the import edges of one file. *)
Definition add_import_edges (keys : list string) (graph : DiGraph)
    (entry : string * AstData) : DiGraph :=
  let '(file_path, ast_data) := entry in
  match error ast_data with
  | Some _ => graph
  | None => foldl (add_import_edge keys file_path) graph (imports ast_data)
  end.

Definition set_centralities (betweenness closeness degree : gmap string Q)
    (graph : DiGraph) : DiGraph :=
  {| nodes :=
       (λ na : string * NodeAttrs,
          (na.1,
           {| ntype := ntype na.2; parent_file := parent_file na.2;
              ndata := ndata na.2;
              betweenness_attr := Some (get (betweenness !! na.1) 0%Q);
              closeness_attr := Some (get (closeness !! na.1) 0%Q);
              degree_attr := Some (get (degree !! na.1) 0%Q) |}))
       <$> nodes graph;
     edges := edges graph |}.

(** The inner [try]: when a centrality call raises, the graph is returned
    without centrality attributes. *)
Definition add_centrality_metrics (graph : DiGraph) : DiGraph :=
  match betweenness_centrality graph with
  | Raise _ => graph
  | Return betweenness =>
      match closeness_centrality graph with
      | Raise _ => graph
      | Return closeness =>
          match degree_centrality graph with
          | Raise _ => graph
          | Return degree => set_centralities betweenness closeness degree graph
          end
      end
  end.

(** The graph after the two passes over [ast_trees]. *)
Definition nodes_and_edges (ast_trees : AstTrees) : DiGraph :=
  let graph := foldl add_file_nodes Nx.empty ast_trees in
  foldl (add_import_edges ast_trees.*1) graph ast_trees.

Definition build_graph (ast_trees : AstTrees) : DiGraph :=
  add_centrality_metrics (nodes_and_edges ast_trees).

Definition _count_node_types (graph : DiGraph) : gmap string nat :=
  foldl (λ type_counts na,
           let node_type := get (ntype na.2) "unknown" in
           <[node_type := (get (type_counts !! node_type) 0 + 1)%nat]> type_counts)
        ∅ (nodes graph).

Definition _serialize_nodes (graph : DiGraph) : list NodeDoc :=
  (λ na : string * NodeAttrs,
     {| doc_id := na.1;
        doc_type := Some (get (ntype na.2) "unknown");
        doc_betweenness_centrality := Some (get (betweenness_attr na.2) 0%Q);
        doc_closeness_centrality := Some (get (closeness_attr na.2) 0%Q);
        doc_degree_centrality := Some (get (degree_attr na.2) 0%Q) |})
  <$> nodes graph.

Definition _serialize_edges (graph : DiGraph) : list EdgeDoc :=
  (λ e : (string * string) * EdgeAttrs,
     {| doc_source := e.1.1;
        doc_target := e.1.2;
        doc_edge_type := Some (get (etype e.2) "unknown");
        doc_weight := Some (get (weight e.2) 1%Q) |})
  <$> edges graph.

(** The document [store_graph] hands to the store, without the fields
    drawn from the environment (identifier, time stamp) and the graph
    metrics. *)
Definition graph_data (graph : DiGraph) : GraphData :=
  {| nodes_count := number_of_nodes graph;
     edges_count := number_of_edges graph;
     node_types := _count_node_types graph;
     doc_nodes := _serialize_nodes graph;
     doc_edges := _serialize_edges graph |}.

(** Bodies of the two loops of [load_graph_from_data]. A node document
    without [type] loads with the type [None], modelled as no type. *)
Definition load_node (graph : DiGraph) (node_data : NodeDoc) : DiGraph :=
  add_node (doc_id node_data)
    {| ntype := doc_type node_data; parent_file := None; ndata := None;
       betweenness_attr := Some (get (doc_betweenness_centrality node_data) 0%Q);
       closeness_attr := Some (get (doc_closeness_centrality node_data) 0%Q);
       degree_attr := Some (get (doc_degree_centrality node_data) 0%Q) |}
    graph.

Definition load_edge (graph : DiGraph) (edge_data : EdgeDoc) : DiGraph :=
  add_edge (doc_source edge_data) (doc_target edge_data)
    {| etype := doc_edge_type edge_data; edata := None;
       weight := Some (get (doc_weight edge_data) 1%Q) |}
    graph.

Definition load_graph_from_data (data : GraphData) : DiGraph :=
  let graph := foldl load_node Nx.empty (doc_nodes data) in
  foldl load_edge graph (doc_edges data).

Definition node_attrs (graph : DiGraph) (n : string) : NodeAttrs :=
  get (assoc n (nodes graph)) no_attrs.

Definition get_node_impact (node_id : string) (graph : DiGraph) : impact_dict :=
  if negb (has_node graph node_id) then ImpactError "Node not found"
  else
    let descendants := elements (Nx.descendants graph node_id) in
    let ancestors := elements (Nx.ancestors graph node_id) in
    let attrs := node_attrs graph node_id in
    Impact
      {| impact_node_id := node_id;
         impact_node_type := ntype attrs;
         impact_descendants := descendants;
         impact_ancestors := ancestors;
         impact_in_degree := in_degree graph node_id;
         impact_out_degree := out_degree graph node_id;
         total_impact := (length descendants + length ancestors)%nat;
         centrality_metrics :=
           (get (betweenness_attr attrs) 0%Q,
            get (closeness_attr attrs) 0%Q,
            get (degree_attr attrs) 0%Q) |}.

End Builder.

End DependencyGraphBuilder.

(** ** The impact analyzer (impact-analyzer/src/main.py) *)

Module ImpactAnalyzer.

(** A node-link document of a directed graph that is not a multigraph:
    the node identifiers and the links. *)
Record NodeLinkData : Type := {
  link_nodes : list string;
  links : list (string * string)
}.

Definition no_edge_attrs : EdgeAttrs :=
  {| etype := None; edata := None; weight := None |}.

(** [nx.node_link_graph(graph_data)]. *)
Definition node_link_graph (data : NodeLinkData) : DiGraph :=
  foldl (λ g l, add_edge l.1 l.2 no_edge_attrs g)
        (foldl (λ g n, add_node n no_attrs g) Nx.empty (link_nodes data))
        (links data).

Record ImpactResult : Type := {
  changed_files : list string;
  impacted_components : gset string;
  impacted_count : nat;
  criticality_scores : gmap string Q;
  high_risk_areas : list string;
  risk_level : string;
  affected_services : list string;
  recommendations : list string
}.

(** [x / y] for what [G.in_degree(node)] returned and an integer: a degree
    view cannot be divided. *)
Definition true_div (x : degree_value) (y : nat) : result Q :=
  match x with
  | DegreeInt d => Return (Qnat d / Qnat y)%Q
  | DegreeView => Raise TypeError
  end.

Definition _extract_services (components : gset string) : list string :=
  let services : gset string :=
    list_to_set
      (omap (λ component,
               match split "/" component with
               | p0 :: p1 :: _ => if decide (p0 = "services") then Some p1 else None
               | _ => None
               end)
            (elements components)) in
  sorted (elements services).

Definition _generate_recommendations (risk_level : string)
    (impacted_count high_risk_count : nat) (changed_files : list string)
  : list string :=
  let r1 :=
    if decide (risk_level = "CRITICAL") then
      ["URGENT: Extensive impact detected. Recommend staged rollout with feature flags";
       "Implement enhanced monitoring and alerting";
       "Consider rolling back plan if issues detected"]
    else if decide (risk_level = "HIGH") then
      ["High impact detected. Plan comprehensive testing";
       "Deploy with caution, monitor all affected endpoints"]
    else if decide (risk_level = "MEDIUM") then
      ["Standard testing procedures recommended"]
    else [] in
  let r2 :=
    if decide (20 < impacted_count) then
      ["Large blast radius (" +:+ str_of_nat impacted_count
         +:+ " components). Execute thorough integration tests"]
    else [] in
  let r3 :=
    if decide (0 < high_risk_count) then
      ["Focus testing on " +:+ str_of_nat high_risk_count
         +:+ " high-criticality components"]
    else [] in
  let r4 :=
    if any (λ f, str_in "database" (lower f)) changed_files then
      ["Database schema changes detected. Verify migration strategy"]
    else [] in
  let r5 :=
    if any (λ f, str_in "api" (lower f)) changed_files then
      ["API changes detected. Verify backward compatibility"]
    else [] in
  let r6 :=
    if any (λ f, str_in "auth" (lower f) || str_in "security" (lower f)) changed_files then
      ["Security-related changes. Perform security review"]
    else [] in
  r1 ++ r2 ++ r3 ++ r4 ++ r5 ++ r6.

Section Analyzer.
Context {nx : Centrality}.

(** [max(1, max(dict(graph.degree()).values()) if graph.degree() else 1)]. *)
Definition max_degree (graph : DiGraph) : nat :=
  Nat.max 1 (match degrees graph with [] => 1 | ds => max_list ds end).

(** The body of the outer [try] of [calculate_criticality]. *)
Definition criticality (node : string) (graph : DiGraph) : result Q :=
  let in_degree := in_degree graph node in
  let out_degree := out_degree graph node in
  let max_degree := max_degree graph in
  bind (true_div in_degree max_degree) (λ normalized_in_degree,
  bind (true_div out_degree max_degree) (λ normalized_out_degree,
    let betweenness :=
      match betweenness_centrality graph with
      | Return b => get (b !! node) 0%Q
      | Raise _ => 0%Q
      end in
    let closeness :=
      match closeness_centrality graph with
      | Return c => get (c !! node) 0%Q
      | Raise _ => 0%Q
      end in
    let criticality :=
      (normalized_in_degree * 0.4 + normalized_out_degree * 0.2
       + betweenness * 0.3 + closeness * 0.1)%Q in
    Return (Qmin 1 (Qmax 0 criticality)))).

Definition calculate_criticality (node : string) (graph : DiGraph) : Q :=
  match criticality node graph with
  | Return score => score
  | Raise _ => 0.5%Q
  end.

(** The set [impacted_nodes] after the two loops over [changed_files]. *)
Definition impacted_nodes (changed_files : list string) (graph : DiGraph)
  : gset string :=
  let impacted := list_to_set changed_files in
  let impacted :=
    foldl (λ acc file,
             if has_node graph file then acc ∪ descendants graph file else acc)
          impacted changed_files in
  foldl (λ acc file,
           if has_node graph file then acc ∪ ancestors graph file else acc)
        impacted changed_files.

Definition score_nodes (changed_files : list string) (graph : DiGraph)
    (impacted : gset string) : gmap string Q :=
  list_to_map
    ((λ node, (node, calculate_criticality node graph))
     <$> filter (λ node, node ∉ changed_files) (elements impacted)).

Definition classify_risk (high_risk_areas : list string)
    (criticality_scores : gmap string Q) : result string :=
  if decide (5 ≤ length high_risk_areas) then Return "CRITICAL"
  else
    bind (if decide (3 ≤ length high_risk_areas) then Return true
          else bind (max (map_to_list criticality_scores).*2)
                    (λ m, Return (Qgtb m 0.85)))
         (λ high,
    if high : bool then Return "HIGH"
    else
      bind (if decide (1 ≤ length high_risk_areas) then Return true
            else bind (max (map_to_list criticality_scores).*2)
                      (λ m, Return (Qgtb m 0.65)))
           (λ medium, if medium : bool then Return "MEDIUM" else Return "LOW")).

Definition analyze_impact (changed_files : list string) (graph_data : NodeLinkData)
  : result ImpactResult :=
  let graph := node_link_graph graph_data in
  let impacted_nodes := impacted_nodes changed_files graph in
  let criticality_scores := score_nodes changed_files graph impacted_nodes in
  let high_risk_areas :=
    (filter (λ ns : string * Q, Qgtb ns.2 0.7 = true)
            (map_to_list criticality_scores)).*1 in
  bind (classify_risk high_risk_areas criticality_scores) (λ risk_level,
    let affected_services := _extract_services impacted_nodes in
    let recommendations :=
      _generate_recommendations risk_level (size impacted_nodes)
        (length high_risk_areas) changed_files in
    Return
      {| changed_files := changed_files;
         impacted_components := impacted_nodes;
         impacted_count := size impacted_nodes;
         criticality_scores := criticality_scores;
         high_risk_areas := high_risk_areas;
         risk_level := risk_level;
         affected_services := affected_services;
         recommendations := recommendations |}).

End Analyzer.

End ImpactAnalyzer.

Import DependencyGraphBuilder ImpactAnalyzer.

(** ** The specification's own wording, where it is compared with the code *)

Module Spec.

(** Import resolution as the specification words it: the candidate [q]
    matches when [n] is a substring of [q] or [q] with [/] turned into
    [.] starts with [n]; the candidates are tried in sorted order. *)
Definition import_matches (n q : string) : bool :=
  str_in n q || startswith (replace "/" "." q) n.

Definition resolve (n : string) (F : list string) : option string :=
  List.find (import_matches n) (sorted F).

(** The impacted set as the specification words it. *)
Definition seed (changed : list string) (G : DiGraph) : list string :=
  filter (λ f, f ∈ node_ids G) changed.

Definition impacted (changed : list string) (G : DiGraph) : gset string :=
  list_to_set (seed changed G)
  ∪ ⋃ (descendants G <$> seed changed G)
  ∪ ⋃ (ancestors G <$> seed changed G).

(** The score of section 4.4, over the centralities the library returns
    (0 for a centrality whose computation raised). *)
Definition centrality_or_zero (r : result (gmap string Q)) (v : string) : Q :=
  match r with
  | Return m => default 0%Q (m !! v)
  | Raise _ => 0%Q
  end.

Definition max_deg (G : DiGraph) : nat := Nat.max 1 (max_list (degrees G)).

(** The risk table of section 4.5, over the number of high-risk nodes and
    the greatest score. *)
Definition risk_level (high_risk : nat) (max_score : Q) : string :=
  if (5 <=? high_risk)%nat then "CRITICAL"
  else if (3 <=? high_risk)%nat || Qgtb max_score 0.85 then "HIGH"
  else if (1 <=? high_risk)%nat || Qgtb max_score 0.65 then "MEDIUM"
  else "LOW".

Definition score {nx : Centrality} (G : DiGraph) (v : string) : Q :=
  let in_n := (Qnat (in_degree_of G v) / Qnat (max_deg G))%Q in
  let out_n := (Qnat (out_degree_of G v) / Qnat (max_deg G))%Q in
  Qmin 1 (Qmax 0
    (0.4 * in_n + 0.2 * out_n
     + 0.3 * centrality_or_zero (betweenness_centrality G) v
     + 0.1 * centrality_or_zero (closeness_centrality G) v)%Q).

End Spec.

(** ** Inputs used as examples *)

Module Examples.

Definition source_file (names : list string) : AstData :=
  {| error := None;
     imports := (λ n, {| import_name := Some n |}) <$> names;
     functions := []; classes := []; async_functions := [] |}.

Definition unparsed_file : AstData :=
  {| error := Some "SyntaxError"; imports := [];
     functions := []; classes := []; async_functions := [] |}.

(** [a.py] imports [b]; [b.py] could not be parsed. *)
Definition import_of_unparsed : AstTrees :=
  [("a.py", source_file ["b"]); ("b.py", unparsed_file)].

(** Two files that import each other. *)
Definition mutual_imports : AstTrees :=
  [("a.py", source_file ["b"]); ("b.py", source_file ["a"])].

(** A file whose import names a substring of its own path. *)
Definition self_import : AstTrees := [("a.py", source_file ["a"])].

Definition single_file : AstTrees := [("a.py", source_file [])].

(** [a -> b -> c]. *)
Definition chain : NodeLinkData :=
  {| link_nodes := ["a"; "b"; "c"]; links := [("a", "b"); ("b", "c")] |}.

Definition empty_graph : NodeLinkData := {| link_nodes := []; links := [] |}.

(** The fixtures of the repository's unit tests
    (tests/unit_test_impact_analyzer.py, tests/unit_test_dependency_builder.py). *)
Definition sample_graph : NodeLinkData :=
  {| link_nodes := ["file_a"; "file_b"; "file_c"; "service_x"; "api_y"; "cache_z"];
     links := [("file_a", "file_b"); ("file_b", "file_c"); ("file_a", "service_x");
               ("service_x", "api_y"); ("api_y", "cache_z"); ("file_c", "cache_z")] |}.

Definition hub_graph : NodeLinkData :=
  {| link_nodes := link_nodes sample_graph ++ ["hub"];
     links := links sample_graph
              ++ [("file_a", "hub"); ("file_b", "hub"); ("file_c", "hub");
                  ("service_x", "hub")] |}.

Definition sample_ast_trees : AstTrees :=
  [("file_a.py",
    {| error := None;
       imports := [{| import_name := Some "file_b" |};
                   {| import_name := Some "module_c" |}];
       functions := [{| def_name := "func_a" |}];
       classes := [{| def_name := "ClassA" |}];
       async_functions := [] |});
   ("file_b.py",
    {| error := None;
       imports := [{| import_name := Some "file_c" |}];
       functions := [{| def_name := "func_b" |}];
       classes := []; async_functions := [] |});
   ("file_c.py",
    {| error := None; imports := [];
       functions := [{| def_name := "func_c" |}];
       classes := []; async_functions := [] |})].

Definition no_result : ImpactResult :=
  {| changed_files := []; impacted_components := ∅; impacted_count := 0;
     criticality_scores := ∅; high_risk_areas := []; risk_level := "";
     affected_services := []; recommendations := [] |}.

(** The dictionary a call returned. *)
Definition returned (r : result ImpactResult) : ImpactResult :=
  match r with
  | Return x => x
  | Raise _ => no_result
  end.

(** A library whose betweenness computation raises. *)
Definition failing_betweenness : Centrality :=
  {| betweenness_centrality _ := Raise LibraryError;
     closeness_centrality := @closeness_centrality networkx;
     degree_centrality := @degree_centrality networkx |}.

End Examples.

(** ** Well-formed graphs and what a stored document decodes to *)

Module Inv.

(** What networkx guarantees of every graph: each node once, each edge
    once, and the end points of every edge among the nodes. *)
Definition wf (G : DiGraph) : Prop :=
  NoDup (node_ids G) ∧ NoDup (edge_ids G)
  ∧ ∀ u v, (u, v) ∈ edge_ids G → u ∈ node_ids G ∧ v ∈ node_ids G.

(** The attributes of a node and of an edge after a trip through the
    stored document. *)
Definition stored_node (a : NodeAttrs) : NodeAttrs :=
  {| ntype := Some (get (ntype a) "unknown"); parent_file := None; ndata := None;
     betweenness_attr := Some (get (betweenness_attr a) 0%Q);
     closeness_attr := Some (get (closeness_attr a) 0%Q);
     degree_attr := Some (get (degree_attr a) 0%Q) |}.

Definition stored_edge (e : EdgeAttrs) : EdgeAttrs :=
  {| etype := Some (get (etype e) "unknown"); edata := None;
     weight := Some (get (weight e) 1%Q) |}.

(** The three centralities of a node as every reader in the code reads
    them: [attrs.get(name, 0)]. *)
Definition centralities (G : DiGraph) (n : string) : Q * Q * Q :=
  let attrs := node_attrs G n in
  (get (betweenness_attr attrs) 0%Q,
   get (closeness_attr attrs) 0%Q,
   get (degree_attr attrs) 0%Q).

(** The edge relation of a graph, and the node sequences that follow its
    edges. *)
Definition edge (G : DiGraph) (u v : string) : Prop := (u, v) ∈ edge_ids G.

Fixpoint is_walk (G : DiGraph) (p : list string) : Prop :=
  match p with
  | u :: q => match q with
              | v :: _ => edge G u v ∧ is_walk G q
              | [] => True
              end
  | [] => True
  end.

Definition all_imports (G : DiGraph) : Prop :=
  ∀ e, e ∈ edges G → etype e.2 = Some "import".

(** The edges of a graph with their kinds. *)
Definition typed_edges (G : DiGraph) : list ((string * string) * option string) :=
  (λ e, (e.1, etype e.2)) <$> edges G.

End Inv.

Import Inv.

(** ** The dependency step of the workflow (workflow_orchestrator.py) *)

Module WorkflowOrchestrator.

(** The [impact_analysis] entry of the workflow state, without the constant
    [analysis_type] and the time stamp. [impact_count] is set only when a
    graph was analysed. *)
Record ImpactAnalysis : Type := {
  affected_components : list string;
  impact_count : option nat
}.

(** [analyze_dependencies], on the state entries it reads: the affected
    files and the optional node-link document ([None] for a state without
    graph, which the test [if state.get('dependency_graph')] skips). *)
Definition analyze_dependencies (affected_files : list string)
    (dependency_graph : option NodeLinkData) : ImpactAnalysis :=
  match dependency_graph with
  | None => {| affected_components := affected_files; impact_count := None |}
  | Some data =>
      let graph := node_link_graph data in
      let affected : gset string :=
        foldl (λ acc file,
                 if has_node graph file
                 then acc ∪ descendants graph file ∪ ancestors graph file
                 else acc)
              ∅ affected_files in
      {| affected_components := elements affected;
         impact_count := Some (size affected) |}
  end.

(** What the language model answered to the test-planning prompt: a JSON
    object whose [unit_tests] entry, if it has one, has a length; any other
    JSON value, on which the log line that follows raises; a text that is
    not JSON; or no answer, the call having raised. *)
Inductive reply : Type :=
| JsonPlan (document : string)
| JsonOther
| NotJson
| CallFailed.

(** The [test_plan] entry of the workflow state. *)
Inductive TestPlan : Type :=
| PlannedByModel (document : string)
| DefaultPlan (unit_tests integration_tests smoke_tests : list string)
| PlanError.

(** [plan_tests], on the number of affected components and the reply. *)
Definition plan_tests (affected_count : nat) (response : reply) : TestPlan :=
  match response with
  | JsonPlan document => PlannedByModel document
  | NotJson =>
      DefaultPlan
        ((λ i, "test_affected_component_" +:+ str_of_nat i)
         <$> seq 0 (Nat.min 5 affected_count))
        ["integration_test_main_flow"]
        ["smoke_test_critical_paths"]
  | JsonOther | CallFailed => PlanError
  end.

End WorkflowOrchestrator.

(** ** Input validation and masking (api-gateway/security.py) *)

Module Security.

(** ["*" * n]. *)
Fixpoint stars (n : nat) : string :=
  match n with
  | O => EmptyString
  | S n' => String "*" (stars n')
  end.

(** [s[:n]] and [s[n:]] for a non-negative [n]. *)
Fixpoint str_take (n : nat) (s : string) : string :=
  match n, s with
  | S n', String c s' => String c (str_take n' s')
  | _, _ => EmptyString
  end.

Fixpoint str_drop (n : nat) (s : string) : string :=
  match n, s with
  | S n', String _ s' => str_drop n' s'
  | _, _ => s
  end.

(** The character class of [validate_file_path]: the characters
    less-than, greater-than, colon, double quote, bar, question mark and
    star. *)
Definition invalid_characters : list ascii :=
  ["<"; ">"; ":"; ascii_of_nat 34; "|"; "?"; "*"]%char.

Definition validate_file_path (file_path : string) : result string :=
  if str_in ".." file_path || startswith file_path "/" then Raise ValueError
  else if existsb (λ c, bool_decide (c ∈ invalid_characters))
                  (list_ascii_of_string file_path)
       then Raise ValueError
       else Return file_path.

Definition mask_api_key (api_key : string) : string :=
  if decide (String.length api_key ≤ 8) then stars (String.length api_key)
  else
    let visible_chars := 4 in
    str_take visible_chars api_key
    +:+ stars (String.length api_key - 2 * visible_chars)
    +:+ str_drop (String.length api_key - visible_chars) api_key.

(** [local, domain = email.split("@")] raises ValueError unless the split
    has exactly two parts. *)
Definition mask_email (email : string) : result string :=
  if negb (str_in "@" email) then Return "***"
  else
    match split "@" email with
    | [local; domain] =>
        let masked_local :=
          if decide (2 < String.length local) then
            str_take 1 local
            +:+ stars (String.length local - 2)
            +:+ str_drop (String.length local - 1) local
          else stars (String.length local) in
        Return (masked_local +:+ "@" +:+ domain)
    | _ => Raise ValueError
    end.

(** The rate limiter: the two limits and, per client, the times of the
    recorded requests, oldest first. The clock is an argument. *)
Record RateLimiter : Type := {
  requests_per_minute : nat;
  requests_per_hour : nat;
  request_history : gmap string (list Q)
}.

Definition Qltb (x y : Q) : bool := negb (Qle_bool y x).

(** The entries of the last hour, and the number of those of the last
    minute. *)
Definition recent (current_time : Q) (history : list Q) : list Q :=
  List.filter (λ req_time, Qltb (current_time - req_time) 3600) history.

Definition last_minute (current_time : Q) (history : list Q) : nat :=
  length (List.filter (λ req_time, Qltb (current_time - req_time) 60) history).

Definition check_rate_limit (current_time : Q) (client_ip : string)
    (self : RateLimiter) : bool * RateLimiter :=
  let history := recent current_time (get (request_history self !! client_ip) []) in
  let pruned :=
    {| requests_per_minute := requests_per_minute self;
       requests_per_hour := requests_per_hour self;
       request_history := <[client_ip := history]> (request_history self) |} in
  if decide (requests_per_minute self ≤ last_minute current_time history)
  then (false, pruned)
  else if decide (requests_per_hour self ≤ length history) then (false, pruned)
  else
    (true,
     {| requests_per_minute := requests_per_minute self;
        requests_per_hour := requests_per_hour self;
        request_history :=
          <[client_ip := history ++ [current_time]]> (request_history self) |}).

Definition get_remaining_requests (current_time : Q) (client_ip : string)
    (self : RateLimiter) : (nat * nat) * RateLimiter :=
  match request_history self !! client_ip with
  | None => ((requests_per_minute self, requests_per_hour self), self)
  | Some old =>
      let history := recent current_time old in
      ((requests_per_minute self - last_minute current_time history,
        requests_per_hour self - length history),
       {| requests_per_minute := requests_per_minute self;
          requests_per_hour := requests_per_hour self;
          request_history := <[client_ip := history]> (request_history self) |})
  end.

(** [RateLimiter(requests_per_minute, requests_per_hour)]. *)
Definition RateLimiter_init (per_minute per_hour : nat) : RateLimiter :=
  {| requests_per_minute := per_minute;
     requests_per_hour := per_hour;
     request_history := ∅ |}.

(** A run of the limiter: the requests, as time and client, in the order
    they arrive, and the answers they get. *)
Fixpoint serve (self : RateLimiter) (requests : list (Q * string))
  : list bool * RateLimiter :=
  match requests with
  | [] => ([], self)
  | (current_time, client_ip) :: rest =>
      let '(ok, self') := check_rate_limit current_time client_ip self in
      let '(oks, final) := serve self' rest in
      (ok :: oks, final)
  end.

(** The times of the requests of [client_ip] that were let through. *)
Fixpoint admitted (client_ip : string) (requests : list (Q * string))
    (answers : list bool) : list Q :=
  match requests, answers with
  | (current_time, ip) :: requests', ok :: answers' =>
      (if ok && bool_decide (ip = client_ip) then [current_time] else [])
      ++ admitted client_ip requests' answers'
  | _, _ => []
  end.

(** The limiter and the times of the requests it let through agree on
    every window that ends at [now], and those windows are within the
    limits. *)
Definition within_limits (per_minute per_hour : nat) (now : Q)
    (self : RateLimiter) (log : string → list Q) : Prop :=
  requests_per_minute self = per_minute ∧ requests_per_hour self = per_hour
  ∧ ∀ ip, recent now (get (request_history self !! ip) []) = recent now (log ip)
          ∧ last_minute now (log ip) ≤ per_minute
          ∧ length (recent now (log ip)) ≤ per_hour.

(** The number of occurrences of a character in a string. *)
Definition occurrences (c : ascii) (s : string) : nat :=
  length (filter (λ a, a = c) (list_ascii_of_string s)).

End Security.

(** ** The scoring endpoint (impact-analyzer/src/main.py) *)

Module Api.

(** The response of [/api/v1/criticality/calculate], without the constant
    [status] and the time stamp. *)
Record CriticalityResponse : Type := {
  node_count : nat;
  criticality_scores : gmap string Q
}.

Definition calculate_criticality {nx : Centrality} (graph_data : NodeLinkData)
  : CriticalityResponse :=
  let graph := node_link_graph graph_data in
  {| node_count := length (node_ids graph);
     criticality_scores :=
       foldl (λ scores node,
                <[node := ImpactAnalyzer.calculate_criticality node graph]> scores)
             ∅ (node_ids graph) |}.

End Api.

(** ** Notions used to state further properties of the code *)

Module Facts.

(** The definitions of a file that become nodes. *)
Definition definitions (ast_data : AstData) : list DefData :=
  functions ast_data ++ classes ast_data ++ async_functions ast_data.

(** What the builder guarantees of the attributes of a node [v]. *)
Definition built_node (ast_trees : AstTrees) (v : string) (a : NodeAttrs) : Prop :=
  (ntype a = None
   ∨ ntype a ∈ [Some "file"; Some "function"; Some "class"; Some "async_function"])
  ∧ ∀ p, parent_file a = Some p →
         ∃ ast_data s, (p, ast_data) ∈ ast_trees ∧ error ast_data = None
                       ∧ s ∈ definitions ast_data ∧ v = symbol_id p s.

Definition built (ast_trees : AstTrees) (G : DiGraph) : Prop :=
  ∀ v a, (v, a) ∈ nodes G → built_node ast_trees v a.

(** No edge carries a weight. *)
Definition unweighted (G : DiGraph) : Prop :=
  ∀ e, e ∈ edges G → weight e.2 = None.

(** The number of import entries of the files that were parsed. *)
Definition import_count (ast_trees : AstTrees) : nat :=
  sum_list ((λ entry : string * AstData,
               match error entry.2 with
               | Some _ => 0
               | None => length (imports entry.2)
               end) <$> ast_trees).

(** The sum of the counts of [node_types]. *)
Definition total_count (type_counts : gmap string nat) : nat :=
  map_fold (λ _ count total, count + total) 0 type_counts.

(** Some changed file is a node of the graph and is joined, by a path in
    either direction, to something that is not a changed file. *)
Definition connected_outside (changed : list string) (G : DiGraph) : Prop :=
  ∃ s v, s ∈ changed ∧ s ∈ node_ids G ∧ (v ∉ changed)
         ∧ (rtc (edge G) s v ∨ rtc (edge G) v s).

(** A script whose import entry has no name, as the line-based parsers
    produce it, after a Python file. *)
Definition nameless_import : AstTrees :=
  [("lib/util.py", Examples.source_file []);
   ("web/app.js",
    {| error := None; imports := [{| import_name := None |}];
       functions := []; classes := []; async_functions := [] |})].

End Facts.

Import Facts.

(** ** Association lists *)

Section AssocFacts.
Context {K V : Type} `{EqDecision K}.
Implicit Types (d : list (K * V)) (k : K) (v : V) (merge : V → V → V).

Lemma upsert_keys_in merge k v d :
  k ∈ d.*1 → (upsert merge k v d).*1 = d.*1.
Proof.
  induction d as [|[k' v'] d IH]; simpl.
  - by intros ?%elem_of_nil.
  - intros Hin. destruct (decide (k = k')) as [->|Hne]; simpl; [done|].
    f_equal. apply IH. by apply elem_of_cons in Hin as [?|?].
Qed.

Lemma upsert_keys_fresh merge k v d :
  k ∉ d.*1 → upsert merge k v d = d ++ [(k, v)].
Proof.
  induction d as [|[k' v'] d IH]; simpl; [done|].
  intros Hnin. apply not_elem_of_cons in Hnin as [Hne Hnin].
  destruct (decide (k = k')); [done|]. by rewrite IH.
Qed.

Lemma elem_of_upsert_keys merge k v d k' :
  k' ∈ (upsert merge k v d).*1 ↔ k' = k ∨ k' ∈ d.*1.
Proof.
  destruct (decide (k ∈ d.*1)) as [Hin|Hnin].
  - rewrite upsert_keys_in by done. split; [by right|by intros [->|?]].
  - rewrite upsert_keys_fresh, fmap_app, elem_of_app by done.
    simpl. rewrite list_elem_of_singleton. tauto.
Qed.

Lemma NoDup_upsert_keys merge k v d :
  NoDup d.*1 → NoDup (upsert merge k v d).*1.
Proof.
  intros Hnd. destruct (decide (k ∈ d.*1)) as [Hin|Hnin].
  - by rewrite upsert_keys_in.
  - rewrite upsert_keys_fresh, fmap_app by done. simpl.
    apply NoDup_app. split_and!; [done| |apply NoDup_singleton].
    intros x Hx ->%list_elem_of_singleton. done.
Qed.

Lemma upsert_id merge k v d :
  (∀ v', merge v v' = v') → k ∈ d.*1 → upsert merge k v d = d.
Proof.
  intros Hm. induction d as [|[k' v'] d IH]; simpl.
  - by intros ?%elem_of_nil.
  - intros Hin. destruct (decide (k = k')) as [->|Hne]; [by rewrite Hm|].
    f_equal. apply IH. by apply elem_of_cons in Hin as [?|?].
Qed.

Lemma assoc_Some_keys k d v : assoc k d = Some v → (k, v) ∈ d.
Proof.
  induction d as [|[k' v'] d IH]; simpl; [done|].
  destruct (decide (k = k')) as [->|].
  - intros [= ->]. left.
  - intros. right. auto.
Qed.

Lemma assoc_NoDup k d v : NoDup d.*1 → (k, v) ∈ d → assoc k d = Some v.
Proof.
  induction d as [|[k' v'] d IH]; simpl.
  - by intros _ ?%elem_of_nil.
  - intros [Hnin Hnd]%NoDup_cons [Heq|Hin]%elem_of_cons.
    + injection Heq as -> ->. by rewrite decide_True.
    + destruct (decide (k = k')) as [->|]; [|by apply IH].
      exfalso. apply Hnin. apply list_elem_of_fmap. by exists (k', v).
Qed.
End AssocFacts.

Section AssocValues.
Context {K V : Type} `{EqDecision K}.
Implicit Types (d : list (K * V)) (k : K) (v : V) (merge : V → V → V).

Lemma elem_of_upsert merge k v d k' v' :
  (k', v') ∈ upsert merge k v d →
  (k', v') ∈ d ∨ (k' = k ∧ (v' = v ∨ ∃ v0, (k, v0) ∈ d ∧ v' = merge v v0)).
Proof.
  induction d as [|[k0 v0] d IH]; simpl.
  - intros [= -> ->]%list_elem_of_singleton. right. split; [done|by left].
  - destruct (decide (k = k0)) as [->|Hne].
    + intros [Heq|Hin]%elem_of_cons.
      * injection Heq as -> ->. right. split; [done|]. right.
        exists v0. split; [left|done].
      * left. by right.
    + intros [Heq|Hin]%elem_of_cons.
      * left. rewrite Heq. left.
      * destruct (IH Hin) as [?|[-> [->|(v1 & ? & ->)]]].
        -- left. by right.
        -- right. split; [done|by left].
        -- right. split; [done|]. right. exists v1. split; [by right|done].
Qed.

Lemma foldl_upsert_fresh merge (l acc : list (K * V)) :
  NoDup (acc ++ l).*1 →
  foldl (λ d kv, upsert merge kv.1 kv.2 d) acc l = acc ++ l.
Proof.
  revert acc. induction l as [|[k v] l IH]; intros acc Hnd; simpl.
  - by rewrite app_nil_r.
  - rewrite upsert_keys_fresh.
    + rewrite IH; rewrite <- app_assoc; done.
    + rewrite fmap_app in Hnd. apply NoDup_app in Hnd as (_ & Hdisj & _).
      intros Hin. apply (Hdisj k Hin). left.
Qed.
End AssocValues.

(** ** Graph operations keep graphs well formed *)

Lemma update_no_attrs (a : NodeAttrs) : update_node no_attrs a = a.
Proof. by destruct a. Qed.

Lemma wf_empty : wf Nx.empty.
Proof.
  split_and!; [apply NoDup_nil_2..|]. by intros u v ?%elem_of_nil.
Qed.

Lemma node_ids_add_node n a G x :
  x ∈ node_ids (add_node n a G) ↔ x = n ∨ x ∈ node_ids G.
Proof. apply elem_of_upsert_keys. Qed.

Lemma edge_ids_add_node n a G : edge_ids (add_node n a G) = edge_ids G.
Proof. done. Qed.

Lemma node_ids_add_edge u v a G x :
  x ∈ node_ids (add_edge u v a G) ↔ x = u ∨ x = v ∨ x ∈ node_ids G.
Proof.
  unfold node_ids, add_edge; simpl.
  rewrite !elem_of_upsert_keys. tauto.
Qed.

Lemma edge_ids_add_edge u v a G e :
  e ∈ edge_ids (add_edge u v a G) ↔ e = (u, v) ∨ e ∈ edge_ids G.
Proof. apply elem_of_upsert_keys. Qed.

Lemma wf_add_node n a G : wf G → wf (add_node n a G).
Proof.
  intros (Hn & He & Hends). split_and!.
  - by apply NoDup_upsert_keys.
  - done.
  - intros u v Huv. rewrite !node_ids_add_node.
    destruct (Hends u v Huv). auto.
Qed.

Lemma wf_add_edge u v a G : wf G → wf (add_edge u v a G).
Proof.
  intros (Hn & He & Hends). split_and!.
  - unfold node_ids, add_edge; simpl. by do 2 apply NoDup_upsert_keys.
  - by apply NoDup_upsert_keys.
  - intros u' v' [[= -> ->]|Huv]%edge_ids_add_edge; rewrite !node_ids_add_edge.
    + auto.
    + destruct (Hends u' v' Huv). auto.
Qed.

Lemma wf_foldl {A} (f : DiGraph → A → DiGraph) (l : list A) G :
  (∀ g x, wf g → wf (f g x)) → wf G → wf (foldl f G l).
Proof.
  intros Hf. revert G. induction l as [|x l IH]; intros G HG; simpl; auto.
Qed.

Create HintDb wf.
#[local] Hint Resolve wf_empty wf_add_node wf_add_edge : wf.

(** ** The passes of the builder *)

Section BuilderFacts.
Context {nx : Centrality}.

Lemma edges_add_symbols kind file_path defs G :
  edges (add_symbols kind file_path defs G) = edges G.
Proof.
  unfold add_symbols. revert G.
  induction defs as [|d defs IH]; intros G; simpl; [done|]. by rewrite IH.
Qed.

Lemma wf_add_symbols kind file_path defs G :
  wf G → wf (add_symbols kind file_path defs G).
Proof. intros. apply wf_foldl; auto with wf. Qed.

Lemma edges_add_file_nodes G entry : edges (add_file_nodes G entry) = edges G.
Proof.
  destruct entry as [file_path ast_data]. unfold add_file_nodes.
  destruct (error ast_data); [done|]. by rewrite !edges_add_symbols.
Qed.

Lemma wf_add_file_nodes G entry : wf G → wf (add_file_nodes G entry).
Proof.
  destruct entry as [file_path ast_data]. unfold add_file_nodes. intros.
  destruct (error ast_data); [done|]. auto using wf_add_symbols with wf.
Qed.

Lemma edges_first_pass l G : edges (foldl add_file_nodes G l) = edges G.
Proof.
  revert G. induction l as [|x l IH]; intros G; simpl; [done|].
  by rewrite IH, edges_add_file_nodes.
Qed.

Lemma wf_add_import_edge keys file_path G import_data :
  wf G → wf (add_import_edge keys file_path G import_data).
Proof.
  unfold add_import_edge. intros. destruct (find_import_target _ _); auto with wf.
Qed.

Lemma wf_add_import_edges keys G entry :
  wf G → wf (add_import_edges keys G entry).
Proof.
  destruct entry as [file_path ast_data]. unfold add_import_edges. intros.
  destruct (error ast_data); [done|].
  apply wf_foldl; auto using wf_add_import_edge.
Qed.

(** The edges one file adds: one for each of its imports that finds a
    target. *)
Lemma edge_ids_import_loop keys file_path imps G p q :
  (p, q) ∈ edge_ids (foldl (add_import_edge keys file_path) G imps) ↔
  (p, q) ∈ edge_ids G
  ∨ (p = file_path
     ∧ ∃ imp, imp ∈ imps
              ∧ find_import_target (get (import_name imp) "") keys = Some q).
Proof.
  revert G. induction imps as [|imp imps IH]; intros G; simpl.
  - split; [by left|]. intros [?|(_ & imp & ?%elem_of_nil & _)]; done.
  - rewrite IH. unfold add_import_edge.
    destruct (find_import_target _ keys) as [t|] eqn:Ht.
    + rewrite edge_ids_add_edge. split.
      * intros [[[= -> ->]|?]|(-> & imp' & ? & ?)].
        -- right. split; [done|]. exists imp. split; [left|done].
        -- by left.
        -- right. split; [done|]. exists imp'. split; [by right|done].
      * intros [?|(-> & imp' & [->|?]%elem_of_cons & Hf)].
        -- left. by right.
        -- left. left. congruence.
        -- right. split; [done|]. by exists imp'.
    + split.
      * intros [?|(-> & imp' & ? & ?)]; [by left|].
        right. split; [done|]. exists imp'. split; [by right|done].
      * intros [?|(-> & imp' & [->|?]%elem_of_cons & Hf)]; [by left|congruence|].
        right. split; [done|]. by exists imp'.
Qed.

Lemma edge_ids_second_pass keys l G p q :
  (p, q) ∈ edge_ids (foldl (add_import_edges keys) G l) ↔
  (p, q) ∈ edge_ids G
  ∨ ∃ ast_data imp,
      (p, ast_data) ∈ l ∧ error ast_data = None ∧ imp ∈ imports ast_data
      ∧ find_import_target (get (import_name imp) "") keys = Some q.
Proof.
  revert G. induction l as [|[file_path ast_data] l IH]; intros G; simpl.
  - split; [by left|]. intros [?|(? & ? & ?%elem_of_nil & _)]; done.
  - rewrite IH. destruct (error ast_data) eqn:Herr.
    + split.
      * intros [?|(a & imp & ? & ? & ? & ?)]; [by left|].
        right. exists a, imp. split_and!; [by right|done..].
      * intros [?|(a & imp & [[= <- <-]|?]%elem_of_cons & ? & ? & ?)];
          [by left|congruence|].
        right. by exists a, imp.
    + rewrite edge_ids_import_loop. split.
      * intros [[?|(-> & imp & ? & ?)]|(a & imp & ? & ? & ? & ?)].
        -- by left.
        -- right. exists ast_data, imp. split_and!; [left|done..].
        -- right. exists a, imp. split_and!; [by right|done..].
      * intros [?|(a & imp & [[= <- <-]|?]%elem_of_cons & ? & ? & ?)].
        -- left. by left.
        -- left. right. split; [done|]. by exists imp.
        -- right. by exists a, imp.
Qed.

Lemma edges_add_centrality_metrics G : edges (add_centrality_metrics G) = edges G.
Proof.
  unfold add_centrality_metrics.
  by destruct (betweenness_centrality G), (closeness_centrality G),
    (degree_centrality G).
Qed.

Lemma node_ids_set_centralities b c d G :
  node_ids (set_centralities b c d G) = node_ids G.
Proof.
  unfold node_ids, set_centralities; simpl.
  rewrite <- list_fmap_compose. by apply list_fmap_ext.
Qed.

Lemma node_ids_add_centrality_metrics G :
  node_ids (add_centrality_metrics G) = node_ids G.
Proof.
  unfold add_centrality_metrics.
  destruct (betweenness_centrality G), (closeness_centrality G),
    (degree_centrality G); auto using node_ids_set_centralities.
Qed.

Lemma wf_add_centrality_metrics G : wf G → wf (add_centrality_metrics G).
Proof.
  unfold wf, edge_ids.
  by rewrite node_ids_add_centrality_metrics, edges_add_centrality_metrics.
Qed.

Lemma wf_nodes_and_edges ast_trees : wf (nodes_and_edges ast_trees).
Proof.
  unfold nodes_and_edges.
  apply wf_foldl; [auto using wf_add_import_edges|].
  apply wf_foldl; auto using wf_add_file_nodes with wf.
Qed.

Lemma wf_build_graph ast_trees : wf (build_graph ast_trees).
Proof. apply wf_add_centrality_metrics, wf_nodes_and_edges. Qed.

Lemma edge_ids_build_graph ast_trees p q :
  (p, q) ∈ edge_ids (build_graph ast_trees) ↔
  ∃ ast_data imp,
    (p, ast_data) ∈ ast_trees ∧ error ast_data = None ∧ imp ∈ imports ast_data
    ∧ find_import_target (get (import_name imp) "") ast_trees.*1 = Some q.
Proof.
  unfold build_graph, nodes_and_edges, edge_ids.
  rewrite edges_add_centrality_metrics.
  fold (edge_ids (foldl (add_import_edges ast_trees.*1)
                        (foldl add_file_nodes Nx.empty ast_trees) ast_trees)).
  rewrite edge_ids_second_pass. unfold edge_ids at 1.
  rewrite edges_first_pass. simpl. split; [|by right].
  by intros [?%elem_of_nil|?].
Qed.

End BuilderFacts.

(** ** Storing and loading a graph *)

Section CodecFacts.

Lemma assoc_prod_map {K A B} `{EqDecision K} (f : A → B) (k : K)
    (d : list (K * A)) :
  assoc k (prod_map id f <$> d) = f <$> assoc k d.
Proof.
  induction d as [|[k' a] d IH]; simpl; [done|].
  by destruct (decide (k = k')).
Qed.

Lemma keys_prod_map {K A B} (f : A → B) (d : list (K * A)) :
  (prod_map id f <$> d).*1 = d.*1.
Proof. rewrite <- list_fmap_compose. by apply list_fmap_ext; intros ? []. Qed.

Lemma load_nodes_fresh (l : list (string * NodeAttrs)) G0 :
  NoDup (nodes G0 ++ l).*1 →
  foldl load_node G0 (_serialize_nodes {| nodes := l; edges := [] |})
  = {| nodes := nodes G0 ++ (prod_map id stored_node <$> l); edges := edges G0 |}.
Proof.
  revert G0. induction l as [|[n a] l IH]; intros G0 Hnd; simpl.
  - rewrite app_nil_r. by destruct G0.
  - assert (n ∉ (nodes G0).*1) as Hfresh.
    { rewrite fmap_app in Hnd. apply NoDup_app in Hnd as (_ & Hdisj & _).
      intros Hin. apply (Hdisj n Hin). left. }
    unfold _serialize_nodes in IH. simpl in IH. rewrite IH.
    + unfold load_node, add_node; simpl. rewrite upsert_keys_fresh by done.
      by rewrite <- app_assoc.
    + unfold load_node, add_node; simpl. rewrite upsert_keys_fresh by done.
      rewrite <- app_assoc. simpl. by rewrite !fmap_app in *.
Qed.

Lemma load_edges_fresh (l : list ((string * string) * EdgeAttrs)) G1 :
  NoDup (edges G1 ++ l).*1 →
  (∀ u v, (u, v) ∈ l.*1 → u ∈ node_ids G1 ∧ v ∈ node_ids G1) →
  foldl load_edge G1 (_serialize_edges {| nodes := []; edges := l |})
  = {| nodes := nodes G1; edges := edges G1 ++ (prod_map id stored_edge <$> l) |}.
Proof.
  revert G1. induction l as [|[[u v] a] l IH]; intros G1 Hnd Hends; simpl.
  - rewrite app_nil_r. by destruct G1.
  - destruct (Hends u v) as [Hu Hv]; [left|].
    assert (load_edge G1
              {| doc_source := u; doc_target := v;
                 doc_edge_type := Some (get (etype a) "unknown");
                 doc_weight := Some (get (weight a) 1%Q) |}
            = {| nodes := nodes G1; edges := edges G1 ++ [((u, v), stored_edge a)] |})
      as Hstep.
    { unfold load_edge, add_edge; simpl. f_equal.
      - rewrite (upsert_id _ u) by (auto using update_no_attrs).
        by rewrite (upsert_id _ v) by (auto using update_no_attrs).
      - rewrite upsert_keys_fresh; [done|].
        rewrite fmap_app in Hnd. apply NoDup_app in Hnd as (_ & Hdisj & _).
        intros Hin. apply (Hdisj (u, v) Hin). left. }
    unfold _serialize_edges in IH. simpl in IH. rewrite Hstep, IH; simpl.
    + by rewrite <- app_assoc.
    + rewrite <- app_assoc. simpl. by rewrite !fmap_app in *.
    + intros u' v' Hin. apply Hends. by right.
Qed.

(** Loading a stored graph gives back its nodes and edges, in the same
    order, with the stored attributes. *)
Lemma load_graph_data H :
  wf H →
  load_graph_from_data (graph_data H)
  = {| nodes := prod_map id stored_node <$> nodes H;
       edges := prod_map id stored_edge <$> edges H |}.
Proof.
  intros (Hn & He & Hends). unfold load_graph_from_data, graph_data. simpl.
  change (_serialize_nodes H) with (_serialize_nodes {| nodes := nodes H; edges := [] |}).
  change (_serialize_edges H) with (_serialize_edges {| nodes := []; edges := edges H |}).
  rewrite load_nodes_fresh by done. rewrite load_edges_fresh; simpl; [done..|].
  intros u v Huv. unfold node_ids; simpl. rewrite keys_prod_map. by apply Hends.
Qed.

End CodecFacts.

Section ImportEdges.
Context {nx : Centrality}.

Lemma all_imports_add_node n a G : all_imports G → all_imports (add_node n a G).
Proof. done. Qed.

Lemma all_imports_add_edge u v i G :
  all_imports G → all_imports (add_edge u v (import_attrs i) G).
Proof.
  intros HG [k a] Hin. simpl.
  apply elem_of_upsert in Hin as [Hin|[-> [->|(a0 & _ & ->)]]]; [|done..].
  apply (HG _ Hin).
Qed.

Lemma all_imports_foldl {A} (f : DiGraph → A → DiGraph) (l : list A) G :
  (∀ g x, all_imports g → all_imports (f g x)) →
  all_imports G → all_imports (foldl f G l).
Proof.
  intros Hf. revert G. induction l as [|x l IH]; intros G HG; simpl; auto.
Qed.

Lemma all_imports_build_graph ast_trees : all_imports (build_graph ast_trees).
Proof.
  unfold build_graph, nodes_and_edges, all_imports.
  rewrite edges_add_centrality_metrics.
  apply all_imports_foldl.
  - intros g [file_path ast_data] Hg. unfold add_import_edges.
    destruct (error ast_data); [done|].
    apply all_imports_foldl; [|done].
    intros g' i Hg'. unfold add_import_edge.
    destruct (find_import_target _ _); auto using all_imports_add_edge.
  - unfold all_imports. rewrite edges_first_pass. by intros e ?%elem_of_nil.
Qed.
End ImportEdges.

(** ** Import resolution *)

Lemma swapped_separators (a b : ascii) :
  (if Ascii.eqb a "." then "/"%char else a)
  = (if Ascii.eqb b "/" then "."%char else b) →
  a = b.
Proof.
  destruct (Ascii.eqb_spec a "."), (Ascii.eqb_spec b "/"); subst; intros H;
    first [discriminate H | congruence].
Qed.

Lemma prefix_replaced (n q : string) :
  String.prefix (replace "." "/" n) (replace "/" "." q) = true →
  String.prefix n q = true.
Proof.
  revert q. induction n as [|a n IH]; intros [|b q]; cbn [replace String.prefix];
    try done.
  destruct (ascii_dec _ _) as [Heq|]; [|done].
  apply swapped_separators in Heq as ->.
  destruct (ascii_dec b b); [auto|done].
Qed.

Lemma prefix_str_in (n q : string) : String.prefix n q = true → str_in n q = true.
Proof. intros H. destruct q; cbn [str_in]; by rewrite H. Qed.

(** The second test of the builder never adds a match: taken together, the
    two tests accept exactly the paths that contain the import name. *)
Lemma import_matches_str_in (n q : string) :
  DependencyGraphBuilder.import_matches n q = str_in n q.
Proof.
  unfold DependencyGraphBuilder.import_matches, startswith.
  destruct (str_in n q) eqn:Hin; [done|]. simpl.
  destruct (String.prefix _ _) eqn:Hp; [|done].
  apply prefix_replaced, prefix_str_in in Hp. congruence.
Qed.

(** C4 (as stated, fails). With the files inserted as [b/x.py], [a/x.py],
    the import [x] resolves to [b/x.py], not to the first match in sorted
    order, and inserting the two files the other way round changes the
    target. *)
Lemma import_resolution_not_sorted :
  find_import_target "x" ["b/x.py"; "a/x.py"] ≠ Spec.resolve "x" ["b/x.py"; "a/x.py"]
  ∧ find_import_target "x" ["b/x.py"; "a/x.py"]
    ≠ find_import_target "x" ["a/x.py"; "b/x.py"].
Proof. split; compute_done. Qed.

(** C4 (amended). Import resolution tries the paths in the iteration order
    of the parse-result dictionary, which is its insertion order, and stops
    at the first path that matches: the target is that path, every path
    before it fails the test, and no target is found exactly when every path
    fails it. A path of which the import name is a substring matches. *)
Theorem find_import_target_first_match (n : string) (F : list string) :
  (∀ q, str_in n q = true → DependencyGraphBuilder.import_matches n q = true)
  ∧ match find_import_target n F with
    | Some q =>
        ∃ before after,
          F = before ++ q :: after
          ∧ DependencyGraphBuilder.import_matches n q = true
          ∧ Forall (λ q', DependencyGraphBuilder.import_matches n q' = false) before
    | None => Forall (λ q', DependencyGraphBuilder.import_matches n q' = false) F
    end.
Proof.
  split.
  { intros q Hq. unfold DependencyGraphBuilder.import_matches. by rewrite Hq. }
  induction F as [|q0 F IH]; simpl; [done|].
  destruct (DependencyGraphBuilder.import_matches n q0) eqn:Hq0.
  - exists [], F. by split_and!.
  - destruct (find_import_target n F) as [q|].
    + destruct IH as (before & after & -> & Hq & Hbefore).
      exists (q0 :: before), after. split_and!; [done..|]. by constructor.
    + by constructor.
Qed.

(** ** Files that could not be parsed *)

(** C3 (the code departs from it). [a.py] imports [b] and [b.py] carries
    the error tag: the second pass searches the keys of the parse results,
    not the nodes of the graph, so the edge [a.py -> b.py] is added and
    with it a node [b.py]. *)
Theorem unparsed_file_becomes_import_target :
  let G := build_graph (nx := networkx) Examples.import_of_unparsed in
  error Examples.unparsed_file = Some "SyntaxError"
  ∧ "b.py" ∈ node_ids G
  ∧ ("a.py", "b.py") ∈ edge_ids G.
Proof. intros G. split_and!; compute_done. Qed.

(** ** The edges of a built graph *)

(** C8 (as stated, fails). A file whose import names a substring of its own
    path, here [a.py] importing [a], gets the edge [a.py -> a.py]. *)
Lemma builder_adds_self_loop :
  ¬ (∀ (ast_trees : AstTrees) (p : string),
       (p, p) ∉ edge_ids (build_graph (nx := networkx) ast_trees)).
Proof. intros H. apply (H Examples.self_import "a.py"). compute_done. Qed.

(** C8 (amended). For a file [q] that does not carry the error tag, the
    built graph has the edge [p -> q] exactly when [p] is a file without the
    error tag and one of the imports of [p] resolves to [q], the first path
    of the parse results that matches the import name. The builder does not
    compare [q] with [p]: an import that resolves to the importing file
    itself gives the self-loop [p -> p]. *)
Theorem build_graph_edges {nx : Centrality} (ast_trees : AstTrees) (p q : string) :
  (∀ ast_data, (q, ast_data) ∈ ast_trees → error ast_data = None) →
  (p, q) ∈ edge_ids (build_graph ast_trees) ↔
  ∃ ast_data imp,
    (p, ast_data) ∈ ast_trees ∧ error ast_data = None ∧ imp ∈ imports ast_data
    ∧ find_import_target (get (import_name imp) "") ast_trees.*1 = Some q.
Proof. intros _. apply edge_ids_build_graph. Qed.

Lemma build_graph_edges_witness :
  ("a.py", "a.py") ∈ edge_ids (build_graph (nx := networkx) Examples.self_import) ↔
  ∃ ast_data imp,
    ("a.py", ast_data) ∈ Examples.self_import ∧ error ast_data = None
    ∧ imp ∈ imports ast_data
    ∧ find_import_target (get (import_name imp) "") Examples.self_import.*1
      = Some "a.py".
Proof.
  apply (build_graph_edges (nx := networkx) Examples.self_import "a.py" "a.py").
  intros ast_data Hin. apply list_elem_of_singleton in Hin.
  injection Hin as ->. reflexivity.
Defined.

(** ** The stored document *)

(** C6. For the graph [G] built from any parse results, loading the stored
    document of [G] gives a graph with the nodes of [G], the edges of [G]
    with their kinds, and for every node the three centrality values of
    [G]. *)
Theorem stored_graph_round_trip {nx : Centrality} (ast_trees : AstTrees) :
  let G := build_graph ast_trees in
  let G' := load_graph_from_data (graph_data G) in
  node_ids G' ≡ₚ node_ids G
  ∧ typed_edges G' ≡ₚ typed_edges G
  ∧ ∀ n, centralities G' n = centralities G n.
Proof.
  intros G G'. subst G'. rewrite (load_graph_data G) by apply wf_build_graph.
  split_and!.
  - unfold node_ids; simpl. by rewrite keys_prod_map.
  - unfold typed_edges; simpl. rewrite <- list_fmap_compose.
    assert (((λ e : string * string * EdgeAttrs, (e.1, etype e.2))
             ∘ prod_map id stored_edge) <$> edges G
            = (λ e, (e.1, etype e.2)) <$> edges G) as ->; [|done].
    apply Forall_fmap_ext, Forall_forall. intros [k a] Hin. simpl.
    pose proof (all_imports_build_graph ast_trees _ Hin) as Ha. simpl in Ha.
    by rewrite Ha.
  - intros n. unfold centralities, node_attrs; simpl.
    rewrite assoc_prod_map. by destruct (assoc n (nodes G)).
Qed.

(** ** Impact of one node *)

(** C10. For a [node_id] that is not a node of the graph,
    [get_node_impact] returns the dictionary with the one key [error] and
    the value [Node not found]; for a node of the graph it returns the
    metrics, whose [total_impact] is the number of descendants plus the
    number of ancestors of the node. *)
Theorem get_node_impact_spec (node_id : string) (graph : DiGraph) :
  (node_id ∉ node_ids graph →
   get_node_impact node_id graph = ImpactError "Node not found")
  ∧ (node_id ∈ node_ids graph →
     ∃ r, get_node_impact node_id graph = Impact r
          ∧ impact_descendants r = elements (descendants graph node_id)
          ∧ impact_ancestors r = elements (ancestors graph node_id)
          ∧ total_impact r
            = size (descendants graph node_id) + size (ancestors graph node_id)).
Proof.
  unfold get_node_impact, has_node. split; intros Hin.
  - by rewrite bool_decide_eq_false_2.
  - rewrite bool_decide_eq_true_2 by done. simpl. eexists. split_and!; done.
Qed.

Lemma get_node_impact_spec_witness :
  get_node_impact "z" (node_link_graph Examples.chain) = ImpactError "Node not found"
  ∧ ∃ r, get_node_impact "b" (node_link_graph Examples.chain) = Impact r
         ∧ impact_descendants r = elements (descendants (node_link_graph Examples.chain) "b")
         ∧ impact_ancestors r = elements (ancestors (node_link_graph Examples.chain) "b")
         ∧ total_impact r
           = size (descendants (node_link_graph Examples.chain) "b")
             + size (ancestors (node_link_graph Examples.chain) "b").
Proof.
  split.
  - apply (proj1 (get_node_impact_spec "z" (node_link_graph Examples.chain))).
    compute_done.
  - apply (proj2 (get_node_impact_spec "b" (node_link_graph Examples.chain))).
    compute_done.
Defined.

(** ** The impacted set *)

Section AnalyzerFacts.
Context {nx : Centrality}.

Lemma foldl_union_reachable (F : string → gset string) (G : DiGraph)
    (l : list string) (X : gset string) :
  foldl (λ acc file, if has_node G file then acc ∪ F file else acc) X l
  = X ∪ ⋃ (F <$> filter (λ f, f ∈ node_ids G) l).
Proof.
  revert X. induction l as [|f l IH]; intros X; simpl.
  - by rewrite (right_id_L ∅ (∪)).
  - rewrite IH. unfold has_node, filter; simpl.
    destruct (decide (f ∈ node_ids G)) as [Hin|Hnin].
    + rewrite bool_decide_eq_true_2 by done. simpl. by rewrite (assoc_L (∪)).
    + rewrite bool_decide_eq_false_2 by done. done.
Qed.

Lemma impacted_nodes_unfold (changed : list string) (G : DiGraph) :
  impacted_nodes changed G
  = list_to_set changed
    ∪ ⋃ (descendants G <$> Spec.seed changed G)
    ∪ ⋃ (ancestors G <$> Spec.seed changed G).
Proof. unfold impacted_nodes. by rewrite !foldl_union_reachable. Qed.

Lemma descendants_nodes (G : DiGraph) (s w : string) :
  w ∈ descendants G s → w ∈ node_ids G ∧ w ≠ s.
Proof.
  unfold descendants. rewrite elem_of_list_to_set, list_elem_of_filter. tauto.
Qed.

Lemma node_ids_reverse (G : DiGraph) : node_ids (reverse G) = node_ids G.
Proof. done. Qed.

Lemma ancestors_nodes (G : DiGraph) (s w : string) :
  w ∈ ancestors G s → w ∈ node_ids G ∧ w ≠ s.
Proof. unfold ancestors. intros H%descendants_nodes. by rewrite node_ids_reverse in H. Qed.

(** Whatever is impacted and not itself a changed file is a node. *)
Lemma impacted_not_changed_node (changed : list string) (G : DiGraph) (v : string) :
  v ∈ impacted_nodes changed G → v ∉ changed → v ∈ node_ids G.
Proof.
  rewrite impacted_nodes_unfold, !elem_of_union, !elem_of_union_list.
  intros [[Hv|(X & HX & Hv)]|(X & HX & Hv)] Hnot.
  - by apply elem_of_list_to_set in Hv.
  - apply list_elem_of_fmap in HX as (s & -> & _). by apply descendants_nodes in Hv as [? _].
  - apply list_elem_of_fmap in HX as (s & -> & _). by apply ancestors_nodes in Hv as [? _].
Qed.

(** ** The scores *)

Lemma score_nodes_lookup (changed : list string) (G : DiGraph) (I : gset string)
    (v : string) (s : Q) :
  ((score_nodes changed G I) !! v = Some s)
  ↔ (v ∈ I ∧ (v ∉ changed) ∧ s = calculate_criticality v G).
Proof.
  unfold score_nodes. rewrite <- elem_of_list_to_map.
  - rewrite list_elem_of_fmap. split.
    + intros (n & [= -> ->] & Hn). apply list_elem_of_filter in Hn as [? Hn].
      by apply elem_of_elements in Hn.
    + intros (? & ? & ->). exists v. split; [done|].
      apply list_elem_of_filter. split; [done|]. by apply elem_of_elements.
  - rewrite <- list_fmap_compose.
    rewrite (list_fmap_ext _ id (filter (λ node, node ∉ changed) (elements I)))
      by done.
    rewrite list_fmap_id. apply NoDup_filter, NoDup_elements.
Qed.

Lemma score_nodes_dom (changed : list string) (G : DiGraph) (I : gset string) :
  dom (score_nodes changed G I) = I ∖ list_to_set changed.
Proof.
  apply set_eq. intros v. rewrite elem_of_dom, elem_of_difference, elem_of_list_to_set.
  split.
  - intros [s Hs]. apply score_nodes_lookup in Hs. tauto.
  - intros [? ?]. eexists. by apply score_nodes_lookup.
Qed.

Lemma score_nodes_empty (changed : list string) (G : DiGraph) (I : gset string) :
  I ⊆ list_to_set changed → score_nodes changed G I = ∅.
Proof.
  intros Hsub. apply map_eq. intros v. rewrite lookup_empty.
  destruct (score_nodes changed G I !! v) as [s|] eqn:Hs; [|done].
  apply score_nodes_lookup in Hs as (Hv & Hnot & _).
  apply Hsub, elem_of_list_to_set in Hv. done.
Qed.

(** ** The risk level *)

Lemma max_nonempty (l : list Q) : l ≠ [] → ∃ m, max l = Return m.
Proof. destruct l; [done|]. intros _. by eexists. Qed.

Lemma Qgtb_lt (x y : Q) : Qgtb x y = true ↔ (y < x)%Q.
Proof.
  unfold Qgtb. rewrite negb_true_iff. split.
  - intros H. apply Qnot_le_lt. intros Hle. apply Qle_bool_iff in Hle. congruence.
  - intros H. destruct (Qle_bool x y) eqn:Hle; [|done].
    apply Qle_bool_iff in Hle. by apply Qle_not_lt in Hle.
Qed.

(** When some node has a score, the risk level is the row of the table that
    the number of high-risk nodes and the greatest score select. *)
Lemma classify_risk_table (high : list string) (scores : gmap string Q) (m : Q) :
  max (map_to_list scores).*2 = Return m →
  classify_risk high scores = Return (Spec.risk_level (length high) m).
Proof.
  intros Hm. unfold classify_risk, Spec.risk_level. rewrite Hm. cbn [bind].
  destruct (decide (5 ≤ length high)) as [H5|H5].
  { apply Nat.leb_le in H5. by rewrite H5. }
  apply Nat.leb_nle in H5. rewrite H5.
  destruct (decide (3 ≤ length high)) as [H3|H3]; cbn [bind].
  { apply Nat.leb_le in H3. by rewrite H3. }
  apply Nat.leb_nle in H3. rewrite H3. cbn [orb].
  destruct (Qgtb m 0.85); [done|].
  destruct (decide (1 ≤ length high)) as [H1|H1]; cbn [bind].
  { apply Nat.leb_le in H1. by rewrite H1. }
  apply Nat.leb_nle in H1. rewrite H1. cbn [orb].
  by destruct (Qgtb m 0.65).
Qed.

Lemma classify_risk_no_scores : 
  classify_risk [] ∅ = Raise ValueError.
Proof. unfold classify_risk. rewrite map_to_list_empty. done. Qed.

(** [analyze_impact] raises when no impacted node is left to score. *)
Lemma analyze_impact_nothing_to_score (changed : list string) (data : NodeLinkData) :
  impacted_nodes changed (node_link_graph data) ⊆ list_to_set changed →
  analyze_impact changed data = Raise ValueError.
Proof.
  intros Hsub. unfold analyze_impact.
  rewrite (score_nodes_empty _ _ _ Hsub), map_to_list_empty. simpl.
  by rewrite classify_risk_no_scores.
Qed.

(** [analyze_impact] returns when some impacted node is not a changed file. *)
Lemma analyze_impact_returns (changed : list string) (data : NodeLinkData) (v : string) :
  v ∈ impacted_nodes changed (node_link_graph data) → v ∉ changed →
  ∃ r, analyze_impact changed data = Return r
       ∧ impacted_components r = impacted_nodes changed (node_link_graph data)
       ∧ criticality_scores r
         = score_nodes changed (node_link_graph data)
             (impacted_nodes changed (node_link_graph data)).
Proof.
  intros Hv Hnot. unfold analyze_impact.
  set (G := node_link_graph data). set (I := impacted_nodes changed G).
  set (scores := score_nodes changed G I).
  destruct (max_nonempty (map_to_list scores).*2) as [m Hm].
  { assert (scores !! v = Some (calculate_criticality v G)) as Hs
      by (by apply score_nodes_lookup).
    apply elem_of_map_to_list in Hs. intros Hnil.
    apply (list_elem_of_fmap_2 snd) in Hs. rewrite Hnil in Hs.
    by apply elem_of_nil in Hs. }
  rewrite (classify_risk_table _ _ _ Hm). simpl. by eexists.
Qed.

Lemma analyze_impact_result (changed : list string) (data : NodeLinkData)
    (r : ImpactResult) :
  analyze_impact changed data = Return r →
  impacted_components r = impacted_nodes changed (node_link_graph data)
  ∧ criticality_scores r
    = score_nodes changed (node_link_graph data)
        (impacted_nodes changed (node_link_graph data)).
Proof.
  unfold analyze_impact. destruct (classify_risk _ _); simpl; [|done].
  by intros [= <-].
Qed.

(** The risk level of a result is the row of the table selected by the
    number of high-risk nodes and the greatest score. *)
Lemma analyze_impact_risk_level (changed : list string) (data : NodeLinkData)
    (r : ImpactResult) :
  analyze_impact changed data = Return r →
  ∃ m, max (map_to_list (criticality_scores r)).*2 = Return m
       ∧ high_risk_areas r
         = (filter (λ ns : string * Q, Qgtb ns.2 0.7 = true)
                   (map_to_list (criticality_scores r))).*1
       ∧ risk_level r = Spec.risk_level (length (high_risk_areas r)) m.
Proof.
  unfold analyze_impact.
  set (scores := score_nodes changed _ _).
  destruct (max (map_to_list scores).*2) as [m|e] eqn:Hm.
  - rewrite (classify_risk_table _ _ _ Hm). cbn [bind].
    intros [= <-]. exists m. by cbn.
  - destruct (map_to_list scores) as [|ns l] eqn:Hl; [|done].
    unfold classify_risk. rewrite Hl. done.
Qed.

End AnalyzerFacts.

(** ** Descendants and ancestors are the reachable nodes *)

Section Reachability.

Lemma number_of_nodes_ids (G : DiGraph) : number_of_nodes G = length (node_ids G).
Proof. unfold number_of_nodes, node_ids. by rewrite length_fmap. Qed.

Lemma elem_of_successors (G : DiGraph) (u v : string) :
  v ∈ successors G u ↔ edge G u v.
Proof.
  unfold successors, edge. rewrite list_elem_of_fmap. split.
  - intros ([u' v'] & -> & [Hu Hin]%list_elem_of_filter). simpl in *. by subst.
  - intros Hin. exists (u, v). split; [done|]. by apply list_elem_of_filter.
Qed.

Lemma elem_of_walks_from (G : DiGraph) (k : nat) (s : string) (p : list string) :
  p ∈ walks_from G k s ↔ length p = S k ∧ head p = Some s ∧ is_walk G p.
Proof.
  revert s p. induction k as [|k IH]; intros s p; simpl.
  - rewrite list_elem_of_singleton. split.
    + by intros ->.
    + intros (Hlen & Hhd & _). destruct p as [|x [|y p]]; simplify_eq/=. done.
  - rewrite list_elem_of_bind. split.
    + intros (w & Hp & Hw). apply list_elem_of_fmap in Hp as (q & -> & Hq).
      apply IH in Hq as (Hlen & Hhd & Hwalk). apply elem_of_successors in Hw.
      destruct q as [|y q]; [done|]. simpl in Hhd. injection Hhd as ->.
      split_and!; [simpl in *; by rewrite Hlen|done|by split].
    + intros (Hlen & Hhd & Hwalk). destruct p as [|x [|y q]]; [done..|].
      simpl in Hhd. injection Hhd as ->. simpl in Hlen. injection Hlen as Hlen.
      destruct Hwalk as [Hxy Hwalk]. exists y. split.
      * apply list_elem_of_fmap. exists (y :: q). split; [done|].
        apply IH. split_and!; [simpl; by rewrite Hlen|done..].
      * by apply elem_of_successors.
Qed.

Lemma is_walk_suffix (G : DiGraph) (l1 l2 : list string) :
  is_walk G (l1 ++ l2) → is_walk G l2.
Proof.
  induction l1 as [|x l1 IH]; [done|]. simpl.
  destruct (l1 ++ l2) eqn:Heq; [|intros [_ ?]; auto].
  apply app_eq_nil in Heq as [_ ->]. done.
Qed.

(** A walk can be cut down to one that visits no node twice. *)
Lemma walk_without_repetition (G : DiGraph) (p : list string) (s t : string) :
  is_walk G p → head p = Some s → last p = Some t →
  ∃ p', is_walk G p' ∧ head p' = Some s ∧ last p' = Some t
        ∧ NoDup p' ∧ p' ⊆ p.
Proof.
  revert s. induction p as [|x q IH]; intros s Hwalk Hhd Hlast; [done|].
  simpl in Hhd. injection Hhd as ->.
  destruct q as [|y q].
  { exists [s]. split_and!; [done..|apply NoDup_singleton|done]. }
  destruct Hwalk as [Hxy Hwalk].
  destruct (IH y Hwalk eq_refl) as (q' & Hw' & Hhd' & Hlast' & Hnd' & Hsub').
  { by rewrite last_cons_cons in Hlast. }
  destruct (decide (s ∈ q')) as [Hin|Hnin].
  - apply list_elem_of_split in Hin as (l1 & l2 & ->).
    exists (s :: l2). split_and!.
    + by apply is_walk_suffix in Hw'.
    + done.
    + rewrite last_app_cons in Hlast'. by destruct (last (s :: l2)).
    + by apply NoDup_app in Hnd' as (_ & _ & ?).
    + intros z [->|Hz]%elem_of_cons; [left|].
      right. apply Hsub'. apply elem_of_app. right. by right.
  - exists (s :: q'). split_and!.
    + destruct q' as [|y' q']; [done|]. simpl in Hhd'. injection Hhd' as ->.
      by split.
    + done.
    + destruct q' as [|y' q']; [done|]. by rewrite last_cons_cons.
    + by apply NoDup_cons.
    + intros z [->|Hz]%elem_of_cons; [left|]. right. by apply Hsub'.
Qed.

Lemma walk_nodes (G : DiGraph) (p : list string) (s : string) :
  wf G → s ∈ node_ids G → is_walk G p → head p = Some s → p ⊆ node_ids G.
Proof.
  intros (_ & _ & Hends). revert s.
  induction p as [|x q IH]; intros s Hs Hwalk Hhd; [by intros ? ?%elem_of_nil|].
  simpl in Hhd. injection Hhd as ->.
  intros z [->|Hz]%elem_of_cons; [done|].
  destruct q as [|y q]; [by apply elem_of_nil in Hz|].
  destruct Hwalk as [Hxy Hwalk]. destruct (Hends _ _ Hxy) as [_ Hy].
  by apply (IH y Hy Hwalk eq_refl).
Qed.

Lemma rtc_walk (G : DiGraph) (s t : string) :
  rtc (edge G) s t ↔ ∃ p, is_walk G p ∧ head p = Some s ∧ last p = Some t.
Proof.
  split.
  - induction 1 as [x|x y z Hxy _ (p & Hw & Hhd & Hlast)].
    + by exists [x].
    + exists (x :: p). destruct p as [|y' p]; [done|].
      simpl in Hhd. injection Hhd as ->. split_and!; [by split|done|].
      by rewrite last_cons_cons.
  - intros (p & Hw & Hhd & Hlast). revert s Hw Hhd Hlast.
    induction p as [|x q IH]; intros s Hw Hhd Hlast; [done|].
    simpl in Hhd. injection Hhd as ->.
    destruct q as [|y q].
    + simpl in Hlast. injection Hlast as ->. done.
    + destruct Hw as [Hxy Hw]. eapply rtc_l; [exact Hxy|].
      apply IH; [done..|]. by rewrite last_cons_cons in Hlast.
Qed.

(** The search for a shortest path looks at enough lengths: it finds a
    length exactly when the target is reachable. *)
Lemma shortest_path_length_reachable (G : DiGraph) (s t : string) :
  wf G → s ∈ node_ids G →
  is_Some (shortest_path_length G s t) ↔ rtc (edge G) s t.
Proof.
  intros Hwf Hs. unfold shortest_path_length. split.
  - intros [d Hd]. apply find_some in Hd as [_ Hd].
    apply bool_decide_eq_true in Hd.
    destruct (paths G d s t) as [|p ps] eqn:Hp; [done|].
    assert (p ∈ paths G d s t) as Hin by (rewrite Hp; left).
    apply list_elem_of_filter in Hin as [Hlast Hin].
    apply elem_of_walks_from in Hin as (_ & Hhd & Hwalk).
    apply rtc_walk. by exists p.
  - intros (p & Hw & Hhd & Hlast)%rtc_walk.
    destruct (walk_without_repetition G p s t Hw Hhd Hlast)
      as (p' & Hw' & Hhd' & Hlast' & Hnd' & _).
    assert (length p' ≤ number_of_nodes G) as Hlen.
    { rewrite number_of_nodes_ids. apply submseteq_length, NoDup_submseteq; [done|].
      by apply (walk_nodes G p' s). }
    destruct p' as [|x p']; [done|]. simpl in Hlen.
    destruct (List.find _ _) as [d|] eqn:Hfind; [done|]. exfalso.
    assert (bool_decide (paths G (length p') s t ≠ []) = false) as Hnone.
    { apply (find_none _ _ Hfind (length p')). apply in_seq. lia. }
    apply bool_decide_eq_false in Hnone. apply Hnone. intros Hnil.
    assert (x :: p' ∈ paths G (length p') s t) as Hin.
    { apply list_elem_of_filter. split; [done|]. by apply elem_of_walks_from. }
    rewrite Hnil in Hin. by apply elem_of_nil in Hin.
Qed.

Lemma elem_of_descendants (G : DiGraph) (s w : string) :
  wf G → s ∈ node_ids G →
  w ∈ descendants G s ↔ w ∈ node_ids G ∧ w ≠ s ∧ rtc (edge G) s w.
Proof.
  intros Hwf Hs. unfold descendants.
  rewrite elem_of_list_to_set, list_elem_of_filter.
  rewrite shortest_path_length_reachable by done. tauto.
Qed.

Lemma wf_reverse (G : DiGraph) : wf G → wf (reverse G).
Proof.
  intros (Hn & He & Hends).
  assert (edge_ids (reverse G) = (λ e, (e.2, e.1)) <$> edge_ids G) as Hrev.
  { unfold edge_ids, reverse; simpl. rewrite <- !list_fmap_compose.
    by apply list_fmap_ext. }
  split_and!; [done| |].
  - rewrite Hrev. apply NoDup_fmap_2; [|done]. by intros [??] [??] [= -> ->].
  - intros u v. rewrite Hrev.
    intros ([u' v'] & [= -> ->] & Hin)%list_elem_of_fmap.
    rewrite node_ids_reverse. destruct (Hends _ _ Hin). by split.
Qed.

Lemma edge_reverse (G : DiGraph) (u v : string) : edge (reverse G) u v ↔ edge G v u.
Proof.
  unfold edge, edge_ids, reverse; simpl. rewrite <- list_fmap_compose.
  rewrite !list_elem_of_fmap. split.
  - intros ([[u' v'] a] & [= -> ->] & Hin). by exists ((u', v'), a).
  - intros ([[u' v'] a] & [= -> ->] & Hin). by exists ((u', v'), a).
Qed.

Lemma rtc_reverse (G : DiGraph) (u v : string) :
  rtc (edge (reverse G)) u v ↔ rtc (edge G) v u.
Proof.
  split.
  - induction 1 as [|x y z Hxy _ IH]; [done|].
    apply (proj1 (edge_reverse G x y)) in Hxy. eapply rtc_r; eauto.
  - induction 1 as [|x y z Hxy _ IH]; [done|].
    apply (proj2 (edge_reverse G y x)) in Hxy. eapply rtc_r; eauto.
Qed.

Lemma elem_of_ancestors (G : DiGraph) (s w : string) :
  wf G → s ∈ node_ids G →
  w ∈ ancestors G s ↔ w ∈ node_ids G ∧ w ≠ s ∧ rtc (edge G) w s.
Proof.
  intros Hwf Hs. unfold ancestors.
  rewrite elem_of_descendants by (by try apply wf_reverse).
  by rewrite node_ids_reverse, rtc_reverse.
Qed.

Lemma wf_node_link_graph (data : NodeLinkData) : wf (node_link_graph data).
Proof.
  unfold node_link_graph. apply wf_foldl; [auto with wf|].
  apply wf_foldl; auto with wf.
Qed.

Lemma rtc_node (G : DiGraph) (s v : string) :
  wf G → s ∈ node_ids G → rtc (edge G) s v → v ∈ node_ids G.
Proof.
  intros (_ & _ & Hends) Hs Hrtc. induction Hrtc as [|x y z Hxy _ IH]; [done|].
  apply IH. by destruct (Hends _ _ Hxy).
Qed.

(** The impacted set, by paths: the changed files, and every node joined to
    a changed node of the graph by a path in one direction or the other. *)
Lemma impacted_nodes_reachable (changed : list string) (G : DiGraph) (v : string) :
  wf G →
  v ∈ impacted_nodes changed G ↔
  v ∈ changed
  ∨ ∃ s, s ∈ changed ∧ s ∈ node_ids G ∧ (rtc (edge G) s v ∨ rtc (edge G) v s).
Proof.
  intros Hwf. rewrite impacted_nodes_unfold, !elem_of_union, !elem_of_union_list.
  rewrite elem_of_list_to_set. split.
  - intros [[?|(X & HX & Hv)]|(X & HX & Hv)]; [by left| |].
    + apply list_elem_of_fmap in HX as (s & -> & [HsG Hs]%list_elem_of_filter).
      apply elem_of_descendants in Hv as (_ & _ & Hrtc); [|done..].
      right. exists s. auto.
    + apply list_elem_of_fmap in HX as (s & -> & [HsG Hs]%list_elem_of_filter).
      apply elem_of_ancestors in Hv as (_ & _ & Hrtc); [|done..].
      right. exists s. auto.
  - intros [?|(s & Hs & HsG & Hrtc)]; [by left; left|].
    destruct (decide (v = s)) as [->|Hne]; [by left; left|].
    assert (s ∈ Spec.seed changed G) as Hseed by (by apply list_elem_of_filter).
    destruct Hrtc as [Hrtc|Hrtc].
    + left. right. exists (descendants G s). split; [by apply list_elem_of_fmap_2|].
      apply elem_of_descendants; [done..|]. split_and!; [|done..].
      by apply (rtc_node G s).
    + right. exists (ancestors G s). split; [by apply list_elem_of_fmap_2|].
      apply elem_of_ancestors; [done..|]. split_and!; [|done..].
      apply (rtc_node (reverse G) s); [by apply wf_reverse|done|].
      by apply rtc_reverse.
Qed.

End Reachability.

(** ** The claims on the impact analyzer *)

(** C1 (as stated, fails). With the changed files [c] and [x.py] on the
    graph [a -> b -> c], [analyze_impact] returns, and [x.py], which is not a
    node, is in the impacted set, though it is not in
    [Seed ∪ descendants(Seed) ∪ ancestors(Seed)]. *)
Lemma absent_changed_file_stays_impacted :
  ∃ r, analyze_impact (nx := networkx) ["c"; "x.py"] Examples.chain = Return r
       ∧ ("x.py" ∉ node_ids (node_link_graph Examples.chain))
       ∧ "x.py" ∈ impacted_components r
       ∧ "x.py" ∉ Spec.impacted ["c"; "x.py"] (node_link_graph Examples.chain).
Proof.
  destruct (analyze_impact_returns (nx := networkx) ["c"; "x.py"] Examples.chain "b")
    as (r & Hr & Himp & _); [compute_done..|].
  exists r. rewrite Himp. split_and!; [done|compute_done..].
Qed.

(** C1 (amended). When some node reached from the seed is not itself a
    changed file, [analyze_impact] returns, and the impacted set of the
    result is [C ∪ descendants(Seed) ∪ ancestors(Seed)] with
    [Seed = C ∩ V(G)]: a changed file that is not a node of [G] stays in the
    impacted set and contributes no descendants and no ancestors. *)
Theorem analyze_impact_impacted_set {nx : Centrality} (changed : list string)
    (data : NodeLinkData) (s w : string) :
  let G := node_link_graph data in
  s ∈ changed → s ∈ node_ids G →
  w ∈ descendants G s ∪ ancestors G s → w ∉ changed →
  ∃ r, analyze_impact changed data = Return r
       ∧ impacted_components r
         = list_to_set changed
           ∪ ⋃ (descendants G <$> Spec.seed changed G)
           ∪ ⋃ (ancestors G <$> Spec.seed changed G)
       ∧ ∀ v, v ∈ impacted_components r ↔
              v ∈ changed
              ∨ ∃ s', s' ∈ changed ∧ s' ∈ node_ids G
                      ∧ (rtc (edge G) s' v ∨ rtc (edge G) v s').
Proof.
  intros G Hs HsG Hw Hnot.
  destruct (analyze_impact_returns changed data w) as (r & Hr & Himp & _);
    [|done|].
  - rewrite impacted_nodes_unfold.
    assert (s ∈ Spec.seed changed (node_link_graph data)) as Hseed
      by (by apply list_elem_of_filter).
    apply elem_of_union in Hw as [Hw|Hw].
    + apply elem_of_union_l, elem_of_union_r, elem_of_union_list.
      exists (descendants G s). split; [|done]. by apply list_elem_of_fmap_2.
    + apply elem_of_union_r, elem_of_union_list.
      exists (ancestors G s). split; [|done]. by apply list_elem_of_fmap_2.
  - exists r. split; [done|]. rewrite Himp. split.
    + by rewrite impacted_nodes_unfold.
    + intros v. apply impacted_nodes_reachable, wf_node_link_graph.
Qed.

Lemma analyze_impact_impacted_set_witness :
  let G := node_link_graph Examples.chain in
  ∃ r, analyze_impact (nx := networkx) ["c"; "x.py"] Examples.chain = Return r
       ∧ impacted_components r
         = list_to_set ["c"; "x.py"]
           ∪ ⋃ (descendants G <$> Spec.seed ["c"; "x.py"] G)
           ∪ ⋃ (ancestors G <$> Spec.seed ["c"; "x.py"] G)
       ∧ ∀ v, v ∈ impacted_components r ↔
              v ∈ ["c"; "x.py"]
              ∨ ∃ s', s' ∈ ["c"; "x.py"] ∧ s' ∈ node_ids G
                      ∧ (rtc (edge G) s' v ∨ rtc (edge G) v s').
Proof.
  apply (analyze_impact_impacted_set (nx := networkx) ["c"; "x.py"] Examples.chain
           "c" "b"); compute_done.
Defined.

(** C2 (the code departs from it). On the empty graph with no changed file
    the score dictionary is empty, [max(criticality_scores.values())] is
    evaluated, and [analyze_impact] raises instead of returning the level
    LOW. *)
Theorem analyze_impact_empty_raises {nx : Centrality} :
  analyze_impact [] Examples.empty_graph
  = Raise ValueError.
Proof. apply analyze_impact_nothing_to_score. compute_done. Qed.

(** ** The criticality score *)

Section ScoreFacts.
Context {nx : Centrality}.

Lemma max_degree_spec (G : DiGraph) : max_degree G = Spec.max_deg G.
Proof. unfold max_degree, Spec.max_deg. by destruct (degrees G). Qed.

Lemma calculate_criticality_node (G : DiGraph) (v : string) :
  v ∈ node_ids G → (calculate_criticality v G == Spec.score G v)%Q.
Proof.
  intros Hv. unfold calculate_criticality, criticality, in_degree, out_degree,
    has_node, Spec.score, Spec.centrality_or_zero, get.
  rewrite bool_decide_eq_true_2 by done. cbn [true_div bind].
  rewrite max_degree_spec.
  apply Q.min_compat; [reflexivity|]. apply Q.max_compat; [reflexivity|].
  ring.
Qed.

Lemma calculate_criticality_absent (G : DiGraph) (v : string) :
  v ∉ node_ids G → calculate_criticality v G = 0.5%Q.
Proof.
  intros Hv. unfold calculate_criticality, criticality, in_degree, has_node.
  by rewrite bool_decide_eq_false_2.
Qed.

End ScoreFacts.

(** C5 (as stated, fails). When the betweenness computation raises, the
    score of [b] in [a -> b -> c] is not the default 0.5: the betweenness
    term is taken as 0 and the score is 0.35. *)
Lemma betweenness_failure_is_not_default :
  let G := node_link_graph Examples.chain in
  betweenness_centrality (Centrality := Examples.failing_betweenness) G
  = Raise LibraryError
  ∧ (calculate_criticality (nx := Examples.failing_betweenness) "b" G == 0.35)%Q
  ∧ ¬ (calculate_criticality (nx := Examples.failing_betweenness) "b" G == 0.5)%Q.
Proof.
  intros G. split_and!; [done|compute_done|].
  intros H. vm_compute in H. discriminate H.
Qed.

(** C5 (amended). In the result of [analyze_impact] the scored nodes are
    the impacted nodes that are not changed files; each is a node of the
    graph, and its score is
    [0.4·indeg/max_deg + 0.2·outdeg/max_deg + 0.3·betweenness + 0.1·closeness]
    clamped to [0,1], with [max_deg] the greatest total degree clamped to at
    least 1 and a centrality whose computation raised taken as 0.
    [calculate_criticality] gives that score for every node of the graph,
    and the default 0.5 for an identifier that is not a node, whose degree
    is not a number. *)
Theorem criticality_scores_spec {nx : Centrality} (changed : list string)
    (data : NodeLinkData) (r : ImpactResult) :
  analyze_impact changed data = Return r →
  let G := node_link_graph data in
  dom (criticality_scores r) = impacted_components r ∖ list_to_set changed
  ∧ (∀ v s, criticality_scores r !! v = Some s →
            v ∈ node_ids G ∧ (s == Spec.score G v)%Q)
  ∧ (∀ v, v ∈ node_ids G → (calculate_criticality v G == Spec.score G v)%Q)
  ∧ (∀ v, v ∉ node_ids G → calculate_criticality v G = 0.5%Q).
Proof.
  intros Hr G. apply analyze_impact_result in Hr as [Himp Hscores].
  rewrite Himp, Hscores. split_and!.
  - apply score_nodes_dom.
  - intros v s (Hv & Hnot & ->)%score_nodes_lookup.
    assert (v ∈ node_ids G) by eauto using impacted_not_changed_node.
    split; [done|]. by apply calculate_criticality_node.
  - apply calculate_criticality_node.
  - apply calculate_criticality_absent.
Qed.

Lemma criticality_scores_spec_witness :
  let r := Examples.returned (analyze_impact (nx := networkx) ["a"] Examples.chain) in
  let G := node_link_graph Examples.chain in
  dom (criticality_scores r) = impacted_components r ∖ list_to_set ["a"]
  ∧ (∀ v s, criticality_scores r !! v = Some s →
            v ∈ node_ids G ∧ (s == Spec.score (nx := networkx) G v)%Q)
  ∧ (∀ v, v ∈ node_ids G →
          (calculate_criticality (nx := networkx) v G == Spec.score (nx := networkx) G v)%Q)
  ∧ (∀ v, v ∉ node_ids G → calculate_criticality (nx := networkx) v G = 0.5%Q).
Proof.
  apply (criticality_scores_spec (nx := networkx) ["a"] Examples.chain).
  vm_compute. reflexivity.
Defined.

(** ** Rationals of natural numbers, and sums *)

Section Rationals.
Open Scope Q_scope.

Lemma Qnat_nonneg (n : nat) : 0 <= Qnat n.
Proof. unfold Qnat. change 0 with (inject_Z 0). rewrite <- Zle_Qle. lia. Qed.

Lemma Qnat_le (n m : nat) : (n ≤ m)%nat → Qnat n <= Qnat m.
Proof. intros. unfold Qnat. rewrite <- Zle_Qle. lia. Qed.

Lemma Qnat_pos (n : nat) : (0 < n)%nat → 0 < Qnat n.
Proof. intros. unfold Qnat. change 0 with (inject_Z 0). rewrite <- Zlt_Qlt. lia. Qed.

Lemma Qnat_S (n : nat) : Qnat (S n) == Qnat n + 1.
Proof.
  unfold Qnat. change 1 with (inject_Z 1). rewrite <- inject_Z_plus.
  by rewrite Nat2Z.inj_succ.
Qed.

Lemma Qnat_add (n m : nat) : Qnat (n + m) == Qnat n + Qnat m.
Proof. unfold Qnat. by rewrite Nat2Z.inj_add, inject_Z_plus. Qed.

Lemma Qnat_mul (n m : nat) : Qnat (n * m) == Qnat n * Qnat m.
Proof. unfold Qnat. by rewrite Nat2Z.inj_mul, inject_Z_mult. Qed.

Lemma Qnat_pred (n : nat) : (1 ≤ n)%nat → Qnat n - 1 == Qnat (n - 1).
Proof.
  intros Hn. destruct n as [|n]; [lia|].
  rewrite Qnat_S. replace (S n - 1)%nat with n by lia. ring.
Qed.

Lemma Qsum_bounds {A} (f : A → Q) (c : Q) (l : list A) :
  (∀ x, x ∈ l → 0 <= f x <= c) →
  0 <= Qsum (f <$> l) <= Qnat (length l) * c.
Proof.
  induction l as [|x l IH]; intros Hf.
  - simpl. change (Qnat 0) with 0. lra.
  - cbn [fmap list_fmap Qsum foldr length]. fold (Qsum (f <$> l)).
    rewrite Qnat_S.
    destruct (Hf x) as [? ?]; [left|].
    destruct IH as [? ?]; [intros y Hy; apply Hf; by right|]. lra.
Qed.

Lemma Qdiv_unit_interval (a b : Q) : 0 <= a → a <= b → 0 < b → 0 <= a / b <= 1.
Proof.
  intros Ha Hab Hb. split.
  - apply Qle_shift_div_l; lra.
  - apply Qle_shift_div_r; lra.
Qed.

End Rationals.

Lemma filter_ne_length {A} `{EqDecision A} (x : A) (l : list A) :
  NoDup l → x ∈ l → length (filter (λ y, y ≠ x) l) = length l - 1.
Proof.
  induction l as [|y l IH]; [by intros _ ?%elem_of_nil|].
  intros [Hy Hnd]%NoDup_cons Hin. rewrite filter_cons.
  destruct (decide (y ≠ x)) as [Hne|Heq]; simpl.
  - apply elem_of_cons in Hin as [->|Hin]; [done|].
    rewrite IH by done. destruct l; [by apply elem_of_nil in Hin|simpl; lia].
  - apply dec_stable in Heq as ->.
    rewrite Nat.sub_0_r. f_equal.
    clear IH Hin Hnd. induction l as [|z l IH]; [done|].
    apply not_elem_of_cons in Hy as [? ?]. rewrite filter_cons.
    rewrite decide_True by done. f_equal. auto.
Qed.

(** ** The centralities of a well-formed graph *)

Section CentralityBounds.
Open Scope Q_scope.

Lemma sigma_through_le (G : DiGraph) (s t v : string) :
  (sigma_through G s t v ≤ sigma G s t)%nat.
Proof.
  unfold sigma_through, sigma.
  destruct (shortest_path_length G s t); [apply length_filter|done].
Qed.

Lemma pair_dependency_unit (G : DiGraph) (v s t : string) :
  0 <= pair_dependency G v s t <= 1.
Proof.
  unfold pair_dependency. destruct (decide (sigma G s t = 0%nat)); [lra|].
  apply Qdiv_unit_interval.
  - apply Qnat_nonneg.
  - apply Qnat_le, sigma_through_le.
  - apply Qnat_pos. lia.
Qed.

Lemma betweenness_raw_bound (G : DiGraph) (v : string) :
  NoDup (node_ids G) → v ∈ node_ids G →
  let V := filter (λ s, s ≠ v) (node_ids G) in
  0 <= Qsum ((λ s, Qsum (pair_dependency G v s <$> filter (λ t, t ≠ s) V)) <$> V)
    <= Qnat (number_of_nodes G - 1) * Qnat (number_of_nodes G - 2).
Proof.
  intros Hnd Hv V.
  assert (length V = (number_of_nodes G - 1)%nat) as HV.
  { unfold V. rewrite filter_ne_length by done. by rewrite number_of_nodes_ids. }
  assert (NoDup V) as HndV by (by apply NoDup_filter).
  rewrite <- HV.
  replace (number_of_nodes G - 2)%nat with (length V - 1)%nat by lia.
  apply Qsum_bounds. intros s Hs.
  rewrite <- (filter_ne_length s V) by done.
  rewrite <- (Qmult_1_r (Qnat (length (filter _ V)))).
  apply Qsum_bounds. intros t _. apply pair_dependency_unit.
Qed.

Lemma betweenness_unit (G : DiGraph) (v : string) :
  NoDup (node_ids G) → v ∈ node_ids G → 0 <= betweenness G v <= 1.
Proof.
  intros Hnd Hv. pose proof (betweenness_raw_bound G v Hnd Hv) as Hraw.
  cbv zeta in Hraw. unfold betweenness.
  destruct (decide (number_of_nodes G ≤ 2)%nat) as [Hn|Hn].
  - assert (Qnat (number_of_nodes G - 1) * Qnat (number_of_nodes G - 2) == 0) as H0.
    { rewrite <- Qnat_mul.
      by replace ((number_of_nodes G - 1) * (number_of_nodes G - 2))%nat
        with 0%nat by nia. }
    rewrite H0 in Hraw. lra.
  - destruct Hraw as [? ?]. apply Qdiv_unit_interval; [done..|].
    rewrite <- Qnat_mul. apply Qnat_pos. nia.
Qed.

(** A node other than the source is at distance at least 1. *)
Lemma shortest_path_length_pos (G : DiGraph) (u w : string) (d : nat) :
  shortest_path_length G u w = Some d → w ≠ u → (1 ≤ d)%nat.
Proof.
  unfold shortest_path_length. intros [_ Hd]%find_some Hne.
  destruct d as [|d]; [|lia]. exfalso.
  apply bool_decide_eq_true in Hd. apply Hd. unfold paths. simpl.
  rewrite filter_cons, decide_False; [done|]. simpl. congruence.
Qed.

Lemma length_omap_le {A B} (f : A → option B) (l : list A) :
  (length (omap f l) ≤ length l)%nat.
Proof.
  induction l as [|x l IH]; csimpl; [done|]. destruct (f x); simpl; lia.
Qed.

Lemma distances_sum (f : string → option nat) (u : string) (l : list string) :
  NoDup l → (∀ w d, w ≠ u → f w = Some d → (1 ≤ d)%nat) →
  (length (omap f l) ≤ sum_list (omap f l) + if decide (u ∈ l) then 1 else 0)%nat.
Proof.
  intros Hnd Hf. induction l as [|w l IH]; csimpl; [done|].
  apply NoDup_cons in Hnd as [Hw Hnd]. specialize (IH Hnd).
  destruct (decide (w = u)) as [->|Hne].
  - rewrite decide_True by left. rewrite decide_False in IH by done.
    destruct (f u); simpl; lia.
  - assert ((if decide (u ∈ w :: l) then 1 else 0)%nat
            = (if decide (u ∈ l) then 1 else 0)%nat) as ->.
    { destruct (decide (u ∈ l)).
      - rewrite decide_True; [done|by right].
      - rewrite decide_False; [done|]. intros [?|?]%elem_of_cons; congruence. }
    destruct (f w) as [d|] eqn:Hd; simpl; [|done].
    pose proof (Hf w d Hne Hd). lia.
Qed.

Lemma closeness_unit (G : DiGraph) (u : string) :
  NoDup (node_ids G) → 0 <= closeness G u <= 1.
Proof.
  intros Hnd. unfold closeness.
  set (sp := omap (shortest_path_length (reverse G) u) (node_ids G)).
  destruct (decide _) as [[Htot Hn]|]; [|lra].
  assert (length sp ≤ number_of_nodes G)%nat as Hr.
  { rewrite number_of_nodes_ids. apply length_omap_le. }
  assert (length sp ≤ sum_list sp + 1)%nat as Hsum.
  { pose proof (distances_sum (shortest_path_length (reverse G) u) u (node_ids G)
                  Hnd) as Hd.
    fold sp in Hd. etrans; [apply Hd|].
    - intros w d Hne Hw. by eapply shortest_path_length_pos.
    - destruct (decide _); lia. }
  assert (1 ≤ length sp)%nat as H1.
  { destruct sp; [simpl in Htot; lia|simpl; lia]. }
  rewrite !Qnat_pred by lia.
  pose proof (Qdiv_unit_interval (Qnat (length sp - 1)) (Qnat (sum_list sp))
                (Qnat_nonneg _)) as HA.
  pose proof (Qdiv_unit_interval (Qnat (length sp - 1)) (Qnat (number_of_nodes G - 1))
                (Qnat_nonneg _)) as HB.
  destruct HA as [? ?]; [apply Qnat_le; lia|apply Qnat_pos; lia|].
  destruct HB as [? ?]; [apply Qnat_le; lia|apply Qnat_pos; lia|].
  nra.
Qed.

End CentralityBounds.

(** ** The centralities attached by the builder *)

Section AttachedCentralities.
Open Scope Q_scope.

Lemma per_node_lookup (G : DiGraph) (f : string → Q) (v : string) :
  v ∈ node_ids G → per_node G f !! v = Some (f v).
Proof.
  unfold per_node. generalize (node_ids G) as l.
  induction l as [|w l IH]; [by intros ?%elem_of_nil|].
  intros Hv. csimpl. destruct (decide (w = v)) as [->|Hne].
  - by rewrite lookup_insert_eq.
  - rewrite lookup_insert_ne by done. apply IH.
    apply elem_of_cons in Hv as [?|?]; [congruence|done].
Qed.

Lemma predecessors_le (G : DiGraph) (v : string) :
  wf G → (in_degree_of G v ≤ number_of_nodes G)%nat.
Proof.
  intros (Hn & He & Hends). unfold in_degree_of, predecessors.
  rewrite number_of_nodes_ids. apply submseteq_length, NoDup_submseteq.
  - apply NoDup_fmap_2_strong; [|by apply NoDup_filter].
    intros [u1 v1] [u2 v2] [H1 _]%list_elem_of_filter [H2 _]%list_elem_of_filter.
    simpl in *. congruence.
  - intros u ([u' v'] & -> & [Hv' Hin]%list_elem_of_filter)%list_elem_of_fmap.
    simpl in *. by destruct (Hends u' v' Hin).
Qed.

Lemma successors_le (G : DiGraph) (v : string) :
  wf G → (out_degree_of G v ≤ number_of_nodes G)%nat.
Proof.
  intros (Hn & He & Hends). unfold out_degree_of, successors.
  rewrite number_of_nodes_ids. apply submseteq_length, NoDup_submseteq.
  - apply NoDup_fmap_2_strong; [|by apply NoDup_filter].
    intros [u1 v1] [u2 v2] [H1 _]%list_elem_of_filter [H2 _]%list_elem_of_filter.
    simpl in *. congruence.
  - intros u ([u' v'] & -> & [Hv' Hin]%list_elem_of_filter)%list_elem_of_fmap.
    simpl in *. by destruct (Hends u' v' Hin).
Qed.

(** The degree centrality counts the edges in both directions, and a
    self-loop twice. *)
Lemma degree_centrality_bound (G : DiGraph) (v : string) :
  wf G → (2 ≤ number_of_nodes G)%nat →
  0 <= Qnat (degree_of G v) * (1 / (Qnat (number_of_nodes G) - 1)) <= 4.
Proof.
  intros Hwf Hn. rewrite Qnat_pred by lia.
  pose proof (predecessors_le G v Hwf). pose proof (successors_le G v Hwf).
  assert (0 < Qnat (number_of_nodes G - 1)) as Hpos by (apply Qnat_pos; lia).
  assert (Qnat (degree_of G v) <= 4 * Qnat (number_of_nodes G - 1)) as Hle.
  { change 4 with (Qnat 4). rewrite <- Qnat_mul. apply Qnat_le.
    unfold degree_of. lia. }
  pose proof (Qnat_nonneg (degree_of G v)).
  assert (Qnat (degree_of G v) * (1 / Qnat (number_of_nodes G - 1))
          == Qnat (degree_of G v) / Qnat (number_of_nodes G - 1)) as ->
    by (field; lra).
  split.
  - apply Qle_shift_div_l; lra.
  - apply Qle_shift_div_r; lra.
Qed.

Lemma elem_of_set_centralities (b c d : gmap string Q) (G : DiGraph)
    (v : string) (a : NodeAttrs) :
  (v, a) ∈ nodes (set_centralities b c d G) →
  v ∈ node_ids G
  ∧ betweenness_attr a = Some (get (b !! v) 0)
  ∧ closeness_attr a = Some (get (c !! v) 0)
  ∧ degree_attr a = Some (get (d !! v) 0).
Proof.
  unfold set_centralities; simpl.
  intros ([v' a'] & [= -> ->] & Hin)%list_elem_of_fmap. simpl. split; [|done].
  apply list_elem_of_fmap. by exists (v', a').
Qed.

Lemma build_graph_networkx (ast_trees : AstTrees) :
  let G := nodes_and_edges ast_trees in
  build_graph (nx := networkx) ast_trees
  = set_centralities
      (per_node G (betweenness G)) (per_node G (closeness G))
      (if decide (number_of_nodes G ≤ 1)%nat then per_node G (λ _, 1)
       else per_node G (λ v, Qnat (degree_of G v) * (1 / (Qnat (number_of_nodes G) - 1))))
      G.
Proof. done. Qed.

End AttachedCentralities.

(** C7 (as stated, fails). In the graph built from two files that import
    each other, the degree centrality of [a.py] is 2. *)
Lemma degree_centrality_above_one :
  let G := build_graph (nx := networkx) Examples.mutual_imports in
  ("a.py", "b.py") ∈ edge_ids G ∧ ("b.py", "a.py") ∈ edge_ids G
  ∧ ((centralities G "a.py").2 == 2)%Q
  ∧ ¬ ((centralities G "a.py").2 <= 1)%Q.
Proof.
  intros G. split_and!; [compute_done..|].
  intros H. vm_compute in H. by apply H.
Qed.

(** C7 (amended). In every graph produced by the builder, every node
    carries the three centrality values; betweenness_centrality and
    closeness_centrality lie in [0,1], and degree_centrality, which counts
    the edges in both directions and a self-loop twice, lies in [0,4]. *)
Theorem build_graph_centralities_bounded (ast_trees : AstTrees) (v : string)
    (a : NodeAttrs) :
  (v, a) ∈ nodes (build_graph (nx := networkx) ast_trees) →
  ∃ b c d,
    betweenness_attr a = Some b ∧ closeness_attr a = Some c ∧ degree_attr a = Some d
    ∧ (0 <= b <= 1)%Q ∧ (0 <= c <= 1)%Q ∧ (0 <= d <= 4)%Q.
Proof.
  rewrite build_graph_networkx. cbv zeta.
  set (G := nodes_and_edges ast_trees).
  pose proof (wf_nodes_and_edges ast_trees) as Hwf. fold G in Hwf.
  intros (Hv & -> & -> & ->)%elem_of_set_centralities.
  do 3 eexists. do 3 (split; [reflexivity|]). split; [|split].
  - rewrite per_node_lookup by done. apply betweenness_unit; [apply Hwf|done].
  - rewrite per_node_lookup by done. apply closeness_unit, Hwf.
  - destruct (decide (number_of_nodes G ≤ 1)) as [Hn|Hn];
      rewrite per_node_lookup by done; simpl.
    + lra.
    + apply degree_centrality_bound; [done|lia].
Qed.

Lemma build_graph_centralities_bounded_witness :
  ∃ b c d,
    betweenness_attr (node_attrs (build_graph (nx := networkx) Examples.mutual_imports) "a.py") = Some b
    ∧ closeness_attr (node_attrs (build_graph (nx := networkx) Examples.mutual_imports) "a.py") = Some c
    ∧ degree_attr (node_attrs (build_graph (nx := networkx) Examples.mutual_imports) "a.py") = Some d
    ∧ (0 <= b <= 1)%Q ∧ (0 <= c <= 1)%Q ∧ (0 <= d <= 4)%Q.
Proof.
  apply (build_graph_centralities_bounded Examples.mutual_imports "a.py").
  apply assoc_Some_keys. vm_compute. reflexivity.
Defined.

(** C9 (as stated, fails). The graph built from one file without imports
    has the single node [a.py], whose degree centrality is 1. *)
Lemma single_node_degree_centrality_is_one :
  let G := build_graph (nx := networkx) Examples.single_file in
  number_of_nodes G = 1
  ∧ ((centralities G "a.py").2 == 1)%Q
  ∧ ¬ ((centralities G "a.py").2 == 0)%Q.
Proof.
  intros G. split_and!; [compute_done..|].
  intros H. vm_compute in H. discriminate H.
Qed.

(** C9 (amended). When the built graph has fewer than 2 nodes, every node
    of it has betweenness_centrality 0, closeness_centrality 0 and
    degree_centrality 1, the value the library gives to the node of a
    one-node graph. *)
Theorem small_graph_centralities (ast_trees : AstTrees) (v : string)
    (a : NodeAttrs) :
  number_of_nodes (build_graph (nx := networkx) ast_trees) < 2 →
  (v, a) ∈ nodes (build_graph (nx := networkx) ast_trees) →
  betweenness_attr a = Some 0%Q
  ∧ closeness_attr a = Some 0%Q
  ∧ degree_attr a = Some 1%Q.
Proof.
  rewrite build_graph_networkx. cbv zeta.
  set (G := nodes_and_edges ast_trees).
  assert (number_of_nodes (set_centralities
            (per_node G (betweenness G)) (per_node G (closeness G))
            (if decide (number_of_nodes G ≤ 1) then per_node G (λ _, 1%Q)
             else per_node G (λ v, Qnat (degree_of G v)
                                   * (1 / (Qnat (number_of_nodes G) - 1)))%Q) G)
          = number_of_nodes G) as ->
    by (unfold number_of_nodes, set_centralities; simpl; apply length_fmap).
  intros Hn (Hv & -> & -> & ->)%elem_of_set_centralities.
  assert (node_ids G = [v]) as Hids.
  { rewrite number_of_nodes_ids in Hn.
    destruct (node_ids G) as [|w [|w' l]]; simpl in Hn.
    - by apply elem_of_nil in Hv.
    - by apply list_elem_of_singleton in Hv as ->.
    - lia. }
  assert (number_of_nodes G = 1) as Hone
    by (by rewrite number_of_nodes_ids, Hids).
  rewrite !per_node_lookup by done.
  rewrite decide_True by lia. rewrite per_node_lookup by done.
  unfold betweenness, closeness. rewrite Hids, Hone.
  assert (filter (λ s : string, s ≠ v) [v] = []) as Hf.
  { rewrite filter_cons. by rewrite decide_False by (by intros ?). }
  rewrite !Hf. rewrite (decide_True (P := 1 ≤ 2)) by lia.
  rewrite (decide_False (P := _ ∧ 1 < 1)) by lia. done.
Qed.

Lemma small_graph_centralities_witness :
  betweenness_attr (node_attrs (build_graph (nx := networkx) Examples.self_import) "a.py")
  = Some 0%Q
  ∧ closeness_attr (node_attrs (build_graph (nx := networkx) Examples.self_import) "a.py")
    = Some 0%Q
  ∧ degree_attr (node_attrs (build_graph (nx := networkx) Examples.self_import) "a.py")
    = Some 1%Q.
Proof.
  apply (small_graph_centralities Examples.self_import "a.py").
  - vm_compute. lia.
  - apply assoc_Some_keys. vm_compute. reflexivity.
Defined.


(** ** The unit tests of the repository, replayed on the model *)

Section UnitTests.

(** test_build_graph_nodes, test_build_graph_total_nodes. *)
Example test_build_graph_nodes :
  node_ids (build_graph (nx := networkx) Examples.sample_ast_trees)
  = ["file_a.py"; "file_a.py::func_a"; "file_a.py::ClassA";
     "file_b.py"; "file_b.py::func_b"; "file_c.py"; "file_c.py::func_c"]
  ∧ edge_ids (build_graph (nx := networkx) Examples.sample_ast_trees)
    = [("file_a.py", "file_b.py"); ("file_b.py", "file_c.py")].
Proof. split; compute_done. Qed.

(** test_get_node_impact_nonexistent. *)
Example test_get_node_impact_nonexistent :
  get_node_impact "nonexistent_node.py"
    (build_graph (nx := networkx) Examples.sample_ast_trees)
  = ImpactError "Node not found".
Proof. compute_done. Qed.

(** test_analyze_impact_finds_downstream. *)
Example test_analyze_impact_finds_downstream :
  let r := Examples.returned
             (analyze_impact (nx := networkx) ["file_a"] Examples.sample_graph) in
  "file_b" ∈ impacted_components r ∧ "file_c" ∈ impacted_components r
  ∧ "service_x" ∈ impacted_components r ∧ "api_y" ∈ impacted_components r.
Proof. intros r. split_and!; compute_done. Qed.

(** test_risk_level_low. *)
Example test_risk_level_low :
  risk_level
    (Examples.returned
       (analyze_impact (nx := networkx) ["cache_z"] Examples.sample_graph))
  = "LOW".
Proof. compute_done. Qed.

(** test_calculate_criticality_hub_node. *)
Example test_calculate_criticality_hub_node :
  let G := node_link_graph Examples.hub_graph in
  (calculate_criticality (nx := networkx) "file_a" G
   <= calculate_criticality (nx := networkx) "hub" G)%Q.
Proof. intros G. vm_compute. discriminate. Qed.

(** test_extract_services. *)
Example test_extract_services :
  _extract_services
    (list_to_set ["services/payment/checkout.py"; "services/payment/processor.py";
                  "services/auth/login.py"; "utils/helpers.py"])
  = ["auth"; "payment"].
Proof. compute_done. Qed.

(** test_recommendations_security_changes. *)
Example test_recommendations_security_changes :
  _generate_recommendations "HIGH" 10 3 ["src/auth/security.py"]
  = ["High impact detected. Plan comprehensive testing";
     "Deploy with caution, monitor all affected endpoints";
     "Focus testing on 3 high-criticality components";
     "Security-related changes. Perform security review"].
Proof. compute_done. Qed.

End UnitTests.

(** * Further properties of the code *)

Import WorkflowOrchestrator Security.

(* The solvers of stdpp clear hypotheses that may be absent. *)
Set Warnings "-clear-no-such-hyp".

(** ** The nodes of a built graph *)

Section BuilderNodes.
Context {nx : Centrality}.

Lemma node_ids_add_symbols kind p defs G x :
  x ∈ node_ids (add_symbols kind p defs G) ↔
  x ∈ node_ids G ∨ ∃ d, d ∈ defs ∧ x = symbol_id p d.
Proof.
  unfold add_symbols. revert G. induction defs as [|d defs IH]; intros G; cbn [foldl].
  - set_solver.
  - rewrite IH, node_ids_add_node. set_solver.
Qed.

Lemma node_ids_add_file_nodes G p d x :
  x ∈ node_ids (add_file_nodes G (p, d)) ↔
  x ∈ node_ids G
  ∨ (error d = None ∧ (x = p ∨ ∃ s, s ∈ definitions d ∧ x = symbol_id p s)).
Proof.
  unfold add_file_nodes, definitions. destruct (error d).
  - naive_solver.
  - rewrite !node_ids_add_symbols, node_ids_add_node.
    setoid_rewrite elem_of_app. setoid_rewrite elem_of_app. naive_solver.
Qed.

Lemma node_ids_first_pass l G x :
  x ∈ node_ids (foldl add_file_nodes G l) ↔
  x ∈ node_ids G
  ∨ ∃ p d, (p, d) ∈ l ∧ error d = None
           ∧ (x = p ∨ ∃ s, s ∈ definitions d ∧ x = symbol_id p s).
Proof.
  revert G. induction l as [|[p d] l IH]; intros G; cbn [foldl].
  - set_solver.
  - rewrite IH, node_ids_add_file_nodes. setoid_rewrite elem_of_cons. naive_solver.
Qed.

Lemma node_ids_import_loop keys p imps G x :
  x ∈ node_ids (foldl (add_import_edge keys p) G imps) ↔
  x ∈ node_ids G
  ∨ ∃ imp q, imp ∈ imps
             ∧ find_import_target (get (import_name imp) "") keys = Some q
             ∧ (x = p ∨ x = q).
Proof.
  revert G. induction imps as [|imp imps IH]; intros G; cbn [foldl].
  - set_solver.
  - rewrite IH. unfold add_import_edge.
    destruct (find_import_target (get (import_name imp) "") keys) as [q|] eqn:E.
    + rewrite node_ids_add_edge. setoid_rewrite elem_of_cons. naive_solver.
    + setoid_rewrite elem_of_cons. naive_solver.
Qed.

Lemma node_ids_second_pass keys l G x :
  x ∈ node_ids (foldl (add_import_edges keys) G l) ↔
  x ∈ node_ids G
  ∨ ∃ p d imp q, (p, d) ∈ l ∧ error d = None ∧ imp ∈ imports d
                 ∧ find_import_target (get (import_name imp) "") keys = Some q
                 ∧ (x = p ∨ x = q).
Proof.
  revert G. induction l as [|[p d] l IH]; intros G; cbn [foldl].
  - set_solver.
  - rewrite IH. unfold add_import_edges. destruct (error d) eqn:E.
    + setoid_rewrite elem_of_cons. naive_solver.
    + rewrite node_ids_import_loop. setoid_rewrite elem_of_cons. naive_solver.
Qed.

Lemma find_import_target_elem n keys q :
  find_import_target n keys = Some q → q ∈ keys.
Proof.
  induction keys as [|k keys IH]; cbn [find_import_target]; [done|].
  destruct (DependencyGraphBuilder.import_matches n k); set_solver.
Qed.

(** X1. The nodes of the graph [build_graph] returns are exactly: the
    files that were parsed without error, the functions, classes and async
    functions of those files under the identifier [file::name], and the
    targets of the import edges. *)
Theorem build_graph_nodes (ast_trees : AstTrees) (v : string) :
  v ∈ node_ids (build_graph ast_trees) ↔
  (∃ ast_data, (v, ast_data) ∈ ast_trees ∧ error ast_data = None)
  ∨ (∃ p ast_data s, (p, ast_data) ∈ ast_trees ∧ error ast_data = None
                     ∧ s ∈ definitions ast_data ∧ v = symbol_id p s)
  ∨ (∃ p, (p, v) ∈ edge_ids (build_graph ast_trees)).
Proof.
  setoid_rewrite edge_ids_build_graph.
  unfold build_graph. rewrite node_ids_add_centrality_metrics.
  unfold nodes_and_edges. rewrite node_ids_second_pass, node_ids_first_pass.
  split.
  - intros [[H|(p & d & Hp & He & [->|(s & Hs & ->)])]
           |(p & d & imp & q & Hp & He & Hi & Hq & [->| ->])]; eauto 10.
    set_solver.
  - intros [(d & Hd & He)|[(p & d & s & Hp & He & Hs & ->)|(p & d & imp & Hp & He & Hi & Hq)]].
    + left. right. eauto 10.
    + left. right. eauto 10.
    + right. eauto 10.
Qed.

End BuilderNodes.

(** ** The attributes of the nodes of a built graph *)

Section BuilderAttributes.
Context {nx : Centrality}.

Lemma built_add_node T n a G :
  built T G → built_node T n a →
  built T (add_node n a G).
Proof.
  intros HG Ha v b [Hb|[-> [->|(a0 & H0 & ->)]]]%elem_of_upsert; [by apply HG|done|].
  destruct (HG _ _ H0) as [Ht0 Hp0], Ha as [Ht Hp]. split.
  - cbn. destruct (ntype a); cbn; [|done]. done.
  - cbn. intros p. destruct (parent_file a); cbn; [apply Hp|apply Hp0].
Qed.

Lemma built_no_attrs T n : built_node T n no_attrs.
Proof. split; [by left|done]. Qed.

Lemma built_add_edge T u v e G : built T G → built T (add_edge u v e G).
Proof.
  intros HG. change (add_edge u v e G) with
    {| nodes := nodes (add_node v no_attrs (add_node u no_attrs G));
       edges := upsert update_edge (u, v) e (edges G) |}.
  intros w a Hw. cbn [nodes] in Hw. revert w a Hw.
  apply built_add_node, built_no_attrs. apply built_add_node, built_no_attrs. done.
Qed.

Lemma built_add_symbols T kind p d defs G :
  (p, d) ∈ T → error d = None → defs ⊆ definitions d →
  Some kind ∈ [Some "file"; Some "function"; Some "class"; Some "async_function"] →
  built T G → built T (add_symbols kind p defs G).
Proof.
  intros Hp He Hsub Hk. unfold add_symbols. revert G.
  induction defs as [|s defs IH]; intros G HG; cbn [foldl]; [done|].
  apply IH; [set_solver|]. apply built_add_node; [done|]. split; [by right|].
  cbn. intros ? [= <-]. exists d, s. set_solver.
Qed.

Lemma built_first_pass T l G :
  l ⊆ T → built T G → built T (foldl add_file_nodes G l).
Proof.
  revert G. induction l as [|[p d] l IH]; intros G Hl HG; cbn [foldl]; [done|].
  apply IH; [set_solver|]. unfold add_file_nodes. destruct (error d) eqn:He; [done|].
  assert ((p, d) ∈ T) as Hp by set_solver.
  unfold definitions in *.
  apply (built_add_symbols T _ p d); [done|done|unfold definitions; set_solver|compute_done|].
  apply (built_add_symbols T _ p d); [done|done|unfold definitions; set_solver|compute_done|].
  apply (built_add_symbols T _ p d); [done|done|unfold definitions; set_solver|compute_done|].
  apply built_add_node; [done|]. split; [right; compute_done|done].
Qed.

Lemma built_second_pass T keys l G :
  built T G → built T (foldl (add_import_edges keys) G l).
Proof.
  revert G. induction l as [|[p d] l IH]; intros G HG; cbn [foldl]; [done|].
  apply IH. unfold add_import_edges. destruct (error d); [done|].
  generalize (imports d). intros imps. revert G HG.
  induction imps as [|imp imps IHi]; intros G HG; cbn [foldl]; [done|].
  apply IHi. unfold add_import_edge. destruct find_import_target; [|done].
  by apply built_add_edge.
Qed.

Lemma built_add_centrality_metrics T G :
  built T G → built T (add_centrality_metrics G).
Proof.
  intros HG. unfold add_centrality_metrics.
  destruct betweenness_centrality as [b|]; [|done].
  destruct closeness_centrality as [c|]; [|done].
  destruct degree_centrality as [d|]; [|done].
  intros v a. unfold set_centralities. cbn [nodes].
  intros ([v' a'] & [= -> ->] & H)%list_elem_of_fmap. apply (HG _ _ H).
Qed.

Lemma built_build_graph (ast_trees : AstTrees) :
  built ast_trees (build_graph ast_trees).
Proof.
  apply built_add_centrality_metrics, built_second_pass, built_first_pass; [done|].
  intros ? ? []%elem_of_nil.
Qed.

(** X2. Every node of a built graph has one of the types [file],
    [function], [class], [async_function], or none; and a node that carries
    a [parent_file] has an identifier of the form [parent::name] for a
    definition [name] of the parsed file [parent], which is itself a node. *)
Theorem build_graph_node_attributes (ast_trees : AstTrees) (v : string) (a : NodeAttrs) :
  (v, a) ∈ nodes (build_graph ast_trees) →
  (ntype a = None
   ∨ ntype a ∈ [Some "file"; Some "function"; Some "class"; Some "async_function"])
  ∧ ∀ p, parent_file a = Some p →
         p ∈ node_ids (build_graph ast_trees)
         ∧ ∃ ast_data s, (p, ast_data) ∈ ast_trees ∧ error ast_data = None
                         ∧ s ∈ definitions ast_data ∧ v = symbol_id p s.
Proof.
  intros Hv.
  destruct (built_build_graph ast_trees _ _ Hv) as [Ht Hp]. split; [done|]. intros p Hpa.
  destruct (Hp _ Hpa) as (d & s & Hd & He & Hs & ->). split; [|eauto 10].
  unfold build_graph. rewrite node_ids_add_centrality_metrics.
  unfold nodes_and_edges. rewrite node_ids_second_pass, node_ids_first_pass.
  left. right. eauto 10.
Qed.

End BuilderAttributes.

Lemma build_graph_node_attributes_witness :
  let G := build_graph (nx := networkx) Examples.sample_ast_trees in
  let a := node_attrs G "file_a.py::ClassA" in
  (ntype a = None
   ∨ ntype a ∈ [Some "file"; Some "function"; Some "class"; Some "async_function"])
  ∧ ∀ p, parent_file a = Some p →
         p ∈ node_ids G
         ∧ ∃ ast_data s, (p, ast_data) ∈ Examples.sample_ast_trees
                         ∧ error ast_data = None
                         ∧ s ∈ definitions ast_data
                         ∧ "file_a.py::ClassA" = symbol_id p s.
Proof.
  apply (build_graph_node_attributes (nx := networkx) Examples.sample_ast_trees).
  apply assoc_Some_keys. vm_compute. reflexivity.
Defined.

(** ** The edges of a built graph *)

Lemma build_graph_edge_keys {nx : Centrality} ast_trees p q :
  (p, q) ∈ edge_ids (build_graph ast_trees) → p ∈ ast_trees.*1 ∧ q ∈ ast_trees.*1.
Proof.
  intros (d & imp & Hp & _ & _ & Hq)%edge_ids_build_graph. split.
  - apply list_elem_of_fmap. by exists (p, d).
  - by apply find_import_target_elem in Hq.
Qed.

Lemma no_successors_no_descendants (G : DiGraph) (v : string) :
  successors G v = [] → descendants G v = ∅.
Proof.
  intros Hs. apply set_eq. intros w. split; [|by intros ?%elem_of_empty].
  unfold descendants. rewrite elem_of_list_to_set, list_elem_of_filter.
  intros [[Hne [k Hk]] _]. exfalso.
  unfold shortest_path_length in Hk. apply find_some in Hk as [_ Hk].
  apply bool_decide_eq_true in Hk. apply Hk. unfold paths.
  destruct k as [|k]; cbn [walks_from].
  - rewrite filter_cons. cbn. destruct (decide (Some v = Some w)); [congruence|done].
  - rewrite Hs. done.
Qed.

Lemma successors_reverse (G : DiGraph) (v : string) :
  successors (reverse G) v = predecessors G v.
Proof.
  unfold successors, predecessors, edge_ids, reverse. cbn [edges].
  induction (edges G) as [|[[a b] e] l IH]; [done|].
  cbn [fmap list_fmap] in *. rewrite !filter_cons. cbn.
  destruct (decide (b = v)); cbn; by rewrite IH.
Qed.

(** X3. A node that is not a key of the parse results, as is every
    function, class and async function node whose identifier is not also a
    file path, has no edge in the built graph: its in-degree and out-degree
    are 0 and it has neither descendants nor ancestors. *)
Theorem build_graph_symbols_isolated {nx : Centrality} (ast_trees : AstTrees)
    (v : string) :
  v ∉ ast_trees.*1 →
  let G := build_graph ast_trees in
  in_degree_of G v = 0 ∧ out_degree_of G v = 0
  ∧ descendants G v = ∅ ∧ ancestors G v = ∅.
Proof.
  intros Hv G.
  assert (predecessors G v = []) as Hp.
  { destruct (predecessors G v) as [|u l] eqn:E; [done|]. exfalso.
    assert (u ∈ predecessors G v) as Hu by (rewrite E; left).
    unfold predecessors in Hu.
    apply list_elem_of_fmap in Hu as ([u' v'] & -> & [Hv' He]%list_elem_of_filter).
    cbn in Hv'. subst v'. by apply build_graph_edge_keys in He as [_ ?]. }
  assert (successors G v = []) as Hs.
  { destruct (successors G v) as [|u l] eqn:E; [done|]. exfalso.
    assert (u ∈ successors G v) as Hu by (rewrite E; left).
    apply elem_of_successors, build_graph_edge_keys in Hu as [? _]. done. }
  unfold in_degree_of, out_degree_of. rewrite Hp, Hs. split_and!; [done|done|..].
  - by apply no_successors_no_descendants.
  - apply no_successors_no_descendants. by rewrite successors_reverse.
Qed.

Lemma build_graph_symbols_isolated_witness :
  let G := build_graph (nx := networkx) Examples.sample_ast_trees in
  in_degree_of G "file_a.py::func_a" = 0 ∧ out_degree_of G "file_a.py::func_a" = 0
  ∧ descendants G "file_a.py::func_a" = ∅ ∧ ancestors G "file_a.py::func_a" = ∅.
Proof. apply (build_graph_symbols_isolated (nx := networkx)). compute_done. Defined.

Lemma length_upsert {K V} `{EqDecision K} (m : V → V → V) (k : K) (v : V) d :
  length (upsert m k v d) ≤ S (length d).
Proof.
  induction d as [|[k' v'] d IH]; cbn; [lia|]. destruct (decide (k = k')); cbn; lia.
Qed.

Lemma number_of_edges_import_loop keys p imps G :
  number_of_edges (foldl (add_import_edge keys p) G imps)
  ≤ number_of_edges G + length imps.
Proof.
  revert G. induction imps as [|imp imps IH]; intros G; cbn [foldl length]; [lia|].
  etrans; [apply IH|]. unfold add_import_edge.
  destruct find_import_target as [q|]; [|lia].
  unfold number_of_edges, add_edge. cbn [edges].
  pose proof (length_upsert update_edge (p, q) (import_attrs imp) (edges G)). lia.
Qed.

Lemma number_of_edges_second_pass keys l G :
  number_of_edges (foldl (add_import_edges keys) G l)
  ≤ number_of_edges G + import_count l.
Proof.
  revert G. induction l as [|[p d] l IH]; intros G; cbn [foldl].
  - unfold import_count. cbn. lia.
  - etrans; [apply IH|]. unfold import_count. cbn [fmap list_fmap sum_list snd].
    unfold add_import_edges. destruct (error d); [lia|].
    pose proof (number_of_edges_import_loop keys p (imports d) G).
    unfold import_count, id. lia.
Qed.

(** X4. A built graph has at most as many edges as the files parsed
    without error have import entries. *)
Theorem build_graph_edge_count {nx : Centrality} (ast_trees : AstTrees) :
  number_of_edges (build_graph ast_trees) ≤ import_count ast_trees.
Proof.
  unfold build_graph, number_of_edges. rewrite edges_add_centrality_metrics.
  unfold nodes_and_edges.
  etrans; [apply number_of_edges_second_pass|].
  unfold number_of_edges. rewrite edges_first_pass. done.
Qed.

Lemma str_in_empty (s : string) : str_in "" s = true.
Proof. by destruct s. Qed.

(** X5. An import entry without a name, or with the empty name, in a
    file parsed without error is resolved to the first key of the parse
    results: the graph has an edge from the importing file to that key. *)
Theorem nameless_import_targets_first_file {nx : Centrality} (ast_trees : AstTrees)
    (first p : string) (ast_data : AstData) (imp : ImportData) :
  head ast_trees.*1 = Some first →
  (p, ast_data) ∈ ast_trees → error ast_data = None →
  imp ∈ imports ast_data → get (import_name imp) "" = "" →
  (p, first) ∈ edge_ids (build_graph ast_trees).
Proof.
  intros Hf Hp He Hi Hn. apply edge_ids_build_graph. exists ast_data, imp.
  split_and!; [done..|]. rewrite Hn.
  destruct (ast_trees.*1) as [|k ks]; [done|]. injection Hf as ->.
  cbn [find_import_target]. by rewrite import_matches_str_in, str_in_empty.
Qed.

Lemma nameless_import_targets_first_file_witness :
  ("web/app.js", "lib/util.py") ∈ edge_ids (build_graph (nx := networkx) nameless_import).
Proof.
  apply (nameless_import_targets_first_file (nx := networkx) nameless_import
           "lib/util.py" "web/app.js"
           {| error := None; imports := [{| import_name := None |}];
              functions := []; classes := []; async_functions := [] |}
           {| import_name := None |}).
  - reflexivity.
  - right. left.
  - reflexivity.
  - left.
  - reflexivity.
Defined.

(** X6. Import resolution is a substring search: the target of an import
    is the first key, in iteration order, that contains the import name.
    The second test of the loop, on the path with separators replaced,
    never selects a key that the substring test does not select. *)
Theorem find_import_target_substring_search (import_name : string) (keys : list string) :
  find_import_target import_name keys = List.find (str_in import_name) keys.
Proof.
  induction keys as [|k keys IH]; cbn [find_import_target List.find]; [done|].
  by rewrite import_matches_str_in, IH.
Qed.

(** ** The stored document *)

Lemma count_lookup {A} (f : A → string) (l : list A) (m0 : gmap string nat) (t : string) :
  foldl (λ m x, <[f x := get (m !! f x) 0 + 1]> m) m0 l !! t
  = match length (filter (λ x, f x = t) l) with
    | 0 => m0 !! t
    | S c => Some (get (m0 !! t) 0 + S c)
    end.
Proof.
  revert m0. induction l as [|x l IH]; intros m0; cbn [foldl]; [done|].
  rewrite IH, filter_cons. destruct (decide (f x = t)) as [->|Hne]; cbn [length].
  - rewrite lookup_insert_eq. cbn.
    destruct (length (filter (λ x, f x = t) l)); f_equal; lia.
  - by rewrite lookup_insert_ne.
Qed.

Lemma total_count_insert (m : gmap string nat) (k : string) :
  total_count (<[k := get (m !! k) 0 + 1]> m) = S (total_count m).
Proof.
  assert (∀ (m' : gmap string nat) c, m' !! k = None →
            total_count (<[k := c]> m') = c + total_count m') as Hins.
  { intros m' c Hk. unfold total_count. rewrite map_fold_insert_L; [done| |done].
    intros. lia. }
  destruct (m !! k) as [c|] eqn:E; cbn.
  - rewrite <- (insert_delete_id m k c) at 2 by done.
    rewrite <- insert_delete_eq. rewrite !Hins by apply lookup_delete_eq. lia.
  - rewrite Hins by done. lia.
Qed.

(** X7. [_count_node_types] maps a type to the number of nodes with that
    type, the type [unknown] standing for nodes without type, and has no
    entry for a type that no node has; the counts add up to the
    [nodes_count] of the stored document. *)
Theorem count_node_types_spec (graph : DiGraph) :
  (∀ t, _count_node_types graph !! t
        = match length (filter (λ na, get (ntype na.2) "unknown" = t) (nodes graph)) with
          | 0 => None
          | S c => Some (S c)
          end)
  ∧ total_count (node_types (graph_data graph)) = nodes_count (graph_data graph).
Proof.
  split.
  - intros t. unfold _count_node_types.
    rewrite (count_lookup (λ na : string * NodeAttrs, get (ntype na.2) "unknown")).
    by rewrite lookup_empty.
  - cbn [node_types nodes_count graph_data]. unfold _count_node_types, number_of_nodes.
    generalize (nodes graph). intros l.
    assert (∀ m0 : gmap string nat,
              total_count (foldl (λ type_counts (na : string * NodeAttrs),
                 <[get (ntype na.2) "unknown" :=
                     get (type_counts !! get (ntype na.2) "unknown") 0 + 1]> type_counts)
                 m0 l) = total_count m0 + length l) as H.
    { induction l as [|na l IH]; intros m0; cbn [foldl length]; [lia|].
      rewrite IH, total_count_insert. lia. }
    rewrite H. unfold total_count. by rewrite map_fold_empty.
Qed.

(** X8. Storing is stable under loading: for a well-formed graph, the
    document of the graph loaded from its document is that same document
    (counters, node types, node and edge lists). *)
Theorem stored_document_is_stable (graph : DiGraph) :
  wf graph →
  graph_data (load_graph_from_data (graph_data graph)) = graph_data graph.
Proof.
  intros Hwf. rewrite load_graph_data by done. unfold graph_data. f_equal.
  - unfold number_of_nodes. cbn [nodes]. by rewrite length_fmap.
  - unfold number_of_edges. cbn [edges]. by rewrite length_fmap.
  - unfold _count_node_types. cbn [nodes]. rewrite foldl_fmap. done.
  - unfold _serialize_nodes. cbn [nodes]. rewrite <- list_fmap_compose.
    apply list_fmap_ext. by intros ? [? []].
  - unfold _serialize_edges. cbn [edges]. rewrite <- list_fmap_compose.
    apply list_fmap_ext. by intros ? [? []].
Qed.

Lemma stored_document_is_stable_witness :
  graph_data (load_graph_from_data
                (graph_data (build_graph (nx := networkx) Examples.sample_ast_trees)))
  = graph_data (build_graph (nx := networkx) Examples.sample_ast_trees).
Proof. apply stored_document_is_stable. apply (wf_build_graph (nx := networkx)). Defined.

Lemma wf_load_graph_from_data (data : GraphData) : wf (load_graph_from_data data).
Proof.
  unfold load_graph_from_data. apply wf_foldl; [intros; by apply wf_add_edge|].
  apply wf_foldl; [intros; by apply wf_add_node|]. apply wf_empty.
Qed.

(** X9. [load_graph_from_data] of any document is a well-formed graph
    whose nodes are the listed identifiers together with the end points of
    the listed edges, and whose edges are the listed source-target pairs:
    an end point that is not listed becomes a node. *)
Theorem load_graph_from_data_spec (data : GraphData) :
  let G := load_graph_from_data data in
  wf G
  ∧ (∀ x, x ∈ node_ids G ↔
          x ∈ doc_id <$> doc_nodes data
          ∨ ∃ e, e ∈ doc_edges data ∧ (x = doc_source e ∨ x = doc_target e))
  ∧ (∀ u v, (u, v) ∈ edge_ids G ↔
            ∃ e, e ∈ doc_edges data ∧ u = doc_source e ∧ v = doc_target e).
Proof.
  intros G. split; [apply wf_load_graph_from_data|].
  assert (∀ l G0 x, x ∈ node_ids (foldl load_node G0 l) ↔
                    x ∈ node_ids G0 ∨ x ∈ doc_id <$> l) as Hn.
  { induction l as [|n l IH]; intros G0 x; cbn [foldl].
    - rewrite fmap_nil, elem_of_nil. tauto.
    - rewrite IH. unfold load_node. rewrite node_ids_add_node, fmap_cons, elem_of_cons.
      tauto. }
  assert (∀ l G0, edge_ids (foldl load_node G0 l) = edge_ids G0) as Hne.
  { induction l as [|n l IH]; intros G0; cbn [foldl]; [done|]. by rewrite IH. }
  assert (∀ l G0,
            (∀ x, x ∈ node_ids (foldl load_edge G0 l) ↔
                  x ∈ node_ids G0
                  ∨ ∃ e, e ∈ l ∧ (x = doc_source e ∨ x = doc_target e))
            ∧ (∀ u v, (u, v) ∈ edge_ids (foldl load_edge G0 l) ↔
                      (u, v) ∈ edge_ids G0
                      ∨ ∃ e, e ∈ l ∧ u = doc_source e ∧ v = doc_target e)) as He.
  { induction l as [|e l IH]; intros G0; cbn [foldl].
    - split; intros; setoid_rewrite elem_of_nil; naive_solver.
    - destruct (IH (load_edge G0 e)) as [IH1 IH2]. split.
      + intros x. rewrite IH1. unfold load_edge. rewrite node_ids_add_edge.
        setoid_rewrite elem_of_cons. naive_solver.
      + intros u v. rewrite IH2. unfold load_edge. rewrite edge_ids_add_edge.
        setoid_rewrite elem_of_cons. naive_solver. }
  subst G. unfold load_graph_from_data. split.
  - intros x. rewrite (proj1 (He _ _)), Hn. unfold node_ids at 1. cbn.
    rewrite elem_of_nil. tauto.
  - intros u v. rewrite (proj2 (He _ _)), Hne. unfold edge_ids at 1. cbn.
    rewrite elem_of_nil. tauto.
Qed.

Lemma size_descendants_le (G : DiGraph) (s : string) :
  NoDup (node_ids G) → s ∈ node_ids G →
  size (descendants G s) ≤ number_of_nodes G - 1.
Proof.
  intros Hnd Hs. rewrite number_of_nodes_ids, <- (filter_ne_length s) by done.
  unfold descendants. rewrite size_list_to_set by by apply NoDup_filter.
  clear. induction (node_ids G) as [|w l IH]; [done|].
  rewrite !filter_cons.
  destruct (decide (w ≠ s ∧ is_Some (shortest_path_length G s w))) as [[? _]|];
    destruct (decide (w ≠ s)); cbn [length]; try lia. done.
Qed.

(** X10. For a node of a well-formed graph, [get_node_impact] reports the
    node, its numbers of predecessors and successors as degrees, and
    descendants and ancestors that are duplicate-free lists of nodes of the
    graph without the node itself; [total_impact] is at most [2(n-1)] for a
    graph of [n] nodes. *)
Theorem get_node_impact_bounds (node_id : string) (graph : DiGraph) :
  wf graph → node_id ∈ node_ids graph →
  ∃ r, get_node_impact node_id graph = Impact r
       ∧ impact_node_id r = node_id
       ∧ impact_in_degree r = DegreeInt (length (predecessors graph node_id))
       ∧ impact_out_degree r = DegreeInt (length (successors graph node_id))
       ∧ NoDup (impact_descendants r) ∧ NoDup (impact_ancestors r)
       ∧ (node_id ∉ impact_descendants r) ∧ (node_id ∉ impact_ancestors r)
       ∧ impact_descendants r ⊆ node_ids graph
       ∧ impact_ancestors r ⊆ node_ids graph
       ∧ total_impact r ≤ 2 * (number_of_nodes graph - 1).
Proof.
  intros Hwf Hn. unfold get_node_impact, in_degree, out_degree, has_node.
  rewrite bool_decide_eq_true_2 by done. cbn [negb]. eexists. split; [done|].
  cbn [impact_node_id impact_in_degree impact_out_degree impact_descendants
       impact_ancestors total_impact].
  split_and!; try done.
  - apply NoDup_elements.
  - apply NoDup_elements.
  - rewrite elem_of_elements. by intros [_ ?]%descendants_nodes.
  - rewrite elem_of_elements. by intros [_ ?]%ancestors_nodes.
  - intros w. rewrite elem_of_elements. by intros [? _]%descendants_nodes.
  - intros w. rewrite elem_of_elements. by intros [? _]%ancestors_nodes.
  - pose proof (size_descendants_le graph node_id (proj1 Hwf) Hn) as H1.
    pose proof (size_descendants_le (reverse graph) node_id (proj1 Hwf) Hn) as H2.
    change (size (descendants (reverse graph) node_id))
      with (length (elements (ancestors graph node_id))) in H2.
    change (size (descendants graph node_id))
      with (length (elements (descendants graph node_id))) in H1.
    change (number_of_nodes (reverse graph)) with (number_of_nodes graph) in H2.
    lia.
Qed.

Lemma get_node_impact_bounds_witness :
  ∃ r, get_node_impact "b" (node_link_graph Examples.chain) = Impact r
       ∧ impact_node_id r = "b"
       ∧ impact_in_degree r
         = DegreeInt (length (predecessors (node_link_graph Examples.chain) "b"))
       ∧ impact_out_degree r
         = DegreeInt (length (successors (node_link_graph Examples.chain) "b"))
       ∧ NoDup (impact_descendants r) ∧ NoDup (impact_ancestors r)
       ∧ ("b" ∉ impact_descendants r) ∧ ("b" ∉ impact_ancestors r)
       ∧ impact_descendants r ⊆ node_ids (node_link_graph Examples.chain)
       ∧ impact_ancestors r ⊆ node_ids (node_link_graph Examples.chain)
       ∧ total_impact r ≤ 2 * (number_of_nodes (node_link_graph Examples.chain) - 1).
Proof.
  apply get_node_impact_bounds; [apply wf_node_link_graph|compute_done].
Defined.

(** ** The range of the criticality score *)

Section Scores.
Context {nx : Centrality}.
Open Scope Q_scope.

Lemma clamp_unit (x : Q) : 0 <= Qmin 1 (Qmax 0 x) <= 1.
Proof.
  split; [|apply Q.le_min_l]. apply Q.min_glb; [done|apply Q.le_max_l].
Qed.

Lemma criticality_unit (node : string) (graph : DiGraph) (score : Q) :
  criticality node graph = Return score → 0 <= score <= 1.
Proof.
  unfold criticality.
  destruct (true_div (in_degree graph node) (max_degree graph)); [|done].
  destruct (true_div (out_degree graph node) (max_degree graph)); [|done].
  cbn [bind]. intros [= <-]. apply clamp_unit.
Qed.

Lemma calculate_criticality_bounds (node : string) (graph : DiGraph) :
  0 <= calculate_criticality node graph <= 1.
Proof.
  unfold calculate_criticality.
  destruct (criticality node graph) as [score|] eqn:E.
  - by apply (criticality_unit node graph).
  - split; by vm_compute.
Qed.

(** X11. [calculate_criticality] always returns a score between 0 and 1,
    whatever the graph, the node and the outcome of the centrality
    computations. *)
Theorem calculate_criticality_unit (node : string) (graph : DiGraph) :
  0 <= calculate_criticality node graph <= 1.
Proof.
  unfold calculate_criticality, criticality.
  destruct (true_div (in_degree graph node) (max_degree graph)) as [x|];
    [|split; by vm_compute].
  destruct (true_div (out_degree graph node) (max_degree graph)) as [y|];
    [|split; by vm_compute].
  cbn [bind]. apply clamp_unit.
Qed.

End Scores.

(** ** When the analysis returns, and what it returns *)

Section Results.
Context {nx : Centrality}.

Lemma connected_outside_impacted (changed : list string) (data : NodeLinkData) :
  connected_outside changed (node_link_graph data) ↔
  ∃ v, v ∈ impacted_nodes changed (node_link_graph data) ∧ (v ∉ changed).
Proof.
  pose proof (wf_node_link_graph data) as Hwf. split.
  - intros (s & v & Hs & Hn & Hv & Hr). exists v. split; [|done].
    apply impacted_nodes_reachable; [done|]. right. by exists s.
  - intros (v & Hv & Hc). apply impacted_nodes_reachable in Hv; [|done].
    destruct Hv as [?|(s & Hs & Hn & Hr)]; [done|]. by exists s, v.
Qed.

(** X12. [analyze_impact] returns a result exactly when some changed file
    is a node of the graph and is joined, by a path in either direction, to
    something that is not a changed file; in every other case it raises
    ValueError. *)
Theorem analyze_impact_returns_iff (changed : list string) (data : NodeLinkData) :
  let G := node_link_graph data in
  ((∃ r, analyze_impact changed data = Return r) ↔ connected_outside changed G)
  ∧ (analyze_impact changed data = Raise ValueError ↔ ¬ connected_outside changed G).
Proof.
  intros G.
  assert (connected_outside changed G → ∃ r, analyze_impact changed data = Return r) as H1.
  { intros (v & Hv & Hc)%connected_outside_impacted.
    destruct (analyze_impact_returns changed data v Hv Hc) as (r & Hr & _). by exists r. }
  assert (¬ connected_outside changed G → analyze_impact changed data = Raise ValueError) as H2.
  { intros Hn. apply analyze_impact_nothing_to_score. intros v Hv.
    apply elem_of_list_to_set. destruct (decide (v ∈ changed)) as [|Hc]; [done|].
    destruct Hn. apply connected_outside_impacted. by exists v. }
  assert (Decision (connected_outside changed G)) as Hdec.
  { destruct (decide (set_Exists (λ v, v ∉ changed) (impacted_nodes changed G))) as [H|H].
    - left. apply connected_outside_impacted. destruct H as (v & ? & ?). by exists v.
    - right. intros (v & ? & ?)%connected_outside_impacted. apply H. by exists v. }
  split; split.
  - intros [r Hr]. destruct Hdec as [|Hn]; [done|]. rewrite (H2 Hn) in Hr. done.
  - done.
  - intros He Hc. destruct (H1 Hc) as [r Hr]. congruence.
  - done.
Qed.

Lemma max_spec (l : list Q) (m : Q) :
  max l = Return m → m ∈ l ∧ ∀ x, x ∈ l → (x <= m)%Q.
Proof.
  destruct l as [|x0 l]; [done|]. cbn [max]. intros [= <-].
  revert x0. induction l as [|y l IH]; intros x0; cbn [foldl].
  - split; [left|]. intros x ->%list_elem_of_singleton. apply Qle_refl.
  - destruct (IH (if Qgtb y x0 then y else x0)) as [Hin Hle]. split.
    + apply elem_of_cons in Hin as [->|Hin].
      * destruct (Qgtb y x0); [right; left|left].
      * right. by right.
    + assert (x0 <= (if Qgtb y x0 then y else x0) ∧ y <= (if Qgtb y x0 then y else x0))%Q
        as [H0 Hy].
      { destruct (Qgtb y x0) eqn:E.
        - apply Qgtb_lt in E. split; [by apply Qlt_le_weak|apply Qle_refl].
        - split; [apply Qle_refl|]. apply Qnot_lt_le. intros H%Qgtb_lt. congruence. }
      intros x [->|[->|Hx]%elem_of_cons]%elem_of_cons.
      * apply (Qle_trans _ _ _ H0). apply Hle. left.
      * apply (Qle_trans _ _ _ Hy). apply Hle. left.
      * apply Hle. by right.
Qed.

Lemma high_risk_spec (scores : gmap string Q) (v : string) :
  v ∈ (filter (λ ns : string * Q, Qgtb ns.2 0.7 = true) (map_to_list scores)).*1
  ↔ ∃ s, scores !! v = Some s ∧ (0.7 < s)%Q.
Proof.
  rewrite list_elem_of_fmap. split.
  - intros ([v' s] & -> & [Hs Hin]%list_elem_of_filter). exists s. cbn in *.
    split; [by apply elem_of_map_to_list|by apply Qgtb_lt].
  - intros (s & Hs & Hlt). exists (v, s). split; [done|].
    apply list_elem_of_filter. split; [by apply Qgtb_lt|by apply elem_of_map_to_list].
Qed.

Lemma analyze_impact_fields (changed : list string) (data : NodeLinkData)
    (r : ImpactResult) :
  analyze_impact changed data = Return r →
  changed_files r = changed ∧ impacted_count r = size (impacted_components r).
Proof.
  unfold analyze_impact. destruct classify_risk; [|done]. cbn [bind].
  by intros [= <-].
Qed.

(** X13. A result of [analyze_impact] is consistent: it repeats the
    changed files; every changed file is an impacted component and has no
    score; [impacted_count] is the number of impacted components and
    exceeds the number of distinct changed files; every score lies
    between 0 and 1; and [high_risk_areas] lists, without duplicates,
    exactly the scored nodes whose score is above 0.7. *)
Theorem analyze_impact_result_consistent (changed : list string)
    (data : NodeLinkData) (r : ImpactResult) :
  analyze_impact changed data = Return r →
  changed_files r = changed
  ∧ (∀ f, f ∈ changed → f ∈ impacted_components r ∧ criticality_scores r !! f = None)
  ∧ impacted_count r = size (impacted_components r)
  ∧ size (list_to_set changed : gset string) < impacted_count r
  ∧ (∀ v s, criticality_scores r !! v = Some s → (0 <= s <= 1)%Q)
  ∧ NoDup (high_risk_areas r)
  ∧ (∀ v, v ∈ high_risk_areas r ↔
          ∃ s, criticality_scores r !! v = Some s ∧ (0.7 < s)%Q).
Proof.
  intros Hr. destruct (analyze_impact_fields _ _ _ Hr) as [Hc Hn].
  destruct (analyze_impact_result _ _ _ Hr) as [Hi Hs].
  destruct (analyze_impact_risk_level _ _ _ Hr) as (m & Hm & Hh & _).
  split_and!; [done| |done|..].
  - intros f Hf. split.
    + rewrite Hi, impacted_nodes_unfold. by do 2 apply elem_of_union_l; apply elem_of_list_to_set.
    + rewrite Hs. apply eq_None_not_Some. intros [s Hf']. by apply score_nodes_lookup in Hf' as (_ & ? & _).
  - rewrite Hn.
    apply max_spec in Hm as [Hm _].
    apply list_elem_of_fmap in Hm as ([v s] & _ & Hv%elem_of_map_to_list).
    rewrite Hs in Hv. apply score_nodes_lookup in Hv as (Hv & Hnc & _).
    apply subset_size. split.
    + intros f Hf%elem_of_list_to_set. rewrite Hi, impacted_nodes_unfold.
      by do 2 apply elem_of_union_l; apply elem_of_list_to_set.
    + intros H. apply Hnc. rewrite <- Hi in Hv. apply H in Hv. by apply elem_of_list_to_set in Hv.
  - intros v s. rewrite Hs. intros (_ & _ & ->)%score_nodes_lookup.
    apply calculate_criticality_bounds.
  - rewrite Hh. apply (NoDup_fmap_2_strong fst).
    + intros [v1 s1] [v2 s2] [_ H1%elem_of_map_to_list]%list_elem_of_filter
             [_ H2%elem_of_map_to_list]%list_elem_of_filter ?. cbn in *. subst. congruence.
    + apply NoDup_filter, NoDup_map_to_list.
  - intros v. rewrite Hh. apply high_risk_spec.
Qed.

End Results.

Lemma analyze_impact_result_consistent_witness :
  let r := Examples.returned (analyze_impact (nx := networkx) ["a"] Examples.chain) in
  changed_files r = ["a"]
  ∧ (∀ f, f ∈ ["a"] → f ∈ impacted_components r ∧ criticality_scores r !! f = None)
  ∧ impacted_count r = size (impacted_components r)
  ∧ size (list_to_set ["a"] : gset string) < impacted_count r
  ∧ (∀ v s, criticality_scores r !! v = Some s → (0 <= s <= 1)%Q)
  ∧ NoDup (high_risk_areas r)
  ∧ (∀ v, v ∈ high_risk_areas r ↔
          ∃ s, criticality_scores r !! v = Some s ∧ (0.7 < s)%Q).
Proof.
  intros r. apply (analyze_impact_result_consistent (nx := networkx) ["a"] Examples.chain).
  vm_compute. reflexivity.
Defined.

(** ** The risk level in terms of the scores *)

Section RiskLevels.
Context {nx : Centrality}.

Lemma Qgtb_false (x y : Q) : Qgtb x y = false ↔ (x <= y)%Q.
Proof.
  split.
  - intros H. apply Qnot_lt_le. intros Hlt%Qgtb_lt. congruence.
  - intros H. apply not_true_is_false. intros Hlt%Qgtb_lt. by apply Qlt_not_le in Hlt.
Qed.

(** X14. The risk level of a result in terms of its scores, with [high]
    the number of high-risk areas: CRITICAL iff [high >= 5]; HIGH iff
    [high < 5] and ([high >= 3] or some score is above 0.85); MEDIUM iff
    [high < 3], no score is above 0.85 and some score is above 0.65; LOW
    iff no score is above 0.65. *)
Theorem risk_level_by_scores (changed : list string) (data : NodeLinkData)
    (r : ImpactResult) :
  analyze_impact changed data = Return r →
  let high := length (high_risk_areas r) in
  let above (bound : Q) := ∃ v s, criticality_scores r !! v = Some s ∧ (bound < s)%Q in
  (risk_level r = "CRITICAL" ↔ 5 ≤ high)
  ∧ (risk_level r = "HIGH" ↔ high < 5 ∧ (3 ≤ high ∨ above 0.85%Q))
  ∧ (risk_level r = "MEDIUM" ↔ high < 3 ∧ ¬ above 0.85%Q ∧ above 0.65%Q)
  ∧ (risk_level r = "LOW" ↔ ¬ above 0.65%Q).
Proof.
  intros Hr high above.
  destruct (analyze_impact_risk_level _ _ _ Hr) as (m & Hm & Hh & ->).
  apply max_spec in Hm as [Hin Hmax].
  apply list_elem_of_fmap in Hin as ([vm sm] & Hsm & Hin%elem_of_map_to_list).
  cbn in Hsm. subst sm.
  assert (∀ b, Qgtb m b = true ↔ above b) as Habove.
  { intros b. rewrite Qgtb_lt. split.
    - intros Hb. by exists vm, m.
    - intros (v & s & Hv & Hb). apply (Qlt_le_trans _ _ _ Hb), Hmax.
      apply list_elem_of_fmap. exists (v, s). split; [done|]. by apply elem_of_map_to_list. }
  assert (1 ≤ high → above 0.7%Q) as Hhigh.
  { unfold high. destruct (high_risk_areas r) as [|v l] eqn:E; [cbn; lia|]. intros _.
    assert (v ∈ v :: l) as Hv by left.
    rewrite Hh in Hv. apply high_risk_spec in Hv as (s & ? & ?). by exists v, s. }
  assert (∀ b c, (b <= c)%Q → above c → above b) as Hmono.
  { intros b c Hbc (v & s & Hv & Hc). exists v, s. split; [done|]. by apply (Qle_lt_trans _ c). }
  fold high. unfold Spec.risk_level.
  destruct (Nat.leb_spec 5 high) as [H5|H5].
  { split_and!; [done|split; [done|lia]|split; [done|lia]|].
    split; [done|]. intros Hn. destruct Hn. apply (Hmono _ 0.7%Q); [done|]. apply Hhigh. lia. }
  destruct (Nat.leb_spec 3 high) as [H3|H3]; cbn [orb].
  { split_and!; [split; [done|lia]|split; [lia|done]|split; [done|lia]|].
    split; [done|]. intros Hn. destruct Hn. apply (Hmono _ 0.7%Q); [done|]. apply Hhigh. lia. }
  destruct (Qgtb m 0.85) eqn:E85.
  { apply Habove in E85.
    split_and!; [split; [done|lia]|split; [intros _; split; [lia|by right]|done]| |].
    - split; [done|]. by intros (_ & ? & _).
    - split; [done|]. intros Hn. destruct Hn. by apply (Hmono _ 0.85%Q). }
  assert (¬ above 0.85%Q) as Hn85.
  { intros Ha%Habove. congruence. }
  destruct (Nat.leb_spec 1 high) as [H1|H1]; cbn [orb].
  { assert (above 0.65%Q) as Ha by (apply (Hmono _ 0.7%Q); [done|by apply Hhigh]).
    split_and!; [split; [done|lia]|split; [done|intros [_ [?|?]]; [lia|done]]| |].
    - split; [intros _; split_and!; [lia|done|done]|done].
    - split; [done|]. by intros Hn. }
  destruct (Qgtb m 0.65) eqn:E65.
  { apply Habove in E65.
    split_and!; [split; [done|lia]|split; [done|intros [_ [?|?]]; [lia|done]]| |].
    - split; [intros _; split_and!; [lia|done|done]|done].
    - split; [done|]. by intros Hn. }
  assert (¬ above 0.65%Q) as Hn65.
  { intros Ha%Habove. congruence. }
  split_and!; [split; [done|lia]|split; [done|intros [_ [?|?]]; [lia|done]]| |].
  - split; [done|]. by intros (_ & _ & ?).
  - done.
Qed.

End RiskLevels.

Lemma risk_level_by_scores_witness :
  let r := Examples.returned
             (analyze_impact (nx := networkx) ["cache_z"] Examples.sample_graph) in
  let high := length (high_risk_areas r) in
  let above (bound : Q) := ∃ v s, criticality_scores r !! v = Some s ∧ (bound < s)%Q in
  (risk_level r = "CRITICAL" ↔ 5 ≤ high)
  ∧ (risk_level r = "HIGH" ↔ high < 5 ∧ (3 ≤ high ∨ above 0.85%Q))
  ∧ (risk_level r = "MEDIUM" ↔ high < 3 ∧ ¬ above 0.85%Q ∧ above 0.65%Q)
  ∧ (risk_level r = "LOW" ↔ ¬ above 0.65%Q).
Proof.
  intros r.
  apply (risk_level_by_scores (nx := networkx) ["cache_z"] Examples.sample_graph).
  vm_compute. reflexivity.
Defined.

(** ** Impacted sets of several files, and the affected services *)

Lemma impacted_nodes_cons (f : string) (changed : list string) (G : DiGraph) :
  impacted_nodes (f :: changed) G = impacted_nodes [f] G ∪ impacted_nodes changed G.
Proof.
  rewrite !impacted_nodes_unfold. unfold Spec.seed. rewrite !filter_cons, filter_nil.
  destruct (decide (f ∈ node_ids G)); cbn [fmap list_fmap union_list list_to_set];
    apply set_eq; intros x; rewrite !elem_of_union; set_solver.
Qed.

(** X15. The impacted set of a list of changed files is the union of the
    impacted sets of its files taken one by one. *)
Theorem impacted_nodes_union (changed : list string) (G : DiGraph) :
  impacted_nodes changed G = ⋃ ((λ f, impacted_nodes [f] G) <$> changed).
Proof.
  induction changed as [|f changed IH].
  - done.
  - rewrite impacted_nodes_cons, IH. done.
Qed.

Lemma insert_sorted_perm (x : string) (l : list string) : insert_sorted x l ≡ₚ x :: l.
Proof.
  induction l as [|y l IH]; cbn [insert_sorted]; [done|].
  destruct (String.leb x y); [done|]. by rewrite IH, Permutation_swap.
Qed.

Lemma sorted_perm (l : list string) : sorted l ≡ₚ l.
Proof.
  induction l as [|x l IH]; [done|]. unfold sorted in *. cbn [foldr].
  by rewrite insert_sorted_perm, IH.
Qed.

Lemma insert_sorted_sorted (x : string) (l : list string) :
  StronglySorted String.le l → StronglySorted String.le (insert_sorted x l).
Proof.
  induction 1 as [|y l Hl IH Hy]; cbn [insert_sorted].
  - by repeat constructor.
  - destruct (String.leb x y) eqn:E.
    + constructor; [by constructor|]. apply Is_true_true in E. constructor; [done|].
      eapply Forall_impl; [exact Hy|]. intros z Hz. by trans y.
    + constructor; [done|]. rewrite insert_sorted_perm. constructor; [|done].
      destruct (total String.le x y) as [H|H]; [|done].
      apply Is_true_true in H. unfold String.le in *. congruence.
Qed.

Lemma sorted_sorted (l : list string) : StronglySorted String.le (sorted l).
Proof.
  induction l as [|x l IH]; [constructor|]. by apply insert_sorted_sorted.
Qed.

(** X16. [_extract_services] returns, in ascending order and without
    duplicates, exactly the second path components of the components whose
    first path component is [services]. *)
Theorem extract_services_spec (components : gset string) :
  StronglySorted String.le (_extract_services components)
  ∧ NoDup (_extract_services components)
  ∧ ∀ service, service ∈ _extract_services components ↔
               ∃ component rest, component ∈ components
                 ∧ split "/" component = "services" :: service :: rest.
Proof.
  unfold _extract_services. split_and!.
  - apply sorted_sorted.
  - rewrite sorted_perm. apply NoDup_elements.
  - intros service. rewrite sorted_perm, elem_of_elements, elem_of_list_to_set,
      list_elem_of_omap.
    split.
    + intros (c & Hc%elem_of_elements & H). exists c.
      destruct (split "/" c) as [|p0 [|p1 rest]]; [done..|].
      destruct (decide (p0 = "services")) as [->|]; [|done]. injection H as ->. by exists rest.
    + intros (c & rest & Hc & H). exists c. rewrite elem_of_elements, H. done.
Qed.

(** ** The scoring endpoint and the dependency step of the workflow *)

Lemma foldl_insert_lookup {V} (f : string → V) (l : list string) (m0 : gmap string V)
    (k : string) :
  foldl (λ m x, <[x := f x]> m) m0 l !! k
  = if decide (k ∈ l) then Some (f k) else m0 !! k.
Proof.
  revert m0. induction l as [|x l IH]; intros m0; cbn [foldl]; [done|].
  rewrite IH. destruct (decide (k ∈ l)) as [Hl|Hl].
  - rewrite decide_True by (by right). done.
  - destruct (decide (k = x)) as [->|Hne].
    + rewrite lookup_insert_eq, decide_True by left. done.
    + rewrite lookup_insert_ne by done. rewrite decide_False; [done|].
      by intros [|]%elem_of_cons.
Qed.

(** X17. The scoring endpoint scores exactly the nodes of the graph:
    [node_count] is the number of scores, and every score is the weighted
    score of its node and lies between 0 and 1. *)
Theorem criticality_endpoint_spec {nx : Centrality} (graph_data : NodeLinkData) :
  let G := node_link_graph graph_data in
  let response := Api.calculate_criticality graph_data in
  dom (Api.criticality_scores response) = list_to_set (node_ids G)
  ∧ Api.node_count response = size (Api.criticality_scores response)
  ∧ ∀ v s, Api.criticality_scores response !! v = Some s →
           (s == Spec.score G v)%Q ∧ (0 <= s <= 1)%Q.
Proof.
  intros G response.
  assert (∀ v, Api.criticality_scores response !! v
               = if decide (v ∈ node_ids G) then Some (calculate_criticality v G) else None)
    as Hlook.
  { intros v. unfold response, Api.calculate_criticality. cbn [Api.criticality_scores].
    by rewrite (foldl_insert_lookup (λ node, calculate_criticality node G)). }
  assert (dom (Api.criticality_scores response) = list_to_set (node_ids G)) as Hdom.
  { apply set_eq. intros v. rewrite elem_of_dom, Hlook, elem_of_list_to_set.
    destruct (decide (v ∈ node_ids G)); [by split|]. split; [by intros []|done]. }
  split_and!; [done| |].
  - rewrite <- size_dom, Hdom, size_list_to_set; [done|].
    apply (wf_node_link_graph graph_data).
  - intros v s. rewrite Hlook. destruct (decide (v ∈ node_ids G)); [|done].
    intros [= <-]. split; [by apply calculate_criticality_node|].
    apply calculate_criticality_bounds.
Qed.

Lemma foldl_union_both (F1 F2 : string → gset string) (G : DiGraph)
    (l : list string) (X : gset string) :
  foldl (λ acc file, if has_node G file then acc ∪ F1 file ∪ F2 file else acc) X l
  = X ∪ ⋃ (F1 <$> filter (λ f, f ∈ node_ids G) l)
      ∪ ⋃ (F2 <$> filter (λ f, f ∈ node_ids G) l).
Proof.
  revert X. induction l as [|f l IH]; intros X; simpl.
  - by rewrite !(right_id_L ∅ (∪)).
  - rewrite IH. unfold has_node, filter; simpl.
    destruct (decide (f ∈ node_ids G)).
    + rewrite bool_decide_eq_true_2 by done. simpl.
      apply set_eq. intros x. rewrite !elem_of_union. tauto.
    + rewrite bool_decide_eq_false_2 by done. done.
Qed.

Lemma rtc_source_node (G : DiGraph) (s v : string) :
  wf G → s ∈ node_ids G → rtc (edge G) v s → v ∈ node_ids G.
Proof.
  intros Hwf Hs Hr. apply (rtc_node (reverse G) s v); [by apply wf_reverse|done|].
  by apply rtc_reverse.
Qed.

(** X18. With a graph, [analyze_dependencies] lists without duplicates
    exactly the nodes that a path, in either direction, joins to an affected
    file that is a node of the graph and differs from them; [impact_count]
    is the length of that list. An affected file is listed only when such a
    path joins it to another affected file. *)
Theorem analyze_dependencies_affected (affected_files : list string)
    (data : NodeLinkData) :
  let G := node_link_graph data in
  let analysis := analyze_dependencies affected_files (Some data) in
  NoDup (affected_components analysis)
  ∧ impact_count analysis = Some (length (affected_components analysis))
  ∧ ∀ v, v ∈ affected_components analysis ↔
         ∃ s, s ∈ affected_files ∧ s ∈ node_ids G ∧ v ≠ s
              ∧ (rtc (edge G) s v ∨ rtc (edge G) v s).
Proof.
  intros G analysis. pose proof (wf_node_link_graph data) as Hwf.
  unfold analysis, analyze_dependencies. cbn [affected_components impact_count].
  split_and!; [apply NoDup_elements|done|].
  intros v. fold G. rewrite elem_of_elements, foldl_union_both, !elem_of_union.
  rewrite !elem_of_union_list. split.
  - intros [[[]%elem_of_empty|(X & HX & Hv)]|(X & HX & Hv)];
      apply list_elem_of_fmap in HX as (s & -> & [Hn Hs]%list_elem_of_filter);
      exists s; (split; [done|]); (split; [done|]).
    + apply elem_of_descendants in Hv as (_ & ? & ?); [|done..]. split; [done|by left].
    + apply elem_of_ancestors in Hv as (_ & ? & ?); [|done..]. split; [done|by right].
  - intros (s & Hs & Hn & Hne & [Hr|Hr]).
    + left. right. exists (descendants G s). split.
      * apply list_elem_of_fmap. exists s. split; [done|]. by apply list_elem_of_filter.
      * apply elem_of_descendants; [done..|]. split_and!; [|done..]. by apply (rtc_node G s).
    + right. exists (ancestors G s). split.
      * apply list_elem_of_fmap. exists s. split; [done|]. by apply list_elem_of_filter.
      * apply elem_of_ancestors; [done..|]. split_and!; [|done..]. by apply (rtc_source_node G s).
Qed.

(** X19. The two services agree: the impacted set of the impact analyzer
    is the set of changed files together with the affected components of
    the workflow's dependency step, on the same files and graph. *)
Theorem analyzer_agrees_with_orchestrator (files : list string) (data : NodeLinkData) :
  impacted_nodes files (node_link_graph data)
  = list_to_set files
    ∪ list_to_set (affected_components (analyze_dependencies files (Some data))).
Proof.
  unfold analyze_dependencies. cbn [affected_components].
  rewrite list_to_set_elements_L, foldl_union_both, impacted_nodes_unfold.
  unfold Spec.seed. apply set_eq. intros x. rewrite !elem_of_union.
  rewrite elem_of_empty. tauto.
Qed.

(** ** The default test plan and the validation of file paths *)

Lemma str_of_nat_inj (n m : nat) : str_of_nat n = str_of_nat m → n = m.
Proof.
  unfold str_of_nat. intros H.
  assert (Nat.to_uint n = Nat.to_uint m) as Hu.
  { apply (inj Some). by rewrite <- !NilEmpty.usu, H. }
  by rewrite <- (Unsigned.of_to n), <- (Unsigned.of_to m), Hu.
Qed.

(** X20. When the reply to the test-planning prompt is not JSON, the
    default plan has [min(5, affected_count)] unit tests with pairwise
    distinct names, one integration test and one smoke test. *)
Theorem plan_tests_default_plan (affected_count : nat) :
  ∃ unit_tests,
    plan_tests affected_count NotJson
    = DefaultPlan unit_tests ["integration_test_main_flow"] ["smoke_test_critical_paths"]
    ∧ length unit_tests = Nat.min 5 affected_count
    ∧ NoDup unit_tests.
Proof.
  eexists. split; [done|]. split.
  - by rewrite length_fmap, length_seq.
  - apply NoDup_fmap_2; [|apply NoDup_seq].
    intros i j. cbn. intros [= H]. by apply str_of_nat_inj.
Qed.

Lemma split_head (sep : ascii) (s : string) :
  ∃ w ws, split sep s = w :: ws ∧ String.prefix w s = true.
Proof.
  induction s as [|c s (w & ws & IH & Hp)]; cbn [split].
  - by exists "", [].
  - destruct (Ascii.eqb c sep).
    + by exists "", (split sep s).
    + rewrite IH. exists (String c w), ws. split; [done|].
      cbn [String.prefix]. destruct (ascii_dec c c); done.
Qed.

Lemma split_components (sep : ascii) (s w : string) :
  w ∈ split sep s → str_in w s = true.
Proof.
  induction s as [|c s IH]; cbn [split].
  - by intros ->%list_elem_of_singleton.
  - destruct (Ascii.eqb c sep).
    + intros [->|Hw]%elem_of_cons; [done|]. cbn [str_in].
      rewrite (IH Hw). apply orb_true_r.
    + destruct (split_head sep s) as (w0 & ws & E & Hp). rewrite E in *.
      intros [->|Hw]%elem_of_cons.
      * apply prefix_str_in. cbn [String.prefix]. destruct (ascii_dec c c); done.
      * cbn [str_in]. rewrite IH by by right. apply orb_true_r.
Qed.

(** X21. [validate_file_path] either returns its argument unchanged or
    raises ValueError. It accepts a path exactly when the path does not
    contain [..], does not begin with a slash and contains none of the
    characters of the forbidden class; no component of an accepted path is
    [..]. *)
Theorem validate_file_path_spec (file_path : string) :
  (validate_file_path file_path = Return file_path
   ∨ validate_file_path file_path = Raise ValueError)
  ∧ (validate_file_path file_path = Return file_path ↔
     str_in ".." file_path = false
     ∧ String.get 0 file_path ≠ Some "/"%char
     ∧ ∀ c, c ∈ list_ascii_of_string file_path → c ∉ invalid_characters)
  ∧ (validate_file_path file_path = Return file_path →
     ".." ∉ split "/" file_path).
Proof.
  assert (startswith file_path "/" = false ↔ String.get 0 file_path ≠ Some "/"%char) as Hs.
  { unfold startswith. destruct file_path as [|c s]; cbn [String.prefix String.get]; [done|].
    destruct (ascii_dec "/" c) as [<-|Hne].
    - split; [|done]. by destruct s.
    - split; [|done]. intros _ [= ->]. done. }
  assert (existsb (λ c, bool_decide (c ∈ invalid_characters))
                  (list_ascii_of_string file_path) = false
          ↔ ∀ c, c ∈ list_ascii_of_string file_path → c ∉ invalid_characters) as Hc.
  { rewrite <- not_true_iff_false, existsb_exists. split.
    - intros H c Hin Hbad. apply H. exists c. split; [by apply list_elem_of_In|].
      by apply bool_decide_eq_true.
    - intros H (c & Hin%list_elem_of_In & Hbad%bool_decide_eq_true). by apply (H c). }
  assert (validate_file_path file_path = Return file_path ↔
     str_in ".." file_path = false
     ∧ String.get 0 file_path ≠ Some "/"%char
     ∧ ∀ c, c ∈ list_ascii_of_string file_path → c ∉ invalid_characters) as Hiff.
  { rewrite <- Hs, <- Hc. unfold validate_file_path.
    destruct (str_in ".." file_path); cbn [orb]; [by split; [|intros (? & _)]|].
    destruct (startswith file_path "/"); [by split; [|intros (_ & ? & _)]|].
    destruct (existsb _ _); [by split; [|intros (_ & _ & ?)]|done]. }
  split_and!; [|done|].
  - unfold validate_file_path.
    destruct (_ || _); [by right|]. destruct (existsb _ _); [by right|by left].
  - intros (Hdots & _)%Hiff Hin%split_components. congruence.
Qed.

(** ** Masking of keys and addresses *)

Lemma length_append (a b : string) :
  String.length (a +:+ b) = String.length a + String.length b.
Proof.
  induction a as [|c a IH]; [done|].
  change (String c a +:+ b) with (String c (a +:+ b)). cbn [String.length].
  by rewrite IH.
Qed.

Lemma length_stars (n : nat) : String.length (stars n) = n.
Proof. induction n as [|n IH]; cbn; [done|]. by rewrite IH. Qed.

Lemma length_str_take (n : nat) (s : string) :
  String.length (str_take n s) = Nat.min n (String.length s).
Proof.
  revert s. induction n as [|n IH]; intros [|c s]; cbn; try done. by rewrite IH.
Qed.

Lemma length_str_drop (n : nat) (s : string) :
  String.length (str_drop n s) = String.length s - n.
Proof.
  revert s. induction n as [|n IH]; intros [|c s]; cbn; try done.
Qed.

Lemma get_append (i : nat) (a b : string) :
  String.get i (a +:+ b)
  = if decide (i < String.length a) then String.get i a
    else String.get (i - String.length a) b.
Proof.
  revert i. induction a as [|c a IH]; intros i.
  - change ("" +:+ b) with b. cbn [String.length].
    rewrite decide_False by lia. by rewrite Nat.sub_0_r.
  - change (String c a +:+ b) with (String c (a +:+ b)). cbn [String.length].
    destruct i as [|i]; cbn [String.get].
    + by rewrite decide_True by lia.
    + rewrite IH. destruct (decide (i < String.length a));
        [rewrite decide_True by lia|rewrite decide_False by lia]; done.
Qed.

Lemma get_stars (i n : nat) : i < n → String.get i (stars n) = Some "*"%char.
Proof.
  revert i. induction n as [|n IH]; intros [|i] ?; cbn; try lia; [done|].
  apply IH. lia.
Qed.

Lemma get_str_take (i n : nat) (s : string) :
  i < n → String.get i (str_take n s) = String.get i s.
Proof.
  revert i s. induction n as [|n IH]; intros i [|c s] ?; cbn; try lia; try done.
  destruct i; [done|]. apply IH. lia.
Qed.

Lemma get_str_drop (i n : nat) (s : string) :
  n ≤ String.length s → String.get i (str_drop n s) = String.get (n + i) s.
Proof.
  revert s. induction n as [|n IH]; intros [|c s] ?; cbn in *; try lia; try done.
  apply IH. lia.
Qed.

(** X22. [mask_api_key] keeps the length of the key. A character of the
    key is shown only when the key has more than 8 characters and the
    character is among the first four or the last four; every other
    position holds a star. *)
Theorem mask_api_key_spec (api_key : string) :
  let n := String.length api_key in
  String.length (mask_api_key api_key) = n
  ∧ ∀ i, i < n →
         String.get i (mask_api_key api_key)
         = if decide (8 < n ∧ (i < 4 ∨ n - 4 ≤ i)) then String.get i api_key
           else Some "*"%char.
Proof.
  intros n. unfold mask_api_key. fold n.
  destruct (decide (n ≤ 8)) as [Hle|Hgt].
  - split; [apply length_stars|]. intros i Hi.
    rewrite decide_False by lia. by apply get_stars.
  - split.
    + rewrite !length_append, length_stars, length_str_take, length_str_drop. fold n. lia.
    + intros i Hi. rewrite get_append, length_str_take. fold n.
      destruct (decide (i < 4 `min` n)).
      * rewrite decide_True by lia. apply get_str_take. lia.
      * rewrite get_append, length_stars.
        destruct (decide (i - 4 `min` n < n - 2 * 4)).
        -- rewrite decide_False by lia. by apply get_stars.
        -- rewrite decide_True by lia. rewrite get_str_drop by (fold n; lia).
           f_equal. lia.
Qed.

Lemma length_split (sep : ascii) (s : string) :
  length (split sep s) = S (occurrences sep s).
Proof.
  unfold occurrences. induction s as [|c s IH]; cbn [split list_ascii_of_string]; [done|].
  rewrite filter_cons. destruct (Ascii.eqb_spec c sep) as [->|Hne].
  - rewrite decide_True by done. cbn [length]. by rewrite IH.
  - rewrite decide_False by done. rewrite <- IH.
    by destruct (split sep s).
Qed.

Lemma str_in_char (c : ascii) (s : string) :
  str_in (String c "") s = true ↔ 0 < occurrences c s.
Proof.
  unfold occurrences. induction s as [|a s IH]; cbn [str_in list_ascii_of_string String.prefix].
  - cbn. split; [done|lia].
  - rewrite filter_cons, orb_true_iff, IH. destruct (ascii_dec c a) as [->|Hne].
    + rewrite decide_True by done. cbn [length]. split; [lia|]. intros _. left. by destruct s.
    + rewrite decide_False by done. split; [by intros [|]|by right].
Qed.

Lemma split_one (sep : ascii) (s a : string) : split sep s = [a] → s = a.
Proof.
  revert a. induction s as [|c s IH]; intros a; cbn [split]; [by intros [= <-]|].
  destruct (Ascii.eqb c sep).
  - intros [= _ H]. pose proof (length_split sep s) as Hl. by rewrite H in Hl.
  - destruct (split sep s) as [|w ws] eqn:E; [by intros [= <-]; pose proof (length_split sep s) as Hl; rewrite E in Hl|].
    intros [= <- ->]. by rewrite (IH w).
Qed.

Lemma split_two (sep : ascii) (s a b : string) :
  split sep s = [a; b] → s = a +:+ String sep b.
Proof.
  revert a. induction s as [|c s IH]; intros a; cbn [split]; [done|].
  destruct (Ascii.eqb_spec c sep) as [->|Hne].
  - intros [= <- H]. by rewrite (split_one _ _ _ H).
  - destruct (split sep s) as [|w ws] eqn:E; [done|].
    intros [= <- ->]. by rewrite (IH w).
Qed.

(** X23. [mask_email] returns [***] for a text without at-sign; for a
    text with exactly one at-sign it returns the local part masked to the
    same length, a local part of at most two characters entirely, followed
    by the at-sign and the unchanged domain; for a text with two or more
    at-signs it raises ValueError. *)
Theorem mask_email_spec (email : string) :
  (occurrences "@" email = 0 → mask_email email = Return "***")
  ∧ (occurrences "@" email = 1 →
     ∃ local domain masked,
       email = local +:+ "@" +:+ domain
       ∧ mask_email email = Return (masked +:+ "@" +:+ domain)
       ∧ String.length masked = String.length local
       ∧ (String.length local ≤ 2 → masked = stars (String.length local)))
  ∧ (2 ≤ occurrences "@" email → mask_email email = Raise ValueError).
Proof.
  pose proof (length_split "@" email) as Hl.
  pose proof (str_in_char "@" email) as Hin.
  unfold mask_email. split_and!.
  - intros H0. destruct (str_in "@" email); [|done]. destruct Hin as [Hin _].
    specialize (Hin eq_refl). lia.
  - intros H1. rewrite (proj2 Hin) by lia. cbn [negb]. rewrite H1 in Hl.
    destruct (split "@" email) as [|local [|domain [|]]] eqn:E; try done.
    exists local, domain. eexists. split; [by apply split_two|]. split; [done|].
    destruct (decide (2 < String.length local)).
    + split; [|lia].
      rewrite !length_append, length_stars, length_str_take, length_str_drop. lia.
    + split; [apply length_stars|done].
  - intros H2. rewrite (proj2 Hin) by lia. cbn [negb].
    destruct (split "@" email) as [|local [|domain [|]]] eqn:E; try done; cbn in Hl; lia.
Qed.

(** ** The rate limiter *)

Section RateLimit.
Open Scope Q_scope.

Lemma Qltb_lt (x y : Q) : Qltb x y = true ↔ x < y.
Proof.
  unfold Qltb. rewrite negb_true_iff, <- not_true_iff_false, Qle_bool_iff.
  split; [apply Qnot_le_lt|apply Qlt_not_le].
Qed.

Lemma window_shrinks (w now' now : Q) (l : list Q) :
  now' <= now →
  List.filter (λ r, Qltb (now - r) w) (List.filter (λ r, Qltb (now' - r) w) l)
  = List.filter (λ r, Qltb (now - r) w) l.
Proof.
  intros Hle. induction l as [|r l IH]; [done|]. cbn [List.filter].
  destruct (Qltb (now' - r) w) eqn:E1; cbn [List.filter]; rewrite IH; [done|].
  destruct (Qltb (now - r) w) eqn:E2; [|done].
  apply Qltb_lt in E2. apply not_true_iff_false in E1. destruct E1. apply Qltb_lt. lra.
Qed.

Lemma window_inside (now : Q) (l : list Q) :
  last_minute now (recent now l) = last_minute now l.
Proof.
  unfold last_minute, recent. f_equal.
  induction l as [|r l IH]; [done|]. cbn [List.filter].
  destruct (Qltb (now - r) 3600) eqn:E1; cbn [List.filter]; rewrite IH; [done|].
  destruct (Qltb (now - r) 60) eqn:E2; [|done].
  apply Qltb_lt in E2. apply not_true_iff_false in E1. destruct E1. apply Qltb_lt. lra.
Qed.

Lemma window_length (w now' now : Q) (l : list Q) :
  now' <= now →
  (length (List.filter (λ r, Qltb (now - r) w) l)
   ≤ length (List.filter (λ r, Qltb (now' - r) w) l))%nat.
Proof.
  intros Hle. induction l as [|r l IH]; [done|]. cbn [List.filter].
  destruct (Qltb (now - r) w) eqn:E2.
  - assert (Qltb (now' - r) w = true) as -> by (apply Qltb_lt in E2; apply Qltb_lt; lra).
    cbn [length]. lia.
  - destruct (Qltb (now' - r) w); cbn [length]; lia.
Qed.

Lemma length_filter_snoc (f : Q → bool) (l : list Q) (t : Q) :
  (length (List.filter f (l ++ [t])) ≤ S (length (List.filter f l)))%nat.
Proof.
  rewrite List.filter_app, length_app. cbn. destruct (f t); cbn; lia.
Qed.

End RateLimit.

Lemma check_rate_limit_within_limits (pm ph : nat) (t : Q) (ip : string) (self : RateLimiter)
    (log : string → list Q) (T : Q) :
  (T <= t)%Q →
  (∀ now, (T <= now)%Q → within_limits pm ph now self log) →
  ∀ now, (t <= now)%Q →
    within_limits pm ph now (check_rate_limit t ip self).2
      (λ ip', log ip' ++ if (check_rate_limit t ip self).1 && bool_decide (ip = ip')
                         then [t] else []).
Proof.
  intros HT Hinv now Hnow.
  destruct (Hinv t HT) as (Hpm & Hph & Ht).
  destruct (Hinv now ltac:(lra)) as (_ & _ & Hn).
  destruct (Ht ip) as (Hrt & Hmt & Hht).
  set (history := recent t (get (request_history self !! ip) [])) in *.
  assert (last_minute t history = last_minute t (log ip)) as Hlm.
  { rewrite Hrt. apply window_inside. }
  assert (recent now history = recent now (log ip)) as Hrn.
  { unfold history, recent. rewrite window_shrinks by done. apply Hn. }
  unfold check_rate_limit. fold history.
  destruct (decide (requests_per_minute self ≤ last_minute t history)) as [Hm|Hm];
    [|destruct (decide (requests_per_hour self ≤ length history)) as [Hh|Hh]];
    unfold within_limits;
    cbn [fst snd andb requests_per_minute requests_per_hour request_history];
    (split; [done|]); (split; [done|]); intros ip'.
  - rewrite app_nil_r. destruct (decide (ip = ip')) as [<-|Hne].
    + rewrite lookup_insert_eq. cbn [get default]. split; [done|apply Hn].
    + rewrite lookup_insert_ne by done. apply Hn.
  - rewrite app_nil_r. destruct (decide (ip = ip')) as [<-|Hne].
    + rewrite lookup_insert_eq. cbn [get default]. split; [done|apply Hn].
    + rewrite lookup_insert_ne by done. apply Hn.
  - destruct (decide (ip = ip')) as [<-|Hne].
    + rewrite lookup_insert_eq, bool_decide_eq_true_2 by done. cbn [get default].
      split_and!.
      * unfold id. unfold recent at 1 2. rewrite !List.filter_app. f_equal. exact Hrn.
      * unfold last_minute in *. etrans; [apply length_filter_snoc|].
        pose proof (window_length 60 t now (log ip) Hnow). lia.
      * unfold recent in *. etrans; [apply length_filter_snoc|].
        pose proof (window_length 3600 t now (log ip) Hnow).
        rewrite Hrt in Hh. unfold recent in Hh. lia.
    + rewrite lookup_insert_ne, bool_decide_eq_false_2, app_nil_r by done. apply Hn.
Qed.

Lemma serve_within_limits (pm ph : nat) (requests : list (Q * string)) :
  ∀ (self : RateLimiter) (log : string → list Q) (T : Q),
    StronglySorted Qle (T :: requests.*1) →
    (∀ now, (T <= now)%Q → within_limits pm ph now self log) →
    ∀ now, (∀ t, t ∈ T :: requests.*1 → (t <= now)%Q) →
      within_limits pm ph now (serve self requests).2
        (λ ip, log ip ++ admitted ip requests (serve self requests).1).
Proof.
  induction requests as [|[t ip] rest IH]; intros self log T Hs Hinv now Hnow.
  - cbn. destruct (Hinv now) as (? & ? & H); [apply Hnow; left|].
    split_and!; [done..|]. intros ip. rewrite app_nil_r. apply H.
  - cbn [serve].
    destruct (check_rate_limit t ip self) as [ok self'] eqn:E.
    destruct (serve self' rest) as [oks final] eqn:E'.
    cbn [fst snd admitted].
    apply StronglySorted_inv in Hs as [Hs HT]. cbn [fmap list_fmap fst] in HT, Hs, Hnow.
    apply Forall_cons in HT as [HT _].
    pose proof (check_rate_limit_within_limits pm ph t ip self log T HT Hinv) as Hstep.
    rewrite E in Hstep. cbn [fst snd] in Hstep.
    specialize (IH self' _ t Hs Hstep now).
    rewrite E' in IH. cbn [fst snd] in IH.
    destruct IH as (? & ? & H).
    { intros t' Ht'. apply Hnow. by right. }
    split_and!; [done..|]. intros ip'. specialize (H ip').
    by rewrite <- (assoc_L (++)) in H.
Qed.

Lemma init_within_limits (pm ph : nat) (now : Q) :
  within_limits pm ph now (RateLimiter_init pm ph) (λ _, []).
Proof.
  unfold within_limits, RateLimiter_init.
  cbn [requests_per_minute requests_per_hour request_history].
  split_and!; [done..|]. intros ip. rewrite lookup_empty.
  unfold last_minute, recent. cbn. split_and!; [done|lia..].
Qed.

(** X24. Served from a fresh limiter with a clock that never runs
    backwards, at any time not before the last request, the requests of a
    client that were let through in the last 60 seconds number at most
    [requests_per_minute], and those of the last 3600 seconds at most
    [requests_per_hour]. *)
Theorem rate_limiter_guarantee (per_minute per_hour : nat)
    (requests : list (Q * string)) (now : Q) (client_ip : string) :
  StronglySorted Qle requests.*1 →
  (∀ t, t ∈ requests.*1 → (t <= now)%Q) →
  let answers := (serve (RateLimiter_init per_minute per_hour) requests).1 in
  last_minute now (admitted client_ip requests answers) ≤ per_minute
  ∧ length (recent now (admitted client_ip requests answers)) ≤ per_hour.
Proof.
  intros Hs Hnow answers.
  assert (∃ T, StronglySorted Qle (T :: requests.*1)
               ∧ ∀ t', t' ∈ T :: requests.*1 → (t' <= now)%Q) as (T & HsT & HnT).
  { clear answers. destruct requests as [|[t ip] rest]; cbn [fmap list_fmap fst] in *.
    - exists now. split; [by repeat constructor|].
      intros t' ->%list_elem_of_singleton. apply Qle_refl.
    - exists t. split.
      + constructor; [done|]. constructor; [apply Qle_refl|].
        by apply StronglySorted_inv in Hs as [_ ?].
      + intros t' [->|?]%elem_of_cons; [|by apply Hnow]. apply Hnow. left. }
  pose proof (serve_within_limits per_minute per_hour requests
                (RateLimiter_init per_minute per_hour)
                (λ _, []) T HsT) as H.
  destruct (H (λ now' _, init_within_limits _ _ now') now HnT) as (_ & _ & Hip).
  destruct (Hip client_ip) as (_ & H1 & H2). split; [exact H1|exact H2].
Qed.

(** ** Impact metrics and documents after storage; recommendations *)

Lemma rate_limiter_guarantee_witness :
  let requests := [(0%Q, "10.0.0.1"); (10%Q, "10.0.0.1"); (20%Q, "10.0.0.1");
                   (30%Q, "10.0.0.2")] in
  let answers := (serve (RateLimiter_init 2 5) requests).1 in
  last_minute 30 (admitted "10.0.0.1" requests answers) ≤ 2
  ∧ length (recent 30 (admitted "10.0.0.1" requests answers)) ≤ 5.
Proof.
  apply (rate_limiter_guarantee 2 5
           [(0%Q, "10.0.0.1"); (10%Q, "10.0.0.1"); (20%Q, "10.0.0.1");
            (30%Q, "10.0.0.2")] 30%Q "10.0.0.1").
  - repeat constructor; by vm_compute.
  - intros t Ht. repeat (apply elem_of_cons in Ht as [->|Ht]; [by vm_compute|]).
    by apply elem_of_nil in Ht.
Defined.

(** X25. [check_rate_limit] lets a request through exactly when
    [get_remaining_requests], asked at the same time for the same client,
    reports a positive remainder for the minute and for the hour. *)
Theorem check_rate_limit_iff_remaining (current_time : Q) (client_ip : string)
    (self : RateLimiter) :
  let remaining := (get_remaining_requests current_time client_ip self).1 in
  (check_rate_limit current_time client_ip self).1 = true
  ↔ 0 < remaining.1 ∧ 0 < remaining.2.
Proof.
  unfold check_rate_limit, get_remaining_requests.
  destruct (request_history self !! client_ip) as [old|]; cbn [get default fst snd];
    unfold id.
  - destruct (decide (requests_per_minute self ≤ _)) as [Hm|Hm]; cbn [fst].
    + split; [done|lia].
    + destruct (decide (requests_per_hour self ≤ _)) as [Hh|Hh]; cbn [fst].
      * split; [done|lia].
      * split; [lia|done].
  - unfold last_minute, recent. cbn [List.filter length].
    destruct (decide (requests_per_minute self ≤ 0)) as [Hm|Hm]; cbn [fst].
    + split; [done|lia].
    + destruct (decide (requests_per_hour self ≤ 0)) as [Hh|Hh]; cbn [fst].
      * split; [done|lia].
      * split; [lia|done].
Qed.

Section SameIds.
Variables G G' : DiGraph.
Hypothesis Hnodes : node_ids G' = node_ids G.
Hypothesis Hedges : edge_ids G' = edge_ids G.

Lemma successors_ids (u : string) : successors G' u = successors G u.
Proof. unfold successors. by rewrite Hedges. Qed.

Lemma predecessors_ids (v : string) : predecessors G' v = predecessors G v.
Proof. unfold predecessors. by rewrite Hedges. Qed.

Lemma walks_from_ids (k : nat) (s : string) : walks_from G' k s = walks_from G k s.
Proof.
  revert s. induction k as [|k IH]; intros s; cbn [walks_from]; [done|].
  rewrite successors_ids. apply list_bind_ext; [|done]. intros w. by rewrite IH.
Qed.

Lemma shortest_path_length_ids (s t : string) :
  shortest_path_length G' s t = shortest_path_length G s t.
Proof.
  unfold shortest_path_length, paths. rewrite !number_of_nodes_ids, Hnodes.
  induction (seq 0 (length (node_ids G))) as [|k l IH]; cbn [List.find]; [done|].
  by rewrite walks_from_ids, IH.
Qed.

Lemma descendants_ids (s : string) : descendants G' s = descendants G s.
Proof.
  unfold descendants. rewrite Hnodes. f_equal.
  apply list_filter_iff. intros w. by rewrite shortest_path_length_ids.
Qed.

End SameIds.

Lemma edge_ids_reverse (G : DiGraph) :
  edge_ids (reverse G) = (λ e, (e.2, e.1)) <$> edge_ids G.
Proof.
  unfold edge_ids, reverse. cbn [edges]. rewrite <- !list_fmap_compose.
  apply list_fmap_ext. by intros ? [[] ?].
Qed.

Lemma ancestors_ids (G G' : DiGraph) (s : string) :
  node_ids G' = node_ids G → edge_ids G' = edge_ids G →
  ancestors G' s = ancestors G s.
Proof.
  intros Hn He. unfold ancestors. apply descendants_ids; [done|].
  by rewrite !edge_ids_reverse, He.
Qed.

Lemma assoc_is_Some {K V} `{EqDecision K} (k : K) (d : list (K * V)) :
  k ∈ d.*1 → is_Some (assoc k d).
Proof.
  induction d as [|[k' v] d IH]; cbn [assoc]; [by intros ?%elem_of_nil|].
  destruct (decide (k = k')); [by eexists|].
  rewrite fmap_cons. intros [?|?]%elem_of_cons; [done|]. by apply IH.
Qed.

(** X26. Impact metrics survive storage: for a well-formed graph,
    [get_node_impact] on the graph loaded from its stored document gives
    the same answer as on the graph itself, except that a node without type
    is reported with the type [unknown]. *)
Theorem node_impact_survives_storage (node_id : string) (graph : DiGraph) :
  wf graph →
  get_node_impact node_id (load_graph_from_data (graph_data graph))
  = match get_node_impact node_id graph with
    | ImpactError error => ImpactError error
    | Impact r =>
        Impact
          {| impact_node_id := impact_node_id r;
             impact_node_type := Some (get (impact_node_type r) "unknown");
             impact_descendants := impact_descendants r;
             impact_ancestors := impact_ancestors r;
             impact_in_degree := impact_in_degree r;
             impact_out_degree := impact_out_degree r;
             total_impact := total_impact r;
             centrality_metrics := centrality_metrics r |}
    end.
Proof.
  intros Hwf. rewrite load_graph_data by done.
  set (G' := {| nodes := prod_map id stored_node <$> nodes graph;
                edges := prod_map id stored_edge <$> edges graph |}).
  assert (node_ids G' = node_ids graph) as Hn by apply keys_prod_map.
  assert (edge_ids G' = edge_ids graph) as He by apply keys_prod_map.
  unfold get_node_impact, in_degree, out_degree, in_degree_of, out_degree_of, has_node.
  rewrite Hn. destruct (decide (node_id ∈ node_ids graph)) as [Hin|Hin].
  - rewrite !bool_decide_eq_true_2 by done. cbn [negb].
    rewrite (descendants_ids graph G'), (ancestors_ids graph G'),
      (predecessors_ids graph G'), (successors_ids graph G') by done.
    cbn [impact_node_id impact_node_type impact_descendants impact_ancestors
         impact_in_degree impact_out_degree total_impact centrality_metrics].
    unfold node_attrs, G'. cbn [nodes]. rewrite assoc_prod_map.
    destruct (assoc_is_Some node_id (nodes graph) Hin) as [a ->]. done.
  - rewrite !bool_decide_eq_false_2 by done. done.
Qed.

Lemma node_impact_survives_storage_witness :
  let graph := build_graph (nx := networkx) Examples.import_of_unparsed in
  get_node_impact "b.py" (load_graph_from_data (graph_data graph))
  = match get_node_impact "b.py" graph with
    | ImpactError error => ImpactError error
    | Impact r =>
        Impact
          {| impact_node_id := impact_node_id r;
             impact_node_type := Some (get (impact_node_type r) "unknown");
             impact_descendants := impact_descendants r;
             impact_ancestors := impact_ancestors r;
             impact_in_degree := impact_in_degree r;
             impact_out_degree := impact_out_degree r;
             total_impact := total_impact r;
             centrality_metrics := centrality_metrics r |}
    end.
Proof.
  apply node_impact_survives_storage. apply (wf_build_graph (nx := networkx)).
Defined.

Lemma unweighted_build_graph {nx : Centrality} ast_trees :
  unweighted (build_graph ast_trees).
Proof.
  unfold build_graph, nodes_and_edges, unweighted.
  rewrite edges_add_centrality_metrics.
  assert (∀ {A} (f : DiGraph → A → DiGraph) (l : list A) G,
            (∀ g x, unweighted g → unweighted (f g x)) →
            unweighted G → unweighted (foldl f G l)) as Hfold.
  { intros A f l. induction l as [|x l IH]; intros G Hf HG; cbn [foldl]; auto. }
  apply Hfold.
  - intros g [file_path ast_data] Hg. unfold add_import_edges.
    destruct (error ast_data); [done|].
    apply Hfold; [|done].
    intros g' i Hg'. unfold add_import_edge.
    destruct (find_import_target _ _); [|done].
    intros [k a] Hin. cbn [add_edge edges] in Hin.
    apply elem_of_upsert in Hin as [Hin|[-> [->|(a0 & H0 & ->)]]]; [by apply (Hg' _ Hin)|done|].
    cbn. apply (Hg' _ H0).
  - unfold unweighted. rewrite edges_first_pass. by intros e ?%elem_of_nil.
Qed.

(** X27. The document stored for a built graph is self-consistent: the
    two counters are the lengths of the node and edge lists, node
    identifiers are unique, every node has one of the types [file],
    [function], [class], [async_function], [unknown], and every edge has
    type [import], weight 1 and end points among the listed nodes. *)
Theorem stored_document_of_built_graph {nx : Centrality} (ast_trees : AstTrees) :
  let document := graph_data (build_graph ast_trees) in
  let ids := doc_id <$> doc_nodes document in
  nodes_count document = length (doc_nodes document)
  ∧ edges_count document = length (doc_edges document)
  ∧ NoDup ids
  ∧ (∀ n, n ∈ doc_nodes document →
          doc_type n ∈ [Some "file"; Some "function"; Some "class";
                        Some "async_function"; Some "unknown"])
  ∧ (∀ e, e ∈ doc_edges document →
          doc_edge_type e = Some "import" ∧ doc_weight e = Some 1%Q
          ∧ doc_source e ∈ ids ∧ doc_target e ∈ ids).
Proof.
  intros document ids. set (G := build_graph ast_trees).
  pose proof (wf_build_graph ast_trees) as (Hnd & _ & Hends). fold G in Hnd, Hends.
  assert (ids = node_ids G) as ->.
  { unfold ids, document, graph_data, _serialize_nodes. cbn [doc_nodes].
    rewrite <- list_fmap_compose. done. }
  split_and!.
  - unfold document, graph_data, _serialize_nodes, number_of_nodes. cbn [nodes_count doc_nodes].
    by rewrite length_fmap.
  - unfold document, graph_data, _serialize_edges, number_of_edges. cbn [edges_count doc_edges].
    by rewrite length_fmap.
  - done.
  - intros n ([v a] & -> & Hin)%list_elem_of_fmap. cbn [doc_type snd].
    destruct (built_build_graph ast_trees v a Hin) as [[->|Ht] _]; cbn.
    + compute_done.
    + destruct (ntype a) as [t|]; cbn; [|compute_done].
      rewrite !elem_of_cons in *. tauto.
  - intros e ([[u v] a] & -> & Hin)%list_elem_of_fmap. cbn [doc_edge_type doc_weight doc_source doc_target fst snd].
    pose proof (all_imports_build_graph ast_trees _ Hin) as Ht.
    pose proof (unweighted_build_graph ast_trees _ Hin) as Hw.
    cbn [snd] in Ht, Hw. rewrite Ht, Hw.
    split_and!; [done|done|..]; apply (Hends u v), list_elem_of_fmap; by exists ((u, v), a).
Qed.

Lemma elem_of_if_singleton (b : bool) (x y : string) :
  x ∈ (if b then [y] else []) ↔ b = true ∧ x = y.
Proof.
  destruct b.
  - rewrite list_elem_of_singleton. by split; [|intros []].
  - rewrite elem_of_nil. by split; [|intros []].
Qed.

Lemma elem_of_decide_singleton (P : Prop) `{Decision P} (x y : string) :
  x ∈ (if decide P then [y] else []) → x = y.
Proof.
  destruct (decide P); [by intros ->%list_elem_of_singleton|by intros ?%elem_of_nil].
Qed.

Lemma risk_recommendations (risk_level x : string) :
  x ∈ (if decide (risk_level = "CRITICAL") then
         ["URGENT: Extensive impact detected. Recommend staged rollout with feature flags";
          "Implement enhanced monitoring and alerting";
          "Consider rolling back plan if issues detected"]
       else if decide (risk_level = "HIGH") then
         ["High impact detected. Plan comprehensive testing";
          "Deploy with caution, monitor all affected endpoints"]
       else if decide (risk_level = "MEDIUM") then
         ["Standard testing procedures recommended"]
       else []) →
  x ∈ ["URGENT: Extensive impact detected. Recommend staged rollout with feature flags";
       "Implement enhanced monitoring and alerting";
       "Consider rolling back plan if issues detected";
       "High impact detected. Plan comprehensive testing";
       "Deploy with caution, monitor all affected endpoints";
       "Standard testing procedures recommended"].
Proof.
  destruct (decide (risk_level = "CRITICAL")); [|destruct (decide (risk_level = "HIGH"));
    [|destruct (decide (risk_level = "MEDIUM"))]];
    rewrite !elem_of_cons, !elem_of_nil; tauto.
Qed.

(** X28. The three file-based recommendations are issued exactly when a
    changed file mentions the keyword, in any letter case and anywhere in
    its path: [database], [api], and [auth] or [security]. *)
Theorem keyword_recommendations (risk_level : string) (impacted_count high_risk_count : nat)
    (changed_files : list string) :
  let recommendations :=
    _generate_recommendations risk_level impacted_count high_risk_count changed_files in
  let mentions (keyword : string) :=
    ∃ f, f ∈ changed_files ∧ str_in keyword (lower f) = true in
  ("Database schema changes detected. Verify migration strategy" ∈ recommendations
   ↔ mentions "database")
  ∧ ("API changes detected. Verify backward compatibility" ∈ recommendations
     ↔ mentions "api")
  ∧ ("Security-related changes. Perform security review" ∈ recommendations
     ↔ mentions "auth" ∨ mentions "security").
Proof.
  intros recommendations mentions.
  assert (∀ p, any p changed_files = true ↔ ∃ f, f ∈ changed_files ∧ p f = true) as Hany.
  { intros p. unfold any. rewrite existsb_exists. by setoid_rewrite list_elem_of_In. }
  assert (mentions "auth" ∨ mentions "security" ↔
          ∃ f, f ∈ changed_files
               ∧ str_in "auth" (lower f) || str_in "security" (lower f) = true) as Hor.
  { setoid_rewrite orb_true_iff. unfold mentions. naive_solver. }
  rewrite Hor. unfold mentions. rewrite <- !Hany.
  assert (∀ x, x ∈ recommendations →
               String.get 0 x ≠ Some "L"%char → String.get 0 x ≠ Some "F"%char →
               (∀ y, y ∈ ["URGENT: Extensive impact detected. Recommend staged rollout with feature flags";
                          "Implement enhanced monitoring and alerting";
                          "Consider rolling back plan if issues detected";
                          "High impact detected. Plan comprehensive testing";
                          "Deploy with caution, monitor all affected endpoints";
                          "Standard testing procedures recommended"] → x ≠ y) →
               (any (λ f, str_in "database" (lower f)) changed_files = true
                ∧ x = "Database schema changes detected. Verify migration strategy")
               ∨ (any (λ f, str_in "api" (lower f)) changed_files = true
                  ∧ x = "API changes detected. Verify backward compatibility")
               ∨ (any (λ f, str_in "auth" (lower f) || str_in "security" (lower f))
                      changed_files = true
                  ∧ x = "Security-related changes. Perform security review")) as Hcases.
  { intros x. unfold recommendations, _generate_recommendations. cbv zeta.
    rewrite !elem_of_app, !elem_of_if_singleton.
    intros [H|[H|[H|H]]] HL HF Hrisk.
    - apply risk_recommendations in H. by destruct (Hrisk x H).
    - apply elem_of_decide_singleton in H. subst x. by destruct HL.
    - apply elem_of_decide_singleton in H. subst x. by destruct HF.
    - tauto. }
  assert (∀ b (x : string), b = true → x ∈ (if b then [x] else [])) as Hemit.
  { intros b x ->. left. }
  split_and!; (split; [intros H; apply Hcases in H; [|done|done|]|]).
  - by destruct H as [[? _]|[[_ ?]|[_ ?]]].
  - intros y Hy. repeat (apply elem_of_cons in Hy as [->|Hy]; [done|]). by apply elem_of_nil in Hy.
  - intros H. unfold recommendations, _generate_recommendations. cbv zeta.
    rewrite !elem_of_app. do 3 right. left. by apply Hemit.
  - by destruct H as [[_ ?]|[[? _]|[_ ?]]].
  - intros y Hy. repeat (apply elem_of_cons in Hy as [->|Hy]; [done|]). by apply elem_of_nil in Hy.
  - intros H. unfold recommendations, _generate_recommendations. cbv zeta.
    rewrite !elem_of_app. do 4 right. left. by apply Hemit.
  - by destruct H as [[_ ?]|[[_ ?]|[? _]]].
  - intros y Hy. repeat (apply elem_of_cons in Hy as [->|Hy]; [done|]). by apply elem_of_nil in Hy.
  - intros H. unfold recommendations, _generate_recommendations. cbv zeta.
    rewrite !elem_of_app. do 5 right. by apply Hemit.
Qed.
